(** * REDPy plotting: interval clipping, timelines, layouts, image files
      and correlation matrices

    A shallow embedding of [redpy/plotting_bak.py]:

    - [generateLines], the helper that decides whether a family's lifespan
      is drawn on the timeline, where its ends are clipped and which
      overflow arrows are needed;
    - the per-family loop of [plotFamilyOccurrence], which bins the events
      of each family, colours the bins and lays the families out in rows,
      with the colour bar of [determineColorMapper];
    - [plotLongevity] and [plotFI], as far as what they draw;
    - the layout of [renderBokehTimeline] and of the three timelines of
      [plotTimelines], and the window and the grid of [customPDFoverview];
    - the image files that [createPlots], [plotCores] and [plotFamilies]
      move and write, and the pages that [cleanHTML] removes;
    - the scaling of the traces of [createJunkPlots];
    - the part of [plotReport] that builds the stored correlation matrix of
      a family from the correlation table and fills in the missing cells
      with [redpy.correlation.xcorr1x1], and its optional OPTICS ordering.

    Times and correlation values are floats in the program.  They are
    modelled as exact rationals ([Q]): the code only adds, subtracts,
    scales and compares them.  The single transcendental function,
    [np.log10], is modelled over the reals in the module [Rate]. *)

From Stdlib Require Import QArith Qabs Qround Reals Psatz List Bool Permutation Ascii.
From stdpp Require Import base option list sorting strings gmap.

Set Default Proof Using "Type".

(** ** Comparisons of floats, as the program writes them *)

Definition Qleb (a b : Q) : bool := Qle_bool a b.
Definition Qgeb (a b : Q) : bool := Qle_bool b a.
Definition Qltb (a b : Q) : bool := negb (Qle_bool b a).
Definition Qgtb (a b : Q) : bool := negb (Qle_bool a b).

(** ** [generateLines] *)

Module Clip.

(** The tuple [(add_line, add_larrow, add_rarrow, x1, x2)] that
    [generateLines] returns. *)
Record lines := Lines {
  add_line : bool;
  add_larrow : bool;
  add_rarrow : bool;
  x1 : Q;
  x2 : Q
}.

(** [generateLines(mintime, maxtime, barpad, famstart, longev)]: the five
    locals start at [False, False, False, 0, 0] and one branch of the
    [if]/[elif] chain, the first whose test holds, overwrites some of
    them. *)
Definition generateLines (mintime maxtime barpad famstart longev : Q) : lines :=
  if Qleb mintime famstart && Qgeb maxtime (famstart + longev) then
    Lines true false false famstart (famstart + longev)
  else if Qleb mintime famstart && Qleb maxtime famstart then
    Lines false false false 0 0
  else if Qleb mintime famstart && Qleb maxtime (famstart + longev) then
    Lines true false true famstart (maxtime + barpad)
  else if Qgeb mintime famstart && Qgeb maxtime (famstart + longev)
          && Qleb mintime (famstart + longev) then
    Lines true true false (mintime - barpad) (famstart + longev)
  else if Qgeb mintime famstart && Qleb maxtime (famstart + longev) then
    Lines true true true (mintime - barpad) (maxtime + barpad)
  else
    Lines false false false 0 0.

(** *** The decision table of the specification

    The six conditions, word for word, with [end = start + length]. *)
Definition table_A (tmin tmax start len : Q) : bool :=
  Qleb tmin start && Qgeb tmax (start + len).
Definition table_B (tmin tmax start len : Q) : bool :=
  Qleb tmin start && Qleb tmax start.
Definition table_C (tmin tmax start len : Q) : bool :=
  Qleb tmin start && (Qltb start tmax && Qltb tmax (start + len)).
Definition table_D (tmin tmax start len : Q) : bool :=
  Qgeb tmin start && Qgeb tmax (start + len) && Qleb tmin (start + len).
Definition table_E (tmin tmax start len : Q) : bool :=
  Qgeb tmin start && Qleb tmax (start + len).
Definition table_F (tmin tmax start len : Q) : bool :=
  negb (table_A tmin tmax start len || table_B tmin tmax start len
        || table_C tmin tmax start len || table_D tmin tmax start len
        || table_E tmin tmax start len).

(** The six conditions at one input, in the order of the table. *)
Definition table (tmin tmax start len : Q) : list bool :=
  [table_A tmin tmax start len; table_B tmin tmax start len;
   table_C tmin tmax start len; table_D tmin tmax start len;
   table_E tmin tmax start len; table_F tmin tmax start len].

(** How many of the six conditions hold. *)
Definition cases_holding (tmin tmax start len : Q) : nat :=
  length (filter (fun b : bool => b = true) (table tmin tmax start len)).

Inductive case := CaseA | CaseB | CaseC | CaseD | CaseE | CaseF.

(** The output row the table prescribes for a case.  The table leaves
    the arrows and the ends open when nothing is drawn; the rows below
    carry what [generateLines] initialises them to. *)
Definition row (c : case) (tmin tmax pad start len : Q) : lines :=
  match c with
  | CaseA => Lines true false false start (start + len)
  | CaseB => Lines false false false 0 0
  | CaseC => Lines true false true start (tmax + pad)
  | CaseD => Lines true true false (tmin - pad) (start + len)
  | CaseE => Lines true true true (tmin - pad) (tmax + pad)
  | CaseF => Lines false false false 0 0
  end.

(** The table read from the top: the first case whose condition holds. *)
Definition first_case (tmin tmax start len : Q) : case :=
  if table_A tmin tmax start len then CaseA
  else if table_B tmin tmax start len then CaseB
  else if table_C tmin tmax start len then CaseC
  else if table_D tmin tmax start len then CaseD
  else if table_E tmin tmax start len then CaseE
  else CaseF.

(** The table read as a whole: every case whose condition holds gets its
    own row. *)
Definition every_holding_case_gets_its_row
    (tmin tmax pad start len : Q) : Prop :=
  let out := generateLines tmin tmax pad start len in
  (table_A tmin tmax start len = true -> out = row CaseA tmin tmax pad start len) /\
  (table_B tmin tmax start len = true -> add_line out = false) /\
  (table_C tmin tmax start len = true -> out = row CaseC tmin tmax pad start len) /\
  (table_D tmin tmax start len = true -> out = row CaseD tmin tmax pad start len) /\
  (table_E tmin tmax start len = true -> out = row CaseE tmin tmax pad start len) /\
  (table_F tmin tmax start len = true -> add_line out = false).

(** [x] lies in the closed interval from [lo] to [hi]. *)
Definition within (lo hi x : Q) : Prop := (lo <= x)%Q /\ (x <= hi)%Q.

End Clip.

(** ** Exceptions

    A Python call either returns a value or raises.  The exceptions of
    the modelled code: [IndexError] from indexing out of range,
    [ValueError] from [min] and [max] of an empty sequence and from
    numpy, [ZeroDivisionError] from [np.arange], [AttributeError] from a
    method call on [None], and [ComparisonError] for whatever the
    correlation routine raises. *)

Inductive exn :=
  | IndexError
  | ValueError
  | ZeroDivisionError
  | AttributeError
  | ComparisonError.

Inductive result (A : Type) : Type :=
  | Ok (a : A)
  | Raise (e : exn).
Arguments Ok {A} a.
Arguments Raise {A} e.

(** Sequencing: [x ← m; k] runs [m] and, unless it raised, goes on with
    [k]. *)
#[global] Instance result_bind : MBind result := fun A B k m =>
  match m with
  | Ok a => k a
  | Raise e => Raise e
  end.

(** [l[i]] for a Python list or a numpy array and an index [i >= 0]. *)
Definition index {A : Type} (l : list A) (i : nat) : result A :=
  match l !! i with
  | Some a => Ok a
  | None => Raise IndexError
  end.

(** [f] on every element from left to right, stopping at the first
    exception. *)
Fixpoint rmap {A B : Type} (f : A -> result B) (l : list A) : result (list B) :=
  match l with
  | [] => Ok []
  | a :: l' => b ← f a; bs ← rmap f l'; Ok (b :: bs)
  end.

(** A [for] loop over [l] that threads the state [s] through its body. *)
Fixpoint rfor {A S : Type} (l : list A) (body : A -> S -> result S) (s : S)
    : result S :=
  match l with
  | [] => Ok s
  | a :: l' => s' ← body a s; rfor l' body s'
  end.

(** [a[idx]] for an index array [idx]. *)
Definition take_at {A : Type} (a : list A) (idx : list nat) : result (list A) :=
  rmap (index a) idx.

(** ** The colour index of a bin *)

Module Rate.

(** [np.log10] *)
Definition log10 (x : R) : R := (ln x / ln 10)%R.

(** [int(x)] for a float [x]: the integer towards zero. *)
Definition py_int (x : R) : Z :=
  if Rle_dec 0 x then Int_part x else (- Int_part (- x))%Z.

(** 3 for bins of a day or longer, 2 for shorter bins. *)
Definition divisor (binsize : Q) : Z := if Qgeb binsize 1 then 3%Z else 2%Z.

(** Lines 524-528 of [plotFamilyOccurrence], for one bin that holds
    [count] events: [int(min(255,255*(i/3)))] with [i = log10(count)],
    and [2] in place of [3] for bins shorter than a day. *)
Definition rate_value (binsize : Q) (count : nat) : R :=
  Rmin 255 (255 * (log10 (INR count) / IZR (divisor binsize))).

Definition rate_ind (binsize : Q) (count : nat) : Z :=
  py_int (rate_value binsize count).

(** The formula of the specification:
    [clamp(255 * log10(count) / divisor, 0, 255)], floored. *)
Definition clamp (x lo hi : R) : R := Rmax lo (Rmin hi x).

Definition spec_index (w : Q) (count : nat) : Z :=
  Int_part (clamp (255 * log10 (INR count) / IZR (divisor w)) 0 255).

(** The same index by integer arithmetic: the number of steps
    [k = 1, 2, ...], up to 255, for which [10 ^ (divisor * k)] stays
    within [count ^ 255].  [acc] holds the power of ten reached. *)
Fixpoint climb (step bound acc : Z) (fuel : nat) : nat :=
  match fuel with
  | O => O
  | S fuel' =>
      if (acc * step <=? bound)%Z
      then S (climb step bound (acc * step) fuel')
      else O
  end.

Definition rate_index (binsize : Q) (count : nat) : nat :=
  climb (10 ^ divisor binsize) (Z.of_nat count ^ 255) 1 255.

End Rate.

(** ** The family loop of [plotFamilyOccurrence] *)

Module Occurrence.
Import Clip.

(** [min(a)] and [max(a)] of Python for a sequence of floats: the first
    smallest and the first largest element; an empty sequence raises. *)
Definition py_min (a : list Q) : result Q :=
  match a with
  | [] => Raise ValueError
  | x :: a' => Ok (foldl (fun m y => if Qltb y m then y else m) x a')
  end.

Definition py_max (a : list Q) : result Q :=
  match a with
  | [] => Raise ValueError
  | x :: a' => Ok (foldl (fun m y => if Qgtb y m then y else m) x a')
  end.

(** [np.where(mask)[0]]: the positions at which [mask] holds. *)
Fixpoint where_from (k : nat) (mask : list bool) : list nat :=
  match mask with
  | [] => []
  | b :: mask' => if b then k :: where_from (S k) mask' else where_from (S k) mask'
  end.

Definition np_where (mask : list bool) : list nat := where_from 0 mask.

(** [np.sum(a)] *)
Definition np_sum (a : list Q) : Q := foldl Qplus 0%Q a.

(** What is drawn.  Every glyph lies on the row [y] of its family. *)
Inductive glyph :=
  | Line (x1 x2 : Q) (y : nat)
  | LeftArrow (x_start x_end : Q) (y : nat)
  | RightArrow (x_start x_end : Q) (y : nat)
  | Quad (xl xr : Q) (color : nat) (y : nat)
  | Label (x : Q) (y : nat) (text : nat)
  | Patch (xl xr : Q) (y : nat) (famnum : nat).

(** The state of the loop: the row [n] of the next family and what has
    been drawn so far, each glyph with the number of the family whose
    pass through the loop drew it. *)
Record drawing := Drawing { n : nat; glyphs : list (nat * glyph) }.

(** [colorby], after the default for an unrecognised choice. *)
Inductive colorby := ByRate | ByFI.

(** [opt.fispanlow] and [opt.fispanhigh] *)
Record options := Options { fispanlow : Q; fispanhigh : Q }.

(** Lines 542-543, for the mean frequency index [m] of one bin:
    [int(max(min(255,255*(m-low)/(high-low)),0))].  Dividing by a zero
    span gives an infinity or a nan in floating point, which [min] and
    [max] turn into 0 or 255. *)
Definition fi_index (opt : options) (m : Q) : nat :=
  let span := (fispanhigh opt - fispanlow opt)%Q in
  if Qeq_bool span 0 then
    if Qltb (m - fispanlow opt) 0 then 0%nat else 255%nat
  else
    let x := (255 * (m - fispanlow opt) / span)%Q in
    let y := if Qltb x 255 then x else 255%Q in
    let z := if Qltb y 0 then 0%Q else y in
    Z.to_nat (Qfloor z).

(** A family that is left out of the timeline: it has fewer members
    than [minplot], or all its events lie before [mintime]. *)
Definition left_out (dt : list Q) (mintime : Q) (minplot : nat)
    (members : list nat) : Prop :=
  (length members < minplot)%nat \/
  (forall k t, k ∈ members -> dt !! k = Some t -> (t < mintime)%Q).

Section Loop.

(** [np.arange] and [np.histogram] are taken as they come:
    [np_arange start stop step] returns the bin edges and
    [np_histogram a bins] the count of each bin; either may raise. *)
Variable np_arange : Q -> Q -> Q -> result (list Q).
Variable np_histogram : list Q -> list Q -> result (list nat).

Variables (dt famstarts longevity fi : list Q).
Variables (mintime maxtime : Q) (minplot : nat) (binsize barpad : Q).
Variables (colorby_ : colorby) (opt : options).
(** [useBokeh], and whether an axis handle [ax] was passed. *)
Variables (useBokeh ax : bool).

(** Lines 523-543: the colour index of every nonempty bin.  [times] is
    [dt[members]], [d1] the left edges of the nonempty bins. *)
Definition bin_colours (members : list nat) (times : list Q)
    (hist : list nat) (d1 : list Q) : result (list nat) :=
  let counts := filter (fun c => (0 < c)%nat) hist in
  match colorby_ with
  | ByRate => Ok (Rate.rate_index binsize <$> counts)
  | ByFI =>
      rmap (fun '(edge, count) =>
              let idxs := np_where ((fun t => Qgeb t edge && Qltb t (edge + binsize))
                                      <$> times) in
              who ← take_at members idxs;
              vals ← take_at fi who;
              Ok (fi_index opt (np_sum vals / inject_Z (Z.of_nat count))))
           (zip d1 counts)
  end.

(** Lines 596-604: the Matplotlib boxes, one for every nonempty bin
    that starts inside the window; [x2] moves to the right end of a box
    that reaches beyond it. *)
Fixpoint boxes (y : nat) (bins : list (Q * nat)) (x2 : Q)
    : list glyph * Q :=
  match bins with
  | [] => ([], x2)
  | (x, color) :: bins' =>
      if Qgeb x mintime && Qleb x maxtime then
        let x2' := if Qgtb (x + binsize) x2 then (x + binsize)%Q else x2 in
        let '(gs, x2'') := boxes y bins' x2' in
        (Quad x (x + binsize) color y :: gs, x2'')
      else boxes y bins' x2
  end.

(** Lines 512-636: one pass through the loop, for the family
    [clustNum] with the members [members]. *)
Definition family (cm : nat * list nat) (st : drawing) : result drawing :=
  let '(clustNum, members) := cm in
  times ← take_at dt members;
  first ← py_min times;
  last ← py_max times;
  h ← np_arange first (last + binsize) binsize;
  hist ← np_histogram times h;
  d1 ← take_at h (np_where ((fun c => Nat.ltb 0 c) <$> hist));
  let d2 := (fun x => x + binsize)%Q <$> d1 in
  colors ← bin_colours members times hist d1;
  if Nat.leb minplot (length times) && Qgtb last mintime then
    famstart ← index famstarts clustNum;
    longev ← index longevity clustNum;
    let l := generateLines mintime maxtime barpad famstart longev in
    let y := n st in
    lines ←
      (if add_line l then
         rarrow ←
           (if add_rarrow l then
              if ax then Ok [RightArrow (maxtime + 2 * barpad) (maxtime + barpad) y]
              else Raise AttributeError
            else Ok []);
         Ok ([Line (x1 l) (x2 l) y]
             ++ (if add_larrow l then
                   if useBokeh
                   then [LeftArrow (famstart + longev) (mintime - barpad) y]
                   else [LeftArrow (mintime - 2 * barpad) (mintime - barpad) y]
                 else [])
             ++ rarrow)
       else Ok []);
    rest ←
      (if useBokeh then
         let quads :=
           (fun '(xl, xr, color) => Quad xl xr color y)
             <$> filter (fun b => Qgtb b.1.1 mintime = true)
                   (zip (zip d1 d2) colors) in
         xmax ← py_max d2;
         Ok (quads
             ++ [Label xmax y (length times);
                 Patch ((if Qgtb mintime first then mintime else first) - barpad)
                       (last + barpad) y clustNum])
       else
         let '(quads, x2') := boxes y (zip d1 colors) (x2 l) in
         Ok (quads ++ [Label x2' y (length times)]));
    Ok (Drawing (S y) (glyphs st ++ (pair clustNum <$> (lines ++ rest))))
  else Ok st.

(** Lines 483-636 as far as they bear on what is drawn: the families
    of [ftable], one after the other, from row 0.  Without Bokeh the
    first use of a missing axis handle raises. *)
Definition plotFamilyOccurrence (ftable : list (list nat)) : result drawing :=
  if negb useBokeh && negb ax then Raise AttributeError
  else rfor (zip (seq 0 (length ftable)) ftable) family (Drawing 0 []).

End Loop.

(** *** Exact binning, for the examples

    [np.arange(start, stop, step)] and [np.histogram(a, bins)] in exact
    arithmetic: [ceil((stop - start) / step)] edges [start + k * step],
    and for each pair of neighbouring edges the number of elements from
    the left edge up to, but not including, the right one; the last bin
    includes its right edge. *)
Definition arange_exact (start stop step : Q) : result (list Q) :=
  if Qeq_bool step 0 then Raise ZeroDivisionError
  else
    let len := Z.to_nat (Qceiling ((stop - start) / step)) in
    Ok ((fun k => start + inject_Z (Z.of_nat k) * step)%Q <$> seq 0 len).

Fixpoint bin_counts (a : list Q) (bins : list Q) : list nat :=
  match bins with
  | lo :: ((hi :: rest) as bins') =>
      let inside t :=
        Qgeb t lo && (match rest with
                        | [] => Qleb t hi
                        | _ => Qltb t hi
                        end) in
      length (filter (fun t => inside t = true) a) :: bin_counts a bins'
  | _ => []
  end.

Fixpoint increasing (bins : list Q) : bool :=
  match bins with
  | lo :: ((hi :: _) as bins') => Qleb lo hi && increasing bins'
  | _ => true
  end.

Definition histogram_exact (a bins : list Q) : result (list nat) :=
  if increasing bins then Ok (bin_counts a bins) else Raise ValueError.

(** *** An example timeline

    Three families: the first has four events inside the window from 100
    to 200, the second two events before it, the third a single event. *)
Definition example_dt : list Q :=
  [101; 102; 205 # 2; 150; 40; 50; 120]%Q.
Definition example_famstarts : list Q := [101; 40; 120]%Q.
Definition example_longevity : list Q := [49; 10; 0]%Q.
Definition example_ftable : list (list nat) := [[0; 1; 2; 3]; [4; 5]; [6]]%nat.

(** The example with bins and padding of one day, coloured by rate, for
    families of two members and more. *)
Definition example_run (mintime maxtime : Q) (useBokeh ax : bool)
    : result drawing :=
  plotFamilyOccurrence arange_exact histogram_exact
    example_dt example_famstarts example_longevity []
    mintime maxtime 2 1 1 ByRate (Options 0 1) useBokeh ax example_ftable.

End Occurrence.

(** ** Reading a timeline *)

Module Timeline.
Import Occurrence.

(** The row on which a glyph lies. *)
Definition row (g : glyph) : nat :=
  match g with
  | Line _ _ y | LeftArrow _ _ y | RightArrow _ _ y
  | Quad _ _ _ y | Label _ y _ | Patch _ _ y _ => y
  end.

(** The labels of a drawing in the order in which they were drawn, each
    with the family that drew it, its row and its text, the number of
    members. *)
Definition labels (gs : list (nat * glyph)) : list (nat * nat * nat) :=
  omap (fun '(c, g) => match g with
                       | Label _ y text => Some (c, y, text)
                       | _ => None
                       end) gs.

(** A family that is not left out: it has at least [minplot] members and
    an event after [mintime]. *)
Definition included (dt : list Q) (mintime : Q) (minplot : nat)
    (members : list nat) : Prop :=
  (minplot <= length members)%nat /\
  exists k t, k ∈ members /\ dt !! k = Some t /\ (mintime < t)%Q.

(** What the blocks and the hover patch of the family [c] are checked
    against below: a block is one bin wide, starts inside the window and has
    a colour of the palette; the patch carries the number of the family and
    spans its events inside the window, widened by [barpad]; the label
    shows the number [size] of members. *)
Definition sound (mintime maxtime binsize barpad : Q) (useBokeh : bool)
    (c size : nat) (first last : Q) (g : glyph) : Prop :=
  match g with
  | Label _ _ text => text = size
  | Quad xl xr color _ =>
      xr = (xl + binsize)%Q /\ (color <= 255)%nat /\
      (if useBokeh then (mintime < xl)%Q else (mintime <= xl)%Q /\ (xl <= maxtime)%Q)
  | Patch xl xr _ famnum =>
      famnum = c /\ useBokeh = true /\
      xl = ((if Qgtb mintime first then mintime else first) - barpad)%Q /\
      xr = (last + barpad)%Q
  | _ => True
  end.

(** The example timeline with a second event of the third family, one
    day after the first. *)
Definition example_run2 (useBokeh ax : bool) : result drawing :=
  plotFamilyOccurrence arange_exact histogram_exact
    (example_dt ++ [121]%Q) example_famstarts [49; 10; 1]%Q []
    100 200 2 1 1 ByRate (Options 0 1) useBokeh ax
    [[0; 1; 2; 3]; [4; 5]; [6; 7]]%nat.

End Timeline.


(** ** [plotLongevity] *)

Module Longevity.
Import Clip.

(** What is drawn: a line or an arrow at the height [y], the longevity
    of its family. *)
Inductive mark :=
  | Line (x1 x2 y : Q)
  | LeftArrow (x_start x_end y : Q)
  | RightArrow (x_start x_end y : Q).

Section Loop.

Variables (alltrigs famstarts longevity : list Q).
Variables (mintime maxtime barpad : Q).
(** [useBokeh], and whether an axis handle [ax] was passed. *)
Variables (useBokeh ax : bool).

(** Lines 414-446: what is drawn for one family, from the answer [l] of
    [generateLines].  The right arrow goes through [ax] with either
    backend. *)
Definition marks (l : lines) (famstart longev : Q) : result (list mark) :=
  if add_line l then
    rarrow ←
      (if add_rarrow l then
         if ax then Ok [RightArrow (maxtime + 2 * barpad) (maxtime + barpad) longev]
         else Raise AttributeError
       else Ok []);
    Ok ([Line (x1 l) (x2 l) longev]
        ++ (if add_larrow l then
              if useBokeh
              then [LeftArrow (famstart + longev) (mintime - barpad) longev]
              else [LeftArrow (mintime - 2 * barpad) (mintime - barpad) longev]
            else [])
        ++ rarrow)
  else Ok [].

(** Lines 407-446: one pass through the loop.  What has been drawn is
    kept with the number of the family that drew it. *)
Definition family (n : nat) (drawn : list (nat * mark))
    : result (list (nat * mark)) :=
  famstart ← index famstarts n;
  longev ← index longevity n;
  new ← marks (generateLines mintime maxtime barpad famstart longev)
          famstart longev;
  Ok (drawn ++ (pair n <$> new)).

(** Lines 393-451.  With Bokeh the range of the y axis reads the first
    and the last of the sorted trigger times, which raises when there is
    none; without Bokeh the first use of a missing axis handle raises. *)
Definition plotLongevity : result (list (nat * mark)) :=
  if useBokeh && (if alltrigs is [] then true else false) then Raise IndexError
  else if negb useBokeh && negb ax then Raise AttributeError
  else rfor (seq 0 (length famstarts)) family [].

End Loop.

End Longevity.


(** ** The colour bar of the timeline *)

Module Mapper.

(** [LogColorMapper(palette=bokehpalette, low=.., high=..)]: the counts
    that are mapped to the first and to the last colour of the palette.
    The palette, 256 colours taken from Matplotlib, is left out. *)
Record color_mapper := ColorMapper { low : Z; high : Z }.

Definition determineColorMapper (binsize : Q) : color_mapper :=
  if Qgeb binsize 1 then ColorMapper 1 1000 else ColorMapper 1 100.

End Mapper.


(** ** [plotFI] *)

Module FI.
Import Occurrence.

(** The points of the scatter plot, each with its time and its frequency
    index.  With Bokeh, [np.max(alltrigs)] is taken first and raises for an
    empty array; with Matplotlib the axis handle is used first. *)
Definition plotFI (alltrigs dt fi : list Q) (mintime maxtime : Q)
    (useBokeh ax : bool) : result (list (Q * Q)) :=
  _ ← (if useBokeh
       then if alltrigs is [] then Raise ValueError else Ok ()
       else if ax then Ok () else Raise AttributeError);
  let idxs := np_where ((fun t => Qgeb t mintime && Qleb t maxtime) <$> dt) in
  xs ← take_at dt idxs;
  ys ← take_at fi idxs;
  Ok (zip xs ys).

End FI.


(** ** The layout of [renderBokehTimeline] *)

Module Layout.
Import Occurrence.

(** [s.replace(old, new)] for single characters. *)
Fixpoint replace (old new : ascii) (s : string) : string :=
  match s with
  | EmptyString => EmptyString
  | String c s' => String (if Ascii.eqb c old then new else c) (replace old new s')
  end.

(** [s.split(sep)] for a single character: the pieces between the
    separators, empty pieces included; never an empty list. *)
Fixpoint split (sep : ascii) (s : string) : list string :=
  match s with
  | EmptyString => [EmptyString]
  | String c s' =>
      if Ascii.eqb c sep then EmptyString :: split sep s'
      else match split sep s' with
           | w :: ws => String c w :: ws
           | [] => [String c EmptyString]
           end
  end.

(** [c in s] *)
Fixpoint contains (c : ascii) (s : string) : bool :=
  match s with
  | EmptyString => false
  | String c' s' => Ascii.eqb c' c || contains c s'
  end.

Inductive plot_type := EqRate | FreqIndex | Longev | Occur | OccurFI.

(** The chain of comparisons on a name of the plot format. *)
Definition plot_type_of (p : string) : option plot_type :=
  if String.eqb p "eqrate" then Some EqRate
  else if String.eqb p "fi" then Some FreqIndex
  else if String.eqb p "longevity" then Some Longev
  else if String.eqb p "occurrence" then Some Occur
  else if String.eqb p "occurrencefi" then Some OccurFI
  else None.

Definition tabtitle (k : plot_type) : string :=
  match k with
  | EqRate => "Event Rate"
  | FreqIndex => "FI"
  | Longev => "Longevity"
  | Occur => "Occurrence (Color by Rate)"
  | OccurFI => "Occurrence (Color by FI)"
  end.

Section Render.

(** The figures: [subplot maxtime k] stands for the call of [plotRate],
    [plotFI], [plotLongevity] or [plotFamilyOccurrence] that draws the plot
    [k]; it may raise. *)
Variable figure : Type.
Variable subplot : Q -> plot_type -> result figure.

(** A row of the grid: the title, one plot, or plots in tabs with their
    titles. *)
Inductive item :=
  | Div
  | Single (fig : figure)
  | Tabs (tabs : list (figure * string)).

(** Lines 171-203: one plot for every name that is a plot type, in
    [plots], with its title in [tabtitles]; another name is reported and
    passed over. *)
Definition create (maxtime : Q) (p : string)
    (st : list figure * list string) : result (list figure * list string) :=
  let '(plots, tabtitles) := st in
  match plot_type_of p with
  | Some k =>
      fig ← subplot maxtime k;
      Ok (plots ++ [fig], tabtitles ++ [tabtitle k])
  | None => Ok (plots, tabtitles)
  end.

(** Line 228: one more tab, for the plot [pnum + pft]. *)
Definition tab (plots : list figure) (tabtitles : list string)
    (pnum pft : nat) (tabs : list (figure * string))
    : result (list (figure * string)) :=
  child ← index plots (pnum + pft);
  title ← index tabtitles (pnum + pft);
  Ok (tabs ++ [(child, title)]).

(** Lines 222-233: one row for every group of the plot format; [pnum]
    counts the plots that are placed. *)
Definition place (plots : list figure) (tabtitles : list string)
    (pf : string) (st : nat * list item) : result (nat * list item) :=
  let '(pnum, gridplot_items) := st in
  if contains "+"%char pf then
    let count := length (split "+"%char pf) in
    tabs ← rfor (seq 0 count) (tab plots tabtitles pnum) [];
    Ok (pnum + (count - 1) + 1, gridplot_items ++ [Tabs tabs])%nat
  else
    child ← index plots pnum;
    Ok (pnum + 1, gridplot_items ++ [Single child])%nat.

(** The rows that are handed to [gridplot].  The shared range of the
    x axis and the annotations (read from a file when [opt.anotfile] is
    set) change the figures, not the rows, and are left out, as is the
    writing of the page. *)
Definition renderBokehTimeline (alltrigs : list Q) (plotformat : string)
    : result (list item) :=
  let plot_types := split ","%char (replace "+"%char ","%char plotformat) in
  maxtime ← py_max alltrigs;
  created ← rfor plot_types (create maxtime) ([], []);
  let '(plots, tabtitles) := created in
  placed ← rfor (split ","%char plotformat) (place plots tabtitles) (0%nat, [Div]);
  Ok placed.2.

(** The figures of a row, each with its title if it has one. *)
Definition cells (i : item) : list (figure * option string) :=
  match i with
  | Div => []
  | Single fig => [(fig, None)]
  | Tabs tabs => (fun '(fig, title) => (fig, Some title)) <$> tabs
  end.

(** Whether a row is tabbed as its group [pf] asks for, and whether a
    cell with a title has the title [title]. *)
Definition tabbed_as (pf : string) (row : item) : Prop :=
  match row with
  | Div => False
  | Single _ => contains "+"%char pf = false
  | Tabs _ => contains "+"%char pf = true
  end.

Definition titled (cell : figure * option string) (title : string) : Prop :=
  forall t, cell.2 = Some t -> t = title.

End Render.

End Layout.


(** ** The window and the grid of [customPDFoverview] *)

Module Overview.
Import Occurrence Layout.

(** [pat in s] for strings. *)
Fixpoint infix (pat s : string) : bool :=
  String.prefix pat s ||
  match s with
  | EmptyString => false
  | String _ s' => infix pat s'
  end.

(** Lines 857-866: the window, [tmin] and [tmax] where they are set (not
    zero) and the first and last trigger otherwise, and the padding. *)
Definition window (tmin tmax : Q) (alltrigs : list Q) : result (Q * Q * Q) :=
  mintime ← (if Qeq_bool tmin 0 then py_min alltrigs else Ok tmin);
  maxtime ← (if Qeq_bool tmax 0 then py_max alltrigs else Ok tmax);
  Ok (mintime, maxtime, (1 # 100) * (maxtime - mintime))%Q.

(** Lines 871-876: the number of rows of the grid. *)
Definition rows (occurheight : nat) (plot_types : list string) : nat :=
  foldl (fun nsub p => if infix "occurrence" p
                       then (nsub + occurheight)%nat else (nsub + 1)%nat)
        0%nat plot_types.

(** The rows of a subplot: [occurheight] for an occurrence plot, one for
    the others. *)
Definition height (occurheight : nat) (k : plot_type) : nat :=
  match k with
  | Occur | OccurFI => occurheight
  | _ => 1%nat
  end.

Section Grid.

(** [subplot w k nsub first last] stands for [fig.add_subplot] on the rows
    [first] to [last] of a grid of [nsub] rows and for the calls that draw
    the plot [k] into it; [reference w] for the reference axis.  Both may
    raise. *)
Variable axes : Type.
Variable reference : Q * Q * Q -> result axes.
Variable subplot : Q * Q * Q -> plot_type -> nat -> nat -> nat -> result axes.

(** Lines 887-930: a subplot for a name that is a plot type, on the rows
    after the [pnum] that are taken: one row, or [occurheight] rows for an
    occurrence plot. *)
Definition cell (w : Q * Q * Q) (occurheight nsub : nat) (p : string)
    (st : nat * list (plot_type * nat * nat))
    : result (nat * list (plot_type * nat * nat)) :=
  let '(pnum, placed) := st in
  match plot_type_of p with
  | Some k =>
      let h := height occurheight k in
      _ ← subplot w k nsub (pnum + 1) (pnum + h);
      Ok ((pnum + h)%nat, placed ++ [(k, (pnum + 1)%nat, (pnum + h)%nat)])
  | None => Ok (pnum, placed)
  end.

(** The number of rows of the grid and the subplots with their rows. *)
Definition customPDFoverview (tmin tmax : Q) (occurheight : nat)
    (plotformat : string) (alltrigs : list Q)
    : result (nat * list (plot_type * nat * nat)) :=
  w ← window tmin tmax alltrigs;
  let plot_types := split ","%char (replace "+"%char ","%char plotformat) in
  let nsub := rows occurheight plot_types in
  _ ← reference w;
  placed ← rfor plot_types (cell w occurheight nsub) (0%nat, []);
  Ok (nsub, placed.2).

End Grid.

(** The rows that a list of subplots takes, in order. *)
Definition taken (placed : list (plot_type * nat * nat)) : list nat :=
  concat ((fun '(_, first, last) => seq first (last + 1 - first)) <$> placed).

End Overview.


(** ** The image files of [createPlots] *)

Module Files.

(** The images under [clusters/]: [{n}.png], the core of family [n], and
    [fam{n}.png], its family plot; with [.tmp] appended when the flag is
    set.  Paths are kept apart by kind, number and ending, as the formatted
    strings are. *)
Inductive kind := CorePng | FamPng.

#[global] Instance kind_eq_dec : EqDecision kind :=
  fun a b =>
    match a, b with
    | CorePng, CorePng | FamPng, FamPng => left eq_refl
    | CorePng, FamPng => right (fun H => eq_ind CorePng (fun k => if k is CorePng then True else False) I FamPng H)
    | FamPng, CorePng => right (fun H => eq_ind FamPng (fun k => if k is FamPng then True else False) I CorePng H)
    end.

#[global] Instance kind_countable : Countable kind :=
  inj_countable'
    (fun k => if k is CorePng then false else true)
    (fun b : bool => if b then FamPng else CorePng)
    (fun k => match k with CorePng => eq_refl | FamPng => eq_refl end).

Abbreviation path := (kind * nat * bool)%type.

(** [tmp[0:-4]], for a path that ends in [.tmp]. *)
Definition strip (p : path) : path := (p.1, false).

(** A row of the families table, as far as it is used here. *)
Record frow := FRow { printme : nat; lastprint : nat }.

(** [zip(range(len(ftable)), ftable)] *)
Definition numbered (ftable : list frow) : list (nat * frow) :=
  zip (seq 0 (length ftable)) ftable.

(** A [for] loop whose body may fail. *)
Fixpoint ofor {A S : Type} (l : list A) (body : A -> S -> option S) (s : S)
    : option S :=
  match l with
  | [] => Some s
  | a :: l' => s' ← body a s; ofor l' body s'
  end.

(** [os.remove] on the pages [{fnum}.html] of a directory, given by their
    numbers: fails when the page is missing. *)
Definition os_remove (pages : gset nat) (fnum : nat) : option (gset nat) :=
  if decide (fnum ∈ pages) then Some (pages ∖ {[fnum]}) else None.

(** [cleanHTML]: the pages from [newnClust] up to [oldnClust] are removed
    where they exist. *)
Definition cleanHTML (oldnClust newnClust : nat) (pages : gset nat)
    : option (gset nat) :=
  ofor (seq newnClust (oldnClust - newnClust))
       (fun fnum pages =>
          if decide (fnum ∈ pages) then os_remove pages fnum else Some pages)
       pages.

Section Images.
Variable image : Type.

(** [os.rename(src, dst)]: fails when [src] is missing, replaces [dst]
    when it is there. *)
Definition os_rename (fs : gmap path image) (src dst : path)
    : option (gmap path image) :=
  img ← fs !! src; Some (<[dst := img]> (delete src fs)).

(** [plt.savefig(p)] *)
Definition savefig (fs : gmap path image) (p : path) (img : image)
    : gmap path image :=
  <[p := img]> fs.

(** The images that are drawn, and [glob.glob('.../clusters/*.tmp')],
    which lists the paths ending in [.tmp] in an order of its own. *)
Variables (core_image fam_image : nat -> image).
Variable glob : gmap path image -> list path.

(** Lines 1026-1033 of [plotCores]: the images of a family that has a new
    number and is not drawn again are moved to its new number, under a
    temporary name. *)
Definition move (nrow : nat * frow) (fs : gmap path image)
    : option (gmap path image) :=
  let '(n, row) := nrow in
  if negb (lastprint row =? n) && (printme row =? 0) then
    fs ← os_rename fs (CorePng, lastprint row, false) (CorePng, n, true);
    os_rename fs (FamPng, lastprint row, false) (FamPng, n, true)
  else Some fs.

(** The renames of [move], listed. *)
Definition moves (nrow : nat * frow) : list (path * path) :=
  let '(n, row) := nrow in
  if negb (lastprint row =? n) && (printme row =? 0)
  then [((CorePng, lastprint row, false), (CorePng, n, true));
        ((FamPng, lastprint row, false), (FamPng, n, true))]
  else [].

(** [plotCores], as far as files go: the moves, from the last family to
    the first, then the cores that are drawn. *)
Definition plotCores (ftable : list frow) (fs : gmap path image)
    : option (gmap path image) :=
  fs ← ofor (rev (numbered ftable)) move fs;
  Some (foldl (fun fs '(n, row) =>
                 if printme row =? 1
                 then savefig fs (CorePng, n, false) (core_image n) else fs)
              fs (numbered ftable)).

(** [plotFamilies], as far as files go. *)
Definition plotFamilies (ftable : list frow) (fs : gmap path image)
    : gmap path image :=
  foldl (fun fs '(cnum, row) =>
           if negb (printme row =? 0)
           then savefig fs (FamPng, cnum, false) (fam_image cnum) else fs)
        fs (numbered ftable).

(** [createPlots], as far as the images go, for a repeater table of
    [nrep] rows: the plots if there is something to plot, and then the
    temporary names are taken off. *)
Definition createPlots (nrep : nat) (ftable : list frow)
    (fs : gmap path image) : option (gmap path image) :=
  fs ← (if (1 <? nrep) && (0 <? foldr Nat.add 0 (printme <$> ftable))
        then fs ← plotCores ftable fs; Some (plotFamilies ftable fs)
        else Some fs);
  ofor (glob fs) (fun tmp fs => os_rename fs tmp (strip tmp)) fs.

End Images.

(** An example: three families, the first drawn again, the second and the
    third moved down from the numbers 2 and 3; images are numbered. *)
Definition example_ftable : list frow := [FRow 1 0; FRow 0 2; FRow 0 3].

Definition example_files : gmap path nat :=
  list_to_map
    [((CorePng, 0%nat, false), 10%nat); ((CorePng, 1%nat, false), 11%nat);
     ((CorePng, 2%nat, false), 12%nat); ((CorePng, 3%nat, false), 13%nat);
     ((FamPng, 0%nat, false), 20%nat); ((FamPng, 1%nat, false), 21%nat);
     ((FamPng, 2%nat, false), 22%nat); ((FamPng, 3%nat, false), 23%nat)].

(** The paths ending in [.tmp], in the order of the map. *)
Definition example_glob (fs : gmap path nat) : list path :=
  filter (fun p => p.2 = true) (map_to_list fs).*1.

End Files.


(** ** The traces of [createJunkPlots] *)

Module Junk.
Import Occurrence.

(** [dat[dat>1] = 1] and then [dat[dat<-1] = -1] *)
Definition clip (dat : list Q) : list Q :=
  (fun x => if Qltb x (-1) then (-1)%Q else x)
    <$> ((fun x => if Qgtb x 1 then 1%Q else x) <$> dat).

(** Lines 2022-2024, for the samples [datc] of one station:
    [datc/np.max(np.abs(datc)+1.0/1000)], clipped.  [np.max] raises for an
    empty array. *)
Definition normalize (datc : list Q) : result (list Q) :=
  top ← py_max ((fun x => Qabs x + 1 / 1000)%Q <$> datc);
  Ok (clip ((fun x => x / top)%Q <$> datc)).

End Junk.


(** ** The three timelines of [plotTimelines] *)

Module Timelines.
Import Occurrence Layout.

Section Render.

(** [subplot barpad mintime maxtime k] stands for the call that draws the
    plot [k] of a timeline with this padding and window. *)
Variable figure : Type.
Variable subplot : Q -> Q -> Q -> plot_type -> result figure.


End Render.

End Timelines.


(** ** The correlation matrix of [plotReport] *)

Module Report.

(** The columns of the repeater table that the matrix code reads. *)
Record rrow := RRow { id : Z; startTimeMPL : Q }.

(** A row of the correlation table: the stored coefficient of one pair. *)
Record crow := CRow { id1 : Z; id2 : Z; ccc : Q }.

(** A two-dimensional numpy array of floats, as the list of its rows. *)
Abbreviation matrix := (list (list Q)).

(** [M[i,j]] *)
Definition mget (M : matrix) (i j : nat) : result Q :=
  row ← index M i; index row j.

(** [M[i,j] = v] *)
Definition mset (M : matrix) (i j : nat) (v : Q) : result matrix :=
  row ← index M i;
  _ ← index row j;
  Ok (<[i := <[j := v]> row]> M).

(** [np.eye(n)] *)
Definition eye (n : nat) : matrix :=
  (fun i => (fun j => if Nat.eqb i j then 1%Q else 0%Q) <$> seq 0 n) <$> seq 0 n.

(** [np.where(idf==xx)[0][0]]: the first position of [xx] in [idf]; the
    final [[0]] raises when there is none. *)
Fixpoint where_first (idf : list Z) (xx : Z) : result nat :=
  match idf with
  | [] => Raise IndexError
  | y :: idf' => if Z.eqb y xx then Ok 0%nat
                 else p ← where_first idf' xx; Ok (S p)
  end.

(** [np.argsort(keys)]: the positions of [keys] in ascending order of
    their keys, by a merge sort on the pairs of a key and its position.
    How numpy orders equal keys is left open by its default sort. *)
Definition key_le (a b : Q * nat) : Prop := Qleb a.1 b.1 = true.

#[global] Instance key_le_dec : RelDecision key_le :=
  fun a b => bool_eq_dec (Qleb a.1 b.1) true.

Definition argsort (keys : list Q) : list nat :=
  (merge_sort key_le (zip keys (seq 0 (length keys)))).*2.

(** [C[r1,r2] = vals] for index lists [r1], [r2]: the cells are written
    from left to right, so the last value wins where a cell repeats. *)
Fixpoint scatter (C : matrix) (r1 r2 : list nat) (vals : list Q) : result matrix :=
  match r1, r2, vals with
  | a :: r1', b :: r2', v :: vals' =>
      C' ← mset C a b v; scatter C' r1' r2' vals'
  | _, _, _ => Ok C
  end.

(** Lines 1718-1724: the stored matrix [C] of the family with member ids
    [idf], in member order. *)
Definition stored (idf : list Z) (ctable : list crow) : result matrix :=
  let ix := filter (fun r => id2 r ∈ idf) ctable in
  let C := eye (length idf) in
  r1 ← rmap (where_first idf) (id1 <$> ix);
  r2 ← rmap (where_first idf) (id2 <$> ix);
  C ← scatter C r1 r2 (ccc <$> ix);
  scatter C r2 r1 (ccc <$> ix).

(** [C[catalogind,:][:,catalogind]] *)
Definition reorder (C : matrix) (catalogind : list nat) : result matrix :=
  rows ← take_at C catalogind;
  rmap (fun row => take_at row catalogind) rows.

(** The pairs [(i, j)] that the two nested loops visit, in order:
    [for i in range(n-1): for j in range(i+1, n)]. *)
Definition loop_pairs (n : nat) : list (nat * nat) :=
  i ← seq 0 (n - 1); (fun j => (i, j)) <$> seq (i + 1) (n - (i + 1)).

(** The family in catalog order and its stored matrix. *)
Record by_time := ByTime {
  o_famcat : list nat;
  o_idf : list Z;
  o_catalogind : list nat;
  o_Cind : matrix
}.

(** Lines 1698-1716 of [plotReport] as far as they bear on the matrices,
    then lines 1718-1724 and 1732-1734, for the family with members [fam]
    (row numbers of the repeater table).  [fam[catalogind[0]]] raises for
    an empty family. *)
Definition stored_in_order (rtable : list rrow) (ctable : list crow)
    (fam : list nat) : result by_time :=
  times ← take_at (startTimeMPL <$> rtable) fam;
  let catalogind := argsort times in
  famcat ← take_at fam catalogind;
  first ← index catalogind 0;
  minind ← index fam first;
  idf ← take_at (id <$> rtable) fam;
  C ← stored idf ctable;
  Cind ← reorder C catalogind;
  Ok (ByTime famcat idf catalogind Cind).

(** *** Vocabulary for the properties of the matrices *)

(** [M] is an [n] by [n] matrix. *)
Definition square (n : nat) (M : matrix) : Prop :=
  length M = n /\ Forall (fun row => length row = n) M.

(** [M[i,j] == M[j,i]] for all [i], [j]. *)
Definition symmetric (M : matrix) : Prop :=
  forall i j, mget M i j = mget M j i.

(** [M[i,i] == 1] for all [i] below [n]. *)
Definition unit_diagonal (n : nat) (M : matrix) : Prop :=
  forall i, (i < n)%nat -> mget M i i = Ok 1%Q.

(** The test [M[i,j]==0] of the inner loop. *)
Definition is_zero (M : matrix) (ij : nat * nat) : bool :=
  match mget M ij.1 ij.2 with
  | Ok c => Qeq_bool c 0
  | Raise _ => false
  end.

(** The unordered pair of ids of a row of the correlation table. *)
Definition pair_key (r : crow) : Z * Z :=
  (Z.min (id1 r) (id2 r), Z.max (id1 r) (id2 r)).

(** The correlation table is a map from unordered pairs of two different
    ids to coefficients: no row pairs an id with itself and no unordered
    pair has two rows. *)
Definition pair_map (ctable : list crow) : Prop :=
  Forall (fun r => id1 r <> id2 r) ctable /\ NoDup (pair_key <$> ctable).

(** The rows of the correlation table between two members of the family
    whose coefficient is not zero. *)
Definition stored_nonzero (idf : list Z) (ctable : list crow) : list crow :=
  filter (fun r => id1 r ∈ idf /\ id2 r ∈ idf /\ Qeq_bool (ccc r) 0 = false)
    ctable.

(** The value that [C[r1,r2] = vals] leaves in the cell [(a, b)], if it
    writes that cell: the last one written there. *)
Fixpoint written (r1 r2 : list nat) (vals : list Q) (a b : nat) : option Q :=
  match r1, r2, vals with
  | x :: r1', y :: r2', v :: vals' =>
      match written r1' r2' vals' a b with
      | Some w => Some w
      | None => if decide (a = x /\ b = y) then Some v else None
      end
  | _, _, _ => None
  end.

(** The first position of the id [x] in [ids] (0 when it is not there). *)
Definition position (ids : list Z) (x : Z) : nat :=
  match where_first ids x with
  | Ok p => p
  | Raise _ => 0%nat
  end.

(** The cell above the diagonal that holds the coefficient of the row
    [r], in a matrix whose rows and columns follow [ids]. *)
Definition cell_of (ids : list Z) (r : crow) : nat * nat :=
  (Nat.min (position ids (id1 r)) (position ids (id2 r)),
   Nat.max (position ids (id1 r)) (position ids (id2 r))).

(** The rows of the correlation table between two members of the family:
    the pairs of members that the table contains. *)
Definition stored_pairs (idf : list Z) (ctable : list crow) : list crow :=
  filter (fun r => id1 r ∈ idf /\ id2 r ∈ idf) ctable.

(** The ids of the two events of a call: the call for the pair [(i, j)]
    correlates the rows [famcat[i]] and [famcat[j]] of the repeater
    table. *)
Definition call_ids (rtable : list rrow) (famcat : list nat) (ij : nat * nat)
    : option (Z * Z) :=
  a ← famcat !! ij.1;
  b ← famcat !! ij.2;
  ra ← rtable !! a;
  rb ← rtable !! b;
  Some (id ra, id rb).

(** *** The third scenario of the specification

    Three members with the ids 1, 2, 3, in time order, and a correlation
    table that holds the pair (1, 2) with the coefficient 0.9. *)
Definition scenario_rtable : list rrow := [RRow 1 10; RRow 2 20; RRow 3 30].
Definition scenario_ctable : list crow := [CRow 1 2 (9 # 10)].
Definition scenario_fam : list nat := [0; 1; 2]%nat.

(** A correlation routine that always returns the coefficient 0.5. *)
Definition xcorr_half (a b : nat) : result Q := Ok (1 # 2).

(** A correlation routine that raises for the rows 0 and 1 of the
    repeater table and returns 0.5 for every other pair. *)
Definition xcorr_fails_01 (a b : nat) : result Q :=
  if Nat.eqb a 0 && Nat.eqb b 1 then Raise ComparisonError else Ok (1 # 2).


Section Completion.

(** [redpy.correlation.xcorr1x1] is defined outside [plotting_bak.py].
    It is given here as a function of the two rows of the repeater table
    whose windows it correlates; it returns the coefficient [cor] (the
    code drops [lag] and [nthcor]) or raises. *)
Variable xcorr1x1 : nat -> nat -> result Q.

(** The state of the loops: the matrix [Cfull] and, as instrumentation,
    the pairs for which [xcorr1x1] has been called so far. *)
Record fill := Fill { Cfull : matrix; calls : list (nat * nat) }.

(** Lines 1738-1744: the body of the inner loop. *)
Definition fill_cell (famcat : list nat) (ij : nat * nat) (st : fill)
    : result fill :=
  let '(i, j) := ij in
  c ← mget (Cfull st) i j;
  if Qeq_bool c 0 then
    a ← index famcat i;
    b ← index famcat j;
    cor ← xcorr1x1 a b;
    C1 ← mset (Cfull st) i j cor;
    C2 ← mset C1 j i cor;
    Ok (Fill C2 (calls st ++ [(i, j)]))
  else Ok st.

(** Lines 1735-1744: [Cfull] starts as a copy of [Cind]. *)
Definition complete (famcat : list nat) (Cind : matrix) : result fill :=
  rfor (loop_pairs (length famcat)) (fill_cell famcat) (Fill Cind []).

(** What the matrix code of [plotReport] computes. *)
Record matrices := Matrices {
  m_stored : by_time;
  m_Cfull : matrix;
  m_calls : list (nat * nat)
}.

(** The matrix code of [plotReport] for the family with members [fam]:
    the stored matrix in catalog order, then its completion. *)
Definition plotReport (rtable : list rrow) (ctable : list crow)
    (fam : list nat) : result matrices :=
  s ← stored_in_order rtable ctable fam;
  st ← complete (o_famcat s) (o_Cind s);
  Ok (Matrices s (Cfull st) (calls st)).

End Completion.

End Report.


(** ** The OPTICS ordering of [plotReport] *)

Module Ordering.
Import Report.

(** [sum(D)] for a matrix [D]: its rows added up, the sums of its
    columns.  For an empty matrix the sum is the number 0, whose [argsort]
    is [[0]], and the indexing that follows raises. *)
Definition column_sums (D : matrix) : result (list Q) :=
  match D with
  | [] => Raise IndexError
  | row :: rows => Ok (foldl (zip_with Qplus) row rows)
  end.

Section Optics.

(** The order that OPTICS finds for the distance matrix [D]
    ([setOfObjects], [prep_optics], [build_optics] of [redpy.optics]). *)
Variable optics : matrix -> result (list nat).

(** Lines 1826-1846, with [ordered] set: the events and both matrices are
    put in the order of the summed distances, largest first, and then in
    the order of OPTICS. *)
Definition ordered (famcat : list nat) (Cind Cfull : list (list Q))
    : result (list nat * matrix * matrix) :=
  let D : matrix := (fun row : list Q => (fun c => 1 - c)%Q <$> row) <$> Cfull in
  totals ← column_sums D;
  let s := rev (argsort totals) in
  D ← reorder D s;
  famcat ← take_at famcat s;
  Cind ← reorder Cind s;
  Cfull ← reorder Cfull s;
  order ← optics D;
  famcat ← take_at famcat order;
  Cind ← reorder Cind order;
  Cfull ← reorder Cfull order;
  Ok (famcat, Cind, Cfull).

End Optics.

End Ordering.


(** * Properties *)

(** ** Boolean comparisons and the order they decide *)

Lemma Qle_bool_false (a b : Q) : Qle_bool a b = false <-> (b < a)%Q.
Proof.
  split; intros H.
  - apply Qnot_le_lt. intros Hle. apply Qle_bool_iff in Hle. congruence.
  - destruct (Qle_bool a b) eqn:E; [|reflexivity].
    apply Qle_bool_iff in E. exfalso. exact (Qlt_not_le _ _ H E).
Qed.

Lemma Qgtb_lt (a b : Q) : Qgtb a b = true <-> (b < a)%Q.
Proof. unfold Qgtb. rewrite negb_true_iff. apply Qle_bool_false. Qed.

Lemma Qgtb_le (a b : Q) : Qgtb a b = false <-> (a <= b)%Q.
Proof. unfold Qgtb. rewrite negb_false_iff. apply Qle_bool_iff. Qed.

(** Splits on every comparison of the goal and records what each outcome
    says about the order. *)
Ltac split_cmp :=
  unfold Qleb, Qgeb, Qltb, Qgtb in *;
  repeat match goal with
  | |- context [Qle_bool ?a ?b] =>
      let E := fresh "E" in
      destruct (Qle_bool a b) eqn:E;
      [apply Qle_bool_iff in E | apply Qle_bool_false in E]
  end.

(** ** Exceptions and indexing *)

Lemma bind_Ok {A B : Type} (m : result A) (k : A -> result B) (b : B) :
  (m ≫= k) = Ok b <-> exists a, m = Ok a /\ k a = Ok b.
Proof.
  destruct m as [a|e]; simpl; split.
  - intros H. exists a. split; [reflexivity | exact H].
  - intros (a' & Ha & Hk). injection Ha as ->. exact Hk.
  - discriminate.
  - intros (a' & Ha & _). discriminate Ha.
Qed.

(** Opens every successful sequence of calls in the context. *)
Ltac inv_ok :=
  repeat match goal with
  | H : (_ ≫= _) = Ok _ |- _ =>
      let a := fresh "a" in
      let Ha := fresh "Ha" in
      apply bind_Ok in H; destruct H as (a & Ha & H)
  | H : Ok _ = Ok _ |- _ => injection H as H
  | H : Raise _ = Ok _ |- _ => discriminate H
  end.

Lemma index_Ok {A : Type} (l : list A) (i : nat) (a : A) :
  index l i = Ok a <-> l !! i = Some a.
Proof.
  unfold index. destruct (l !! i); split; intros H; congruence.
Qed.

Lemma index_lt {A : Type} (l : list A) (i : nat) :
  (i < length l)%nat -> exists a, index l i = Ok a.
Proof.
  intros Hi. destruct (lookup_lt_is_Some_2 l i Hi) as [a Ha].
  exists a. apply index_Ok, Ha.
Qed.

Lemma index_ge {A : Type} (l : list A) (i : nat) :
  (length l <= i)%nat -> index l i = Raise IndexError.
Proof.
  intros Hi. unfold index. rewrite lookup_ge_None_2; [reflexivity | exact Hi].
Qed.

Lemma rmap_Ok {A B : Type} (f : A -> result B) (l : list A) (bs : list B) :
  rmap f l = Ok bs <-> Forall2 (fun a b => f a = Ok b) l bs.
Proof.
  revert bs. induction l as [|a l IH]; intros bs; simpl.
  - split.
    + intros H. injection H as <-. constructor.
    + intros H. inversion H. reflexivity.
  - split.
    + intros H. inv_ok. subst bs. constructor; [assumption|]. apply IH. assumption.
    + intros H. inversion H as [|? b ? bs' Hb Hbs]; subst.
      apply bind_Ok. exists b. split; [exact Hb|].
      apply bind_Ok. exists bs'. split; [apply IH, Hbs | reflexivity].
Qed.

Lemma take_at_Ok {A : Type} (a : list A) (idx : list nat) (bs : list A) :
  take_at a idx = Ok bs <-> Forall2 (fun i b => a !! i = Some b) idx bs.
Proof.
  unfold take_at. rewrite rmap_Ok.
  split; intros HF; eapply Forall2_impl; try exact HF;
    intros i b; apply index_Ok.
Qed.

Lemma take_at_lookup {A : Type} (a : list A) (idx : list nat) (bs : list A) i p :
  take_at a idx = Ok bs -> idx !! i = Some p -> bs !! i = a !! p.
Proof.
  rewrite take_at_Ok. intros HF Hp.
  destruct (Forall2_lookup_l _ _ _ _ _ HF Hp) as (b & Hb & Hab).
  congruence.
Qed.

Lemma take_at_length {A : Type} (a : list A) (idx : list nat) (bs : list A) :
  take_at a idx = Ok bs -> length bs = length idx.
Proof.
  rewrite take_at_Ok. intros HF. symmetry. exact (Forall2_length _ _ _ HF).
Qed.

Lemma take_at_elem {A : Type} (a : list A) (idx : list nat) (bs : list A) b :
  take_at a idx = Ok bs -> b ∈ bs -> exists k, k ∈ idx /\ a !! k = Some b.
Proof.
  rewrite take_at_Ok. intros HF Hb.
  apply list_elem_of_lookup_1 in Hb as [i Hi].
  destruct (Forall2_lookup_r _ _ _ _ _ HF Hi) as (k & Hk & Hak).
  exists k. split; [eapply list_elem_of_lookup_2; exact Hk | exact Hak].
Qed.

(** ** [generateLines] *)

Module ClipFacts.
Import Clip.
Local Open Scope Q_scope.

Lemma generateLines_cases tmin tmax pad start len :
  generateLines tmin tmax pad start len
  = row (first_case tmin tmax start len) tmin tmax pad start len.
Proof.
  unfold generateLines, first_case, table_A, table_B, table_C, table_D, table_E.
  split_cmp; simpl; try reflexivity; exfalso; lra.
Qed.

Lemma cases_holding_unfold tmin tmax start len :
  cases_holding tmin tmax start len
  = (Nat.b2n (table_A tmin tmax start len) + Nat.b2n (table_B tmin tmax start len)
     + Nat.b2n (table_C tmin tmax start len) + Nat.b2n (table_D tmin tmax start len)
     + Nat.b2n (table_E tmin tmax start len) + Nat.b2n (table_F tmin tmax start len))%nat.
Proof.
  unfold cases_holding, table.
  destruct (table_A _ _ _ _), (table_B _ _ _ _), (table_C _ _ _ _),
    (table_D _ _ _ _), (table_E _ _ _ _), (table_F _ _ _ _); reflexivity.
Qed.

(** C1, as stated, fails: for the window [100, 200] with padding 1 and
    the interval starting at 100 of length 200 the condition of case E
    holds, yet [generateLines] returns the row of case C (no left arrow,
    x1 = 100), not the row of case E. *)
Lemma generateLines_table_rows_counterexample :
  (100 <= 200)%Q /\ (0 <= 1)%Q /\ (0 <= 200)%Q /\
  table_E 100 200 100 200 = true /\
  generateLines 100 200 1 100 200 = Lines true false true 100 201 /\
  row CaseE 100 200 1 100 200 = Lines true true true 99 201 /\
  ~ every_holding_case_gets_its_row 100 200 1 100 200.
Proof.
  repeat split; try reflexivity; try (vm_compute; discriminate).
  intros (_ & _ & _ & _ & HE & _).
  specialize (HE eq_refl). vm_compute in HE. discriminate HE.
Qed.

(** C1 (amended): for every input [generateLines] returns the row of the
    first case, in the order A, B, C, D, E, whose condition holds, and the
    row of case F when none does; the two concrete scenarios come out as
    the specification gives them. *)
Theorem generateLines_first_applicable_row :
  (forall tmin tmax pad start len,
     generateLines tmin tmax pad start len
     = row (first_case tmin tmax start len) tmin tmax pad start len) /\
  generateLines 100 200 1 100 50 = Lines true false false 100 150 /\
  generateLines 100 200 1 50 200 = Lines true true true 99 201.
Proof.
  split; [exact generateLines_cases | split; reflexivity].
Qed.

(** C2, as stated, fails: in the specification's own first scenario
    (window [100, 200], start 100, length 50) the conditions of case A and
    of case D both hold. *)
Lemma table_overlap_counterexample :
  (100 <= 200)%Q /\ (0 <= 1)%Q /\ (0 <= 50)%Q /\
  table_A 100 200 100 50 = true /\
  table_D 100 200 100 50 = true /\
  cases_holding 100 200 100 50 = 2%nat /\
  cases_holding 100 200 100 50 <> 1%nat.
Proof.
  repeat split; try reflexivity; try (vm_compute; discriminate).
Qed.

(** C2 (amended): for every input with [min <= max], [padding >= 0] and
    [length >= 0], at least one of the six conditions holds; exactly one
    holds when [min] differs from [start] and [max] differs from [end]
    (the conditions overlap only on such boundaries); and whenever the
    line is drawn both clipped ends lie in [min - padding, max + padding]. *)
Theorem table_covers_and_endpoints_bounded tmin tmax pad start len :
  (tmin <= tmax)%Q -> (0 <= pad)%Q -> (0 <= len)%Q ->
  let out := generateLines tmin tmax pad start len in
  (1 <= cases_holding tmin tmax start len)%nat /\
  (~ tmin == start -> ~ tmax == start + len ->
   cases_holding tmin tmax start len = 1%nat) /\
  (add_line out = true ->
   within (tmin - pad) (tmax + pad) (x1 out) /\
   within (tmin - pad) (tmax + pad) (x2 out)).
Proof.
  intros Hw Hp Hl out. subst out.
  rewrite cases_holding_unfold.
  unfold generateLines, within, table_F, table_A, table_B, table_C, table_D, table_E.
  split_cmp; simpl; repeat split; intros; try lia; try discriminate; try lra;
    exfalso; lra.
Qed.

Lemma table_covers_and_endpoints_bounded_witness :
  let out := generateLines 100 200 1 120 30 in
  (1 <= cases_holding 100 200 120 30)%nat /\
  (~ 100 == 120 -> ~ 200 == 120 + 30 -> cases_holding 100 200 120 30 = 1%nat) /\
  (add_line out = true ->
   within (100 - 1) (200 + 1) (x1 out) /\ within (100 - 1) (200 + 1) (x2 out)).
Proof.
  apply (table_covers_and_endpoints_bounded 100 200 1 120 30); lra.
Defined.

(** C10: whenever [generateLines] returns [add_line = False] it also
    returns [add_larrow = False], [add_rarrow = False] and [x1 = x2 = 0];
    so an arrow flag can be true only together with [add_line]. *)
Theorem generateLines_no_line_defaults tmin tmax pad start len :
  (add_line (generateLines tmin tmax pad start len) = false ->
   add_larrow (generateLines tmin tmax pad start len) = false /\
   add_rarrow (generateLines tmin tmax pad start len) = false /\
   x1 (generateLines tmin tmax pad start len) = 0 /\
   x2 (generateLines tmin tmax pad start len) = 0) /\
  (add_larrow (generateLines tmin tmax pad start len) = true \/
   add_rarrow (generateLines tmin tmax pad start len) = true ->
   add_line (generateLines tmin tmax pad start len) = true).
Proof.
  rewrite generateLines_cases.
  destruct (first_case tmin tmax start len); simpl; split;
    try (intros H; discriminate H); try (intros _; reflexivity);
    try (intros [H|H]; discriminate H);
    intros _; repeat split.
Qed.

Lemma generateLines_no_line_defaults_witness :
  add_larrow (generateLines 100 200 1 300 10) = false /\
  add_rarrow (generateLines 100 200 1 300 10) = false /\
  x1 (generateLines 100 200 1 300 10) = 0 /\
  x2 (generateLines 100 200 1 300 10) = 0.
Proof.
  apply (proj1 (generateLines_no_line_defaults 100 200 1 300 10)). reflexivity.
Defined.

End ClipFacts.


(** ** The colour index of a bin *)

Module RateFacts.
Import Rate.
Local Open Scope R_scope.

Lemma ln_le_iff (x y : R) : 0 < x -> 0 < y -> (ln x <= ln y <-> x <= y).
Proof.
  intros Hx Hy. split; intros H.
  - destruct (Rle_or_lt x y) as [Hle|Hlt]; [exact Hle|].
    pose proof (ln_increasing y x Hy Hlt). lra.
  - destruct H as [Hlt|<-]; [|lra].
    pose proof (ln_increasing x y Hx Hlt). lra.
Qed.

Lemma ln_10_pos : 0 < ln 10.
Proof.
  rewrite <- ln_1. apply ln_increasing; lra.
Qed.

Lemma divisor_cases w : divisor w = 3%Z \/ divisor w = 2%Z.
Proof. unfold divisor. destruct (Qgeb w 1); auto. Qed.

(** An integer is below the scaled logarithm exactly when a power of ten
    is below a power of the count. *)
Lemma below_log_iff (d : Z) (count k : nat) :
  (0 < d)%Z -> (1 <= count)%nat ->
  (INR k <= 255 * (log10 (INR count) / IZR d)
   <-> (10 ^ (d * Z.of_nat k) <= Z.of_nat count ^ 255)%Z).
Proof.
  intros Hd Hc.
  assert (HC : 0 < INR count) by (apply lt_0_INR; lia).
  assert (HD : 0 < IZR d) by (apply IZR_lt; exact Hd).
  pose proof ln_10_pos as H10.
  set (e := Z.to_nat d).
  assert (He : d = Z.of_nat e) by (unfold e; lia).
  assert (Hpow10 : 0 < 10 ^ (e * k)) by (apply pow_lt; lra).
  assert (HpowC : 0 < INR count ^ 255) by (apply pow_lt; exact HC).
  transitivity (10 ^ (e * k) <= INR count ^ 255).
  - rewrite <- (ln_le_iff (10 ^ (e * k)) (INR count ^ 255)) by assumption.
    rewrite !ln_pow by (try exact HC; lra).
    rewrite mult_INR. unfold log10.
    replace (INR e) with (IZR d) by (rewrite He, INR_IZR_INZ; reflexivity).
    replace (INR 255) with 255 by (rewrite INR_IZR_INZ; reflexivity).
    split; intros H.
    + apply (Rmult_le_compat_r (IZR d * ln 10)) in H; [|nra].
      replace (255 * (ln (INR count) / ln 10 / IZR d) * (IZR d * ln 10))
        with (255 * ln (INR count)) in H by (field; lra).
      lra.
    + apply (Rmult_le_reg_r (IZR d * ln 10)); [nra|].
      replace (255 * (ln (INR count) / ln 10 / IZR d) * (IZR d * ln 10))
        with (255 * ln (INR count)) by (field; lra).
      lra.
  - rewrite INR_IZR_INZ.
    replace 10 with (IZR 10) by reflexivity.
    rewrite !pow_IZR.
    replace (Z.of_nat (e * k)) with (d * Z.of_nat k)%Z by lia.
    replace (Z.of_nat 255) with 255%Z by reflexivity.
    split; [apply le_IZR | apply IZR_le].
Qed.

(** Where the climb stops. *)
Lemma climb_spec (step bound : Z) (fuel : nat) : forall acc,
  let K := climb step bound acc fuel in
  (K <= fuel)%nat /\
  ((0 < K)%nat -> (acc * step ^ Z.of_nat K <= bound)%Z) /\
  ((K < fuel)%nat -> ~ (acc * step ^ Z.of_nat (S K) <= bound)%Z).
Proof.
  induction fuel as [|fuel IH]; intros acc; simpl.
  - split; [lia|]. split; lia.
  - destruct (Z.leb_spec (acc * step) bound) as [Hle|Hgt].
    + destruct (IH (acc * step)%Z) as (Hfuel & Hpos & Hstop).
      set (K := climb step bound (acc * step) fuel) in *.
      assert (Hstep : forall m, (acc * step ^ Z.of_nat (S m)
                                 = acc * step * step ^ Z.of_nat m)%Z).
      { intros m. rewrite Nat2Z.inj_succ, Z.pow_succ_r by lia. ring. }
      split; [lia|]. split.
      * intros _. rewrite Hstep.
        destruct (decide (K = 0%nat)) as [->|HK].
        -- simpl. lia.
        -- apply Hpos. lia.
      * intros HK. rewrite Hstep. apply Hstop. lia.
    + split; [lia|]. split; [lia|]. intros _.
      change (Z.of_nat 1) with 1%Z. rewrite Z.pow_1_r. lia.
Qed.

(** The index computed over the reals is the floor of the clamped value,
    it is the one found by integer arithmetic, and it is the one of the
    formula. *)
Lemma rate_ind_index (binsize : Q) (count : nat) :
  (1 <= count)%nat ->
  rate_ind binsize count = Z.of_nat (rate_index binsize count) /\
  rate_ind binsize count = spec_index binsize count /\
  IZR (rate_ind binsize count) <= rate_value binsize count
    < IZR (rate_ind binsize count) + 1.
Proof.
  intros Hc.
  assert (Hd : (0 < divisor binsize)%Z) by (destruct (divisor_cases binsize) as [-> | ->]; lia).
  assert (HD : 0 < IZR (divisor binsize)) by (apply IZR_lt; exact Hd).
  pose proof ln_10_pos as H10.
  unfold rate_ind, rate_value.
  set (x := 255 * (log10 (INR count) / IZR (divisor binsize))).
  assert (Hx0 : 0 <= x).
  { unfold x, log10.
    assert (0 <= ln (INR count)).
    { rewrite <- ln_1. apply ln_le_iff; try lra.
      - apply lt_0_INR. lia.
      - replace 1 with (INR 1) by reflexivity. apply le_INR. lia. }
    apply Rmult_le_pos; [lra|].
    apply Rmult_le_pos; [|left; apply Rinv_0_lt_compat; exact HD].
    apply Rmult_le_pos; [assumption|left; apply Rinv_0_lt_compat; exact H10]. }
  assert (Hv0 : 0 <= Rmin 255 x) by (apply Rmin_glb; lra).
  assert (Hfloor : Z.of_nat (rate_index binsize count) = Int_part (Rmin 255 x)).
  { apply Int_part_spec. unfold rate_index.
    destruct (climb_spec (10 ^ divisor binsize) (Z.of_nat count ^ 255) 255 1)
      as (Hle & Hpos & Hstop).
    set (K := climb (10 ^ divisor binsize) (Z.of_nat count ^ 255) 1 255) in *.
    rewrite <- !Z.pow_mul_r, !Z.mul_1_l in * by lia.
    rewrite <- INR_IZR_INZ. split.
    - (* the value is below K + 1 *)
      destruct (decide (K = 255%nat)) as [HK|HK].
      + rewrite HK. replace (INR 255) with 255 by (rewrite INR_IZR_INZ; reflexivity).
        pose proof (Rmin_l 255 x). lra.
      + assert (Hnot : ~ INR (S K) <= x).
        { intros H. apply below_log_iff in H; [|exact Hd|exact Hc].
          apply Hstop; [lia | exact H]. }
        rewrite S_INR in Hnot. pose proof (Rmin_r 255 x). lra.
    - (* K is below the value *)
      destruct (decide (K = 0%nat)) as [HK|HK].
      + rewrite HK. simpl. exact Hv0.
      + apply Rmin_glb.
        * replace 255 with (INR 255) by (rewrite INR_IZR_INZ; reflexivity).
          apply le_INR. exact Hle.
        * apply below_log_iff; [exact Hd | exact Hc | apply Hpos; lia]. }
  assert (Hind : py_int (Rmin 255 x) = Int_part (Rmin 255 x)).
  { unfold py_int.
    destruct (Rle_dec 0 (Rmin 255 x)); [reflexivity | contradiction]. }
  split; [congruence|]. split.
  - rewrite Hind. unfold spec_index, clamp.
    replace (255 * log10 (INR count) / IZR (divisor binsize)) with x
      by (unfold x; field; lra).
    rewrite Rmax_right by exact Hv0. reflexivity.
  - rewrite Hind. destruct (base_Int_part (Rmin 255 x)) as [Hlo Hhi]. lra.
Qed.

Lemma climb_le (step bound acc : Z) (fuel : nat) :
  (climb step bound acc fuel <= fuel)%nat.
Proof. exact (proj1 (climb_spec step bound fuel acc)). Qed.

(** C7, as stated, fails: for bins of one day, the index of a bin of 2
    events is 25 and that of a bin of 50 events is 144, not 59 and 146;
    the values that are floored lie between 25 and 26 and between 144 and
    145, so no rounding of them gives 59 or 146. *)
Lemma rate_index_counterexample :
  rate_ind 1 2 = 25%Z /\ rate_ind 1 50 = 144%Z /\
  25 <= rate_value 1 2 < 26 /\ 144 <= rate_value 1 50 < 145 /\
  rate_ind 1 2 <> 59%Z /\ rate_ind 1 50 <> 146%Z.
Proof.
  destruct (rate_ind_index 1 2 ltac:(lia)) as (H2 & _ & B2).
  destruct (rate_ind_index 1 50 ltac:(lia)) as (H50 & _ & B50).
  assert (E2 : rate_ind 1 2 = 25%Z) by (rewrite H2; vm_compute; reflexivity).
  assert (E50 : rate_ind 1 50 = 144%Z) by (rewrite H50; vm_compute; reflexivity).
  rewrite E2 in *. rewrite E50 in *.
  split; [reflexivity|]. split; [reflexivity|].
  split; [lra|]. split; [lra|]. split; discriminate.
Qed.

(** C7 (amended): in rate mode the colour index of a bin with
    [count >= 1] events is [clamp(255 * log10(count) / divisor, 0, 255)]
    floored, with the divisor 3 for bins of a day or longer and 2 for
    shorter bins; it lies between 0 and 255; for bins of one day the
    counts 2 and 50 give the indices 25 and 144. *)
Theorem rate_colour_index :
  (forall binsize count, (1 <= count)%nat ->
     rate_ind binsize count = spec_index binsize count /\
     (0 <= rate_ind binsize count <= 255)%Z /\
     rate_ind binsize count = Z.of_nat (rate_index binsize count)) /\
  (forall binsize, (1 <= binsize)%Q -> divisor binsize = 3%Z) /\
  (forall binsize, (binsize < 1)%Q -> divisor binsize = 2%Z) /\
  rate_ind 1 2 = 25%Z /\ rate_ind 1 50 = 144%Z.
Proof.
  split; [|split; [|split; [|split]]].
  - intros binsize count Hc.
    destruct (rate_ind_index binsize count Hc) as (Hidx & Hspec & _).
    split; [exact Hspec|]. split; [|exact Hidx].
    rewrite Hidx. unfold rate_index.
    pose proof (climb_le (10 ^ divisor binsize) (Z.of_nat count ^ 255) 1 255).
    lia.
  - intros binsize Hb. unfold divisor.
    apply Qle_bool_iff in Hb. unfold Qgeb. rewrite Hb. reflexivity.
  - intros binsize Hb. unfold divisor.
    apply Qle_bool_false in Hb. unfold Qgeb. rewrite Hb. reflexivity.
  - rewrite (proj1 (rate_ind_index 1 2 ltac:(lia))). vm_compute. reflexivity.
  - rewrite (proj1 (rate_ind_index 1 50 ltac:(lia))). vm_compute. reflexivity.
Qed.

Lemma rate_colour_index_witness :
  rate_ind 1 2 = spec_index 1 2 /\
  (0 <= rate_ind 1 2 <= 255)%Z /\
  rate_ind 1 2 = Z.of_nat (rate_index 1 2) /\
  divisor 1 = 3%Z /\ divisor (1 # 24) = 2%Z.
Proof.
  destruct rate_colour_index as (Hgen & Hday & Hhour & _).
  destruct (Hgen 1%Q 2%nat ltac:(lia)) as (H1 & H2 & H3).
  split; [exact H1|]. split; [exact H2|]. split; [exact H3|].
  split; [apply Hday; lra | apply Hhour; lra].
Defined.

End RateFacts.

(** ** The family loop of [plotFamilyOccurrence] *)

Module OccurrenceFacts.
Import Clip Occurrence.

Lemma foldl_pick_elem (f : Q -> Q -> bool) (a : list Q) : forall x,
  foldl (fun m y => if f y m then y else m) x a ∈ x :: a.
Proof.
  induction a as [|y a IH]; intros x; simpl.
  - left.
  - destruct (f y x).
    + right. apply IH.
    + specialize (IH x). apply elem_of_cons in IH as [->|IH].
      * left.
      * right. right. exact IH.
Qed.

(** The latest time of a family is the time of one of its events. *)
Lemma py_max_elem (a : list Q) (m : Q) : py_max a = Ok m -> m ∈ a.
Proof.
  destruct a as [|x a]; simpl; intros H; [discriminate H|].
  injection H as <-. apply foldl_pick_elem.
Qed.

Section Loop.
Variable np_arange : Q -> Q -> Q -> result (list Q).
Variable np_histogram : list Q -> list Q -> result (list nat).
Variables (dt famstarts longevity fi : list Q).
Variables (mintime maxtime : Q) (minplot : nat) (binsize barpad : Q).
Variables (colorby_ : colorby) (opt : options).
Variables (useBokeh ax : bool).

Let body := family np_arange np_histogram dt famstarts longevity fi
              mintime maxtime minplot binsize barpad colorby_ opt useBokeh ax.

(** The pass of a family that is left out leaves the row counter and
    the drawing as they are. *)
Lemma family_left_out clustNum members st st' :
  left_out dt mintime minplot members ->
  body (clustNum, members) st = Ok st' -> st' = st.
Proof using Type.
  intros Hout H. unfold body, family in H.
  apply bind_Ok in H as (times & Htimes & H).
  apply bind_Ok in H as (first & Hfirst & H).
  apply bind_Ok in H as (last & Hlast & H).
  apply bind_Ok in H as (h & Hh & H).
  apply bind_Ok in H as (hist & Hhist & H).
  apply bind_Ok in H as (d1 & Hd1 & H).
  apply bind_Ok in H as (colors & Hcolors & H).
  assert (Hcond : Nat.leb minplot (length times) && Qgtb last mintime = false).
  { apply andb_false_iff. destruct Hout as [Hfew|Hold].
    - left. apply Nat.leb_gt. rewrite (take_at_length _ _ _ Htimes). exact Hfew.
    - right. apply Qgtb_le.
      destruct (take_at_elem _ _ _ _ Htimes (py_max_elem _ _ Hlast))
        as (k & Hk & Hdt).
      apply Qlt_le_weak. exact (Hold k last Hk Hdt). }
  rewrite Hcond in H. injection H as <-. reflexivity.
Qed.

(** Every pass only adds glyphs, under the number of its family. *)
Lemma family_glyphs clustNum members st st' :
  body (clustNum, members) st = Ok st' ->
  exists new, glyphs st' = glyphs st ++ (pair clustNum <$> new).
Proof using Type.
  intros H. unfold body, family in H.
  apply bind_Ok in H as (times & _ & H).
  apply bind_Ok in H as (first & _ & H).
  apply bind_Ok in H as (last & _ & H).
  apply bind_Ok in H as (h & _ & H).
  apply bind_Ok in H as (hist & _ & H).
  apply bind_Ok in H as (d1 & _ & H).
  apply bind_Ok in H as (colors & _ & H).
  destruct (Nat.leb minplot (length times) && Qgtb last mintime).
  - apply bind_Ok in H as (famstart & _ & H).
    apply bind_Ok in H as (longev & _ & H).
    apply bind_Ok in H as (lines & _ & H).
    apply bind_Ok in H as (rest & _ & H).
    injection H as <-. simpl. eauto.
  - injection H as <-. exists []. simpl. rewrite app_nil_r. reflexivity.
Qed.

Lemma loop_left_out clustNum l : forall st st',
  rfor l body st = Ok st' ->
  (forall members, (clustNum, members) ∈ l -> left_out dt mintime minplot members) ->
  (forall g, (clustNum, g) ∉ glyphs st) ->
  forall g, (clustNum, g) ∉ glyphs st'.
Proof using Type.
  induction l as [|[c m] l IH]; intros st st' Hrun Hout Hst.
  - simpl in Hrun. injection Hrun as <-. exact Hst.
  - simpl in Hrun. apply bind_Ok in Hrun as (st1 & Hbody & Hrun).
    apply (IH st1 st' Hrun).
    + intros members Hin. apply Hout. right. exact Hin.
    + destruct (decide (c = clustNum)) as [->|Hne].
      * rewrite (family_left_out clustNum m st st1); [exact Hst | | exact Hbody].
        apply Hout. left.
      * destruct (family_glyphs c m st st1 Hbody) as [new ->].
        intros g Hg. apply elem_of_app in Hg as [Hg|Hg]; [exact (Hst g Hg)|].
        apply list_elem_of_fmap in Hg as (g' & Heq & _).
        injection Heq as Hc _. exact (Hne (eq_sym Hc)).
Qed.

End Loop.

(** C6: a family with fewer members than the configured minimum, or with
    all its events before the start of the window, adds nothing to what
    is drawn, neither blocks nor line nor label nor hover patch, and takes
    no row: its pass through the loop leaves the drawing and the row
    counter as they are. *)
Theorem left_out_family_draws_nothing
    np_arange np_histogram dt famstarts longevity fi mintime maxtime minplot
    binsize barpad colorby_ opt useBokeh ax ftable out clustNum members :
  plotFamilyOccurrence np_arange np_histogram dt famstarts longevity fi
    mintime maxtime minplot binsize barpad colorby_ opt useBokeh ax ftable
  = Ok out ->
  ftable !! clustNum = Some members ->
  left_out dt mintime minplot members ->
  (forall g, (clustNum, g) ∉ glyphs out) /\
  (forall st st',
     family np_arange np_histogram dt famstarts longevity fi mintime maxtime
       minplot binsize barpad colorby_ opt useBokeh ax (clustNum, members) st
     = Ok st' -> st' = st).
Proof.
  intros Hrun Hfam Hout. split.
  - unfold plotFamilyOccurrence in Hrun.
    destruct (negb useBokeh && negb ax); [discriminate Hrun|].
    eapply loop_left_out; [exact Hrun | | ].
    + intros members' Hin.
      apply list_elem_of_lookup_1 in Hin as [i Hi].
      apply lookup_zip_Some in Hi as [Hseq Hm].
      apply lookup_seq in Hseq as [Hc _]. simpl in Hc, Hm. subst clustNum.
      assert (members' = members) as -> by congruence.
      exact Hout.
    + intros g Hg. simpl in Hg. apply not_elem_of_nil in Hg. exact Hg.
  - intros st st'. apply family_left_out. exact Hout.
Qed.

Lemma left_out_family_draws_nothing_witness :
  exists out,
    example_run 100 200 true false = Ok out /\
    glyphs out
    = [(0, Line 101 150 0); (0, Quad 101 102 0 0); (0, Quad 102 103 25 0);
       (0, Quad 149 150 0 0); (0, Label 150 0 4); (0, Patch 100 151 0 0)]%nat /\
    forall g, (2%nat, g) ∉ glyphs out.
Proof.
  eexists. split; [vm_compute; reflexivity|]. split; [reflexivity|].
  apply (left_out_family_draws_nothing arange_exact histogram_exact
           example_dt example_famstarts example_longevity [] 100 200 2 1 1
           ByRate (Options 0 1) true false example_ftable _ 2%nat [6%nat]).
  - reflexivity.
  - reflexivity.
  - left. simpl. lia.
Defined.

End OccurrenceFacts.

(** ** Matrices *)

Module ReportFacts.
Import Report.

Lemma mget_Ok (M : matrix) i j v :
  mget M i j = Ok v <-> exists row, M !! i = Some row /\ row !! j = Some v.
Proof.
  unfold mget. rewrite bind_Ok. split.
  - intros (row & Hrow & Hv). exists row. split; apply index_Ok; assumption.
  - intros (row & Hrow & Hv). exists row. split; apply index_Ok; assumption.
Qed.

Lemma square_row n (M : matrix) i row :
  square n M -> M !! i = Some row -> length row = n.
Proof.
  intros [_ HF] Hrow. rewrite Forall_lookup in HF. exact (HF i row Hrow).
Qed.

Lemma mget_in_range n (M : matrix) i j :
  square n M -> (i < n)%nat -> (j < n)%nat -> exists v, mget M i j = Ok v.
Proof.
  intros Hsq Hi Hj.
  destruct (lookup_lt_is_Some_2 M i) as [row Hrow]; [destruct Hsq; lia|].
  destruct (lookup_lt_is_Some_2 row j) as [v Hv].
  { rewrite (square_row n M i row Hsq Hrow). exact Hj. }
  exists v. apply mget_Ok. eauto.
Qed.

Lemma mget_Ok_range n (M : matrix) i j v :
  square n M -> mget M i j = Ok v -> (i < n)%nat /\ (j < n)%nat.
Proof.
  intros Hsq H. apply mget_Ok in H as (row & Hrow & Hv).
  pose proof (square_row n M i row Hsq Hrow) as Hlen.
  apply lookup_lt_Some in Hv. apply lookup_lt_Some in Hrow.
  destruct Hsq as [HM _]. lia.
Qed.

Lemma mget_out_of_range n (M : matrix) i j :
  square n M -> ~ ((i < n)%nat /\ (j < n)%nat) -> mget M i j = Raise IndexError.
Proof.
  intros Hsq Hout. destruct (mget M i j) as [v|e] eqn:E.
  - exfalso. apply Hout. exact (mget_Ok_range n M i j v Hsq E).
  - unfold mget, index in E.
    destruct (M !! i) as [row|]; simpl in E.
    + destruct (row !! j); congruence.
    + congruence.
Qed.

Lemma mset_Ok (M M' : matrix) i j v :
  mset M i j v = Ok M' ->
  exists row old, M !! i = Some row /\ row !! j = Some old /\
                  M' = <[i := <[j := v]> row]> M.
Proof.
  unfold mset. intros H. inv_ok.
  apply index_Ok in Ha, Ha0. eauto.
Qed.

Lemma mset_in_range n (M : matrix) i j v :
  square n M -> (i < n)%nat -> (j < n)%nat -> exists M', mset M i j v = Ok M'.
Proof.
  intros Hsq Hi Hj.
  destruct (lookup_lt_is_Some_2 M i) as [row Hrow]; [destruct Hsq; lia|].
  destruct (lookup_lt_is_Some_2 row j) as [old Hold].
  { rewrite (square_row n M i row Hsq Hrow). exact Hj. }
  exists (<[i := <[j := v]> row]> M). unfold mset.
  apply index_Ok in Hrow, Hold. rewrite Hrow. simpl. rewrite Hold. reflexivity.
Qed.

Lemma mset_square n (M M' : matrix) i j v :
  square n M -> mset M i j v = Ok M' -> square n M'.
Proof.
  intros Hsq H. apply mset_Ok in H as (row & old & Hrow & Hold & ->).
  pose proof (square_row n M i row Hsq Hrow) as Hlen.
  destruct Hsq as [HM HF]. split.
  - rewrite length_insert. exact HM.
  - apply Forall_insert; [exact HF|]. rewrite length_insert. exact Hlen.
Qed.

(** A write changes the cell written and no other. *)
Lemma mget_mset (M M' : matrix) i j v a b :
  mset M i j v = Ok M' ->
  mget M' a b = if decide (a = i /\ b = j) then Ok v else mget M a b.
Proof.
  intros H. apply mset_Ok in H as (row & old & Hrow & Hold & ->).
  unfold mget, index.
  destruct (decide (a = i)) as [->|Hai].
  - rewrite list_lookup_insert_eq by (eapply lookup_lt_Some; eassumption).
    rewrite Hrow. simpl.
    destruct (decide (b = j)) as [->|Hbj].
    + rewrite list_lookup_insert_eq by (eapply lookup_lt_Some; eassumption).
      rewrite decide_True by auto. reflexivity.
    + rewrite list_lookup_insert_ne by congruence.
      rewrite decide_False by tauto. reflexivity.
  - rewrite list_lookup_insert_ne by congruence.
    rewrite decide_False by tauto. reflexivity.
Qed.

Lemma eye_square n : square n (eye n).
Proof.
  unfold eye. split.
  - rewrite length_fmap, length_seq. reflexivity.
  - apply Forall_fmap, Forall_forall. intros i _. simpl.
    rewrite length_fmap, length_seq. reflexivity.
Qed.

Lemma mget_eye n i j :
  (i < n)%nat -> (j < n)%nat ->
  mget (eye n) i j = Ok (if Nat.eqb i j then 1%Q else 0%Q).
Proof.
  intros Hi Hj. apply mget_Ok. unfold eye.
  eexists. split.
  - rewrite list_lookup_fmap, lookup_seq_lt by exact Hi. reflexivity.
  - rewrite list_lookup_fmap, lookup_seq_lt by exact Hj. reflexivity.
Qed.



(** ** The loops that fill the matrix *)

Lemma filter_ext_in {A : Type} (P1 P2 : A -> Prop)
    `{!forall x, Decision (P1 x)} `{!forall x, Decision (P2 x)} (l : list A) :
  (forall x, x ∈ l -> (P1 x <-> P2 x)) -> filter P1 l = filter P2 l.
Proof.
  induction l as [|x l IH]; intros Hext; [reflexivity|].
  rewrite !filter_cons.
  assert (IHl : filter P1 l = filter P2 l).
  { apply IH. intros y Hy. apply Hext. right. exact Hy. }
  destruct (decide (P1 x)) as [Hx1|Hx1], (decide (P2 x)) as [Hx2|Hx2];
    rewrite IHl; try reflexivity; exfalso.
  - apply Hx2, Hext; [left|exact Hx1].
  - apply Hx1, Hext; [left|exact Hx2].
Qed.

(** The pairs visited by the two loops: exactly the pairs [i < j < n],
    each once. *)
Lemma elem_of_loop_pairs n i j :
  (i, j) ∈ loop_pairs n <-> (i < j)%nat /\ (j < n)%nat.
Proof.
  unfold loop_pairs. rewrite list_elem_of_bind. split.
  - intros (i' & Hj & Hi). apply list_elem_of_fmap in Hj as (j' & Heq & Hj').
    injection Heq as -> ->.
    apply elem_of_seq in Hi, Hj'. lia.
  - intros [Hij Hj]. exists i. split.
    + apply list_elem_of_fmap. exists j. split; [reflexivity|].
      apply elem_of_seq. lia.
    + apply elem_of_seq. lia.
Qed.

Lemma NoDup_loop_pairs n : NoDup (loop_pairs n).
Proof.
  unfold loop_pairs. apply NoDup_bind.
  - intros i1 i2 [a b] _ _ H1 H2.
    apply list_elem_of_fmap in H1 as (? & Heq1 & _).
    apply list_elem_of_fmap in H2 as (? & Heq2 & _).
    congruence.
  - intros i _. apply NoDup_fmap_2; [|apply NoDup_seq].
    intros a b Hab. congruence.
  - apply NoDup_seq.
Qed.

Lemma length_loop_pairs_from n k :
  length ((seq k (n - 1 - k)) ≫= fun i =>
            (fun j => (i, j)) <$> seq (i + 1) (n - (i + 1)))
  = ((n - k) * (n - k - 1) / 2)%nat.
Proof.
  remember (n - 1 - k)%nat as m eqn:Hm. revert k Hm.
  induction m as [|m IH]; intros k Hm.
  - simpl. replace (n - k - 1)%nat with 0%nat by lia.
    rewrite Nat.mul_0_r. reflexivity.
  - change (seq k (S m)) with (k :: seq (S k) m).
    rewrite bind_cons, length_app, length_fmap, length_seq.
    rewrite (IH (S k)) by lia.
    replace (n - k)%nat with (S (S m)) by lia.
    replace (n - (k + 1))%nat with (S m) by lia.
    replace (n - S k)%nat with (S m) by lia.
    replace (S (S m) - 1)%nat with (S m) by lia.
    replace (S m - 1)%nat with m by lia.
    replace (S (S m) * S m)%nat with (S m * m + S m * 2)%nat by lia.
    rewrite Nat.div_add by lia. lia.
Qed.

(** There are [n (n - 1) / 2] of them. *)
Lemma length_loop_pairs n : length (loop_pairs n) = (n * (n - 1) / 2)%nat.
Proof.
  unfold loop_pairs.
  pose proof (length_loop_pairs_from n 0) as H.
  rewrite !Nat.sub_0_r in H. exact H.
Qed.

Section Fill.
Variable xcorr1x1 : nat -> nat -> result Q.
Variable famcat : list nat.

(** One pass through the body of the inner loop, for a pair off the
    diagonal. *)
Lemma fill_cell_Ok i j st st' :
  fill_cell xcorr1x1 famcat (i, j) st = Ok st' ->
  (is_zero (Cfull st) (i, j) = false /\ st' = st) \/
  (is_zero (Cfull st) (i, j) = true /\
   exists a b cor,
     famcat !! i = Some a /\ famcat !! j = Some b /\
     xcorr1x1 a b = Ok cor /\
     calls st' = calls st ++ [(i, j)] /\
     (forall n, square n (Cfull st) -> square n (Cfull st')) /\
     (forall x y, mget (Cfull st') x y
                  = if decide ((x = i /\ y = j) \/ (x = j /\ y = i))
                    then Ok cor else mget (Cfull st) x y)).
Proof.
  unfold fill_cell, is_zero. simpl. intros H.
  apply bind_Ok in H as (c & Hc & H). rewrite Hc.
  destruct (Qeq_bool c 0) eqn:Ez.
  - right. split; [reflexivity|].
    inv_ok. subst st'. simpl.
    apply index_Ok in Ha, Ha0.
    exists a, a0, a1.
    split; [assumption|]. split; [assumption|]. split; [assumption|].
    split; [reflexivity|]. split.
    + intros n Hsq. eapply mset_square; [|eassumption].
      eapply mset_square; eassumption.
    + intros x y.
      rewrite (mget_mset _ _ _ _ _ x y Ha3), (mget_mset _ _ _ _ _ x y Ha2).
      repeat case_decide; try reflexivity; tauto.
  - left. split; [reflexivity|]. congruence.
Qed.

(** The loops over a list of pairs above the diagonal, each visited
    once: the calls made, and the cells of the result. *)
Lemma fill_loop l : forall st st',
  rfor l (fill_cell xcorr1x1 famcat) st = Ok st' ->
  (forall i j, (i, j) ∈ l -> (i < j)%nat) ->
  NoDup l ->
  calls st' = calls st ++ filter (fun ij => is_zero (Cfull st) ij = true) l /\
  (forall n, square n (Cfull st) -> square n (Cfull st')) /\
  (forall x y, (x, y) ∉ l -> (y, x) ∉ l ->
     mget (Cfull st') x y = mget (Cfull st) x y) /\
  (forall i j, (i, j) ∈ l -> is_zero (Cfull st) (i, j) = false ->
     mget (Cfull st') i j = mget (Cfull st) i j /\
     mget (Cfull st') j i = mget (Cfull st) j i) /\
  (forall i j, (i, j) ∈ l -> is_zero (Cfull st) (i, j) = true ->
     exists a b cor,
       famcat !! i = Some a /\ famcat !! j = Some b /\
       xcorr1x1 a b = Ok cor /\
       mget (Cfull st') i j = Ok cor /\ mget (Cfull st') j i = Ok cor).
Proof.
  induction l as [|[i j] l IH]; intros st st' Hrun Hup Hnd.
  - simpl in Hrun. injection Hrun as <-.
    split; [rewrite app_nil_r; reflexivity|].
    split; [tauto|]. split; [reflexivity|].
    split; intros i j Hin; apply not_elem_of_nil in Hin; contradiction.
  - simpl in Hrun. apply bind_Ok in Hrun as (st1 & Hcell & Hrun).
    apply NoDup_cons in Hnd as [Hnotin Hnd].
    assert (Hij : (i < j)%nat) by (apply Hup; left).
    assert (Hup' : forall a b, (a, b) ∈ l -> (a < b)%nat).
    { intros a b Hab. apply Hup. right. exact Hab. }
    destruct (IH st1 st' Hrun Hup' Hnd) as (Hcalls & Hsq & Hout & Hnz & Hz).
    (* the cells of the pairs still to visit are as before the visit *)
    assert (Hsame : forall x y, (x, y) ∈ l ->
              mget (Cfull st1) x y = mget (Cfull st) x y /\
              mget (Cfull st1) y x = mget (Cfull st) y x).
    { intros x y Hxy.
      destruct (fill_cell_Ok i j st st1 Hcell) as [[_ ->]|(_ & a & b & cor & _ & _ & _ & _ & _ & Hget)];
        [tauto|].
      pose proof (Hup' x y Hxy) as Hlt.
      rewrite !Hget. split; rewrite decide_False; try reflexivity.
      - intros [[-> ->]|[-> ->]]; [tauto | lia].
      - intros [[-> ->]|[-> ->]]; [lia | tauto]. }
    assert (Hzsame : forall ij, ij ∈ l ->
              is_zero (Cfull st1) ij = is_zero (Cfull st) ij).
    { intros [x y] Hxy. unfold is_zero. simpl.
      destruct (Hsame x y Hxy) as [-> _]. reflexivity. }
    assert (Hfilter : filter (fun ij => is_zero (Cfull st1) ij = true) l
                      = filter (fun ij => is_zero (Cfull st) ij = true) l).
    { apply filter_ext_in. intros ij Hin. rewrite (Hzsame ij Hin). tauto. }
    rewrite Hfilter in Hcalls.
    destruct (fill_cell_Ok i j st st1 Hcell)
      as [[Ez ->]|(Ez & a & b & cor & Ha & Hb & Hcor & Hc1 & Hsq1 & Hget)].
    + (* the cell is not zero: nothing happens *)
      rewrite filter_cons_False by (rewrite Ez; discriminate).
      split; [exact Hcalls|]. split; [exact Hsq|].
      split; [|split].
      * intros x y Hxy Hyx. apply Hout.
        -- intros H. apply Hxy. right. exact H.
        -- intros H. apply Hyx. right. exact H.
      * intros x y Hxy Hzero. apply elem_of_cons in Hxy as [Heq|Hxy].
        -- injection Heq as -> ->.
           split; apply Hout; try assumption.
           ++ intros H. apply Hup' in H. lia.
           ++ intros H. apply Hup' in H. lia.
        -- apply Hnz; assumption.
      * intros x y Hxy Hzero. apply elem_of_cons in Hxy as [Heq|Hxy].
        -- injection Heq as -> ->. congruence.
        -- apply Hz; assumption.
    + (* the cell is zero: one call, two cells written *)
      rewrite filter_cons_True by exact Ez.
      split; [rewrite Hcalls, Hc1, <- app_assoc; reflexivity|].
      split; [intros n Hn; apply Hsq, Hsq1, Hn|].
      split; [|split].
      * intros x y Hxy Hyx. rewrite Hout.
        -- rewrite Hget. rewrite decide_False; [reflexivity|].
           intros [[-> ->]|[-> ->]]; [apply Hxy | apply Hyx]; left.
        -- intros H. apply Hxy. right. exact H.
        -- intros H. apply Hyx. right. exact H.
      * intros x y Hxy Hzero. apply elem_of_cons in Hxy as [Heq|Hxy].
        -- injection Heq as -> ->. congruence.
        -- rewrite <- (Hzsame (x, y) Hxy) in Hzero.
           destruct (Hnz x y Hxy Hzero) as [-> ->].
           exact (Hsame x y Hxy).
      * intros x y Hxy Hzero. apply elem_of_cons in Hxy as [Heq|Hxy].
        -- injection Heq as -> ->.
           exists a, b, cor.
           split; [assumption|]. split; [assumption|].
           split; [assumption|]. split.
           ++ rewrite Hout.
              ** rewrite Hget, decide_True by tauto. reflexivity.
              ** exact Hnotin.
              ** intros H. apply Hup' in H. lia.
           ++ rewrite Hout.
              ** rewrite Hget, decide_True by tauto. reflexivity.
              ** intros H. apply Hup' in H. lia.
              ** exact Hnotin.
        -- rewrite <- (Hzsame (x, y) Hxy) in Hzero.
           exact (Hz x y Hxy Hzero).
Qed.

End Fill.

(** ** The stored matrix *)

Lemma scatter_cell r1 : forall (C C' : matrix) r2 vals,
  scatter C r1 r2 vals = Ok C' ->
  forall a b, mget C' a b = match written r1 r2 vals a b with
                            | Some w => Ok w
                            | None => mget C a b
                            end.
Proof.
  induction r1 as [|x r1 IH]; intros C C' r2 vals H a b.
  - simpl in H. injection H as <-. reflexivity.
  - destruct r2 as [|y r2]; [simpl in H; injection H as <-; reflexivity|].
    destruct vals as [|v vals]; [simpl in H; injection H as <-; reflexivity|].
    simpl in H. apply bind_Ok in H as (C1 & Hset & H).
    rewrite (IH _ _ _ _ H a b). simpl.
    destruct (written r1 r2 vals a b); [reflexivity|].
    rewrite (mget_mset _ _ _ _ _ a b Hset).
    destruct (decide (a = x /\ b = y)); reflexivity.
Qed.

Lemma scatter_square n r1 : forall (C C' : matrix) r2 vals,
  square n C -> scatter C r1 r2 vals = Ok C' -> square n C'.
Proof.
  induction r1 as [|x r1 IH]; intros C C' r2 vals Hsq H.
  - simpl in H. injection H as <-. exact Hsq.
  - destruct r2 as [|y r2]; [simpl in H; injection H as <-; exact Hsq|].
    destruct vals as [|v vals]; [simpl in H; injection H as <-; exact Hsq|].
    simpl in H. apply bind_Ok in H as (C1 & Hset & H).
    eapply IH; [|exact H]. eapply mset_square; eassumption.
Qed.

Lemma written_swap r1 : forall r2 vals a b,
  written r2 r1 vals b a = written r1 r2 vals a b.
Proof.
  induction r1 as [|x r1 IH]; intros r2 vals a b.
  - destruct r2; reflexivity.
  - destruct r2 as [|y r2]; [reflexivity|].
    destruct vals as [|v vals]; [reflexivity|].
    simpl. rewrite IH.
    destruct (written r1 r2 vals a b); [reflexivity|].
    destruct (decide (b = y /\ a = x)), (decide (a = x /\ b = y));
      try reflexivity; tauto.
Qed.

Lemma written_Some r1 : forall r2 vals a b w,
  written r1 r2 vals a b = Some w ->
  exists k, r1 !! k = Some a /\ r2 !! k = Some b /\ vals !! k = Some w.
Proof.
  induction r1 as [|x r1 IH]; intros r2 vals a b w H.
  - discriminate H.
  - destruct r2 as [|y r2]; [discriminate H|].
    destruct vals as [|v vals]; [discriminate H|].
    simpl in H. destruct (written r1 r2 vals a b) as [w'|] eqn:E.
    + injection H as ->. destruct (IH _ _ _ _ _ E) as (k & H1 & H2 & H3).
      exists (S k). auto.
    + destruct (decide (a = x /\ b = y)) as [[-> ->]|]; [|discriminate H].
      injection H as ->. exists 0%nat. auto.
Qed.

Lemma written_None r1 : forall r2 vals a b k w,
  written r1 r2 vals a b = None ->
  r1 !! k = Some a -> r2 !! k = Some b -> vals !! k = Some w -> False.
Proof.
  induction r1 as [|x r1 IH]; intros r2 vals a b k w H H1 H2 H3.
  - discriminate H1.
  - destruct r2 as [|y r2]; [discriminate H2|].
    destruct vals as [|v vals]; [discriminate H3|].
    simpl in H. destruct (written r1 r2 vals a b) as [w'|] eqn:E; [discriminate H|].
    destruct k as [|k].
    + simpl in H1, H2. injection H1 as ->. injection H2 as ->.
      rewrite decide_True in H by tauto. discriminate H.
    + exact (IH _ _ _ _ _ _ E H1 H2 H3).
Qed.

(** When one write only goes to the cell, that is the value left. *)
Lemma written_unique r1 r2 vals a b k w :
  r1 !! k = Some a -> r2 !! k = Some b -> vals !! k = Some w ->
  (forall k', r1 !! k' = Some a -> r2 !! k' = Some b -> k' = k) ->
  written r1 r2 vals a b = Some w.
Proof.
  intros H1 H2 H3 Huniq.
  destruct (written r1 r2 vals a b) as [w'|] eqn:E.
  - destruct (written_Some _ _ _ _ _ _ E) as (k' & H1' & H2' & H3').
    rewrite (Huniq k' H1' H2') in H3'. congruence.
  - exfalso. exact (written_None _ _ _ _ _ _ _ E H1 H2 H3).
Qed.

Lemma where_first_Ok idf : forall xx p,
  where_first idf xx = Ok p -> idf !! p = Some xx.
Proof.
  induction idf as [|y idf IH]; intros xx p H; simpl in H; [discriminate H|].
  destruct (Z.eqb y xx) eqn:E.
  - injection H as <-. apply Z.eqb_eq in E. subst. reflexivity.
  - inv_ok. subst p. simpl. apply IH. assumption.
Qed.

Lemma where_first_elem idf : forall xx,
  xx ∈ idf -> exists p, where_first idf xx = Ok p.
Proof.
  induction idf as [|y idf IH]; intros xx Hin.
  - apply not_elem_of_nil in Hin. contradiction.
  - simpl. destruct (Z.eqb y xx) eqn:E; [eauto|].
    apply elem_of_cons in Hin as [->|Hin].
    + rewrite Z.eqb_refl in E. discriminate E.
    + destruct (IH xx Hin) as [p ->]. simpl. eauto.
Qed.

(** In a list without repetitions every element is at its first position. *)
Lemma where_first_NoDup idf : forall xx p,
  NoDup idf -> idf !! p = Some xx -> where_first idf xx = Ok p.
Proof.
  intros xx p Hnd Hp.
  destruct (where_first_elem idf xx) as [q Hq].
  { eapply list_elem_of_lookup_2. exact Hp. }
  pose proof (where_first_Ok _ _ _ Hq) as Hq'.
  rewrite (NoDup_lookup _ _ _ _ Hnd Hp Hq'). exact Hq.
Qed.

Lemma mget_Raise (M : matrix) i j e : mget M i j = Raise e -> e = IndexError.
Proof.
  unfold mget, index. destruct (M !! i) as [row|]; simpl; [|congruence].
  destruct (row !! j); congruence.
Qed.

(** Two cells are equal as soon as they hold the same values. *)
Lemma mget_eq (M N : matrix) i j i' j' :
  (forall v, mget M i j = Ok v <-> mget N i' j' = Ok v) ->
  mget M i j = mget N i' j'.
Proof.
  intros H.
  destruct (mget M i j) as [v|e] eqn:E1, (mget N i' j') as [v'|e'] eqn:E2.
  - symmetry. apply H. reflexivity.
  - assert (Hv : @Raise Q e' = Ok v) by (apply H; reflexivity). discriminate Hv.
  - assert (Hv : @Raise Q e = Ok v') by (apply H; reflexivity). discriminate Hv.
  - apply mget_Raise in E1, E2. congruence.
Qed.

Lemma eye_symmetric n : symmetric (eye n).
Proof.
  intros i j.
  destruct (decide ((i < n)%nat /\ (j < n)%nat)) as [[Hi Hj]|Hout].
  - rewrite !mget_eye by assumption. rewrite Nat.eqb_sym. reflexivity.
  - rewrite !(mget_out_of_range n) by (try apply eye_square; tauto).
    reflexivity.
Qed.

Lemma pair_key_eq (r r' : crow) :
  pair_key r = pair_key r' <->
  (id1 r = id1 r' /\ id2 r = id2 r') \/ (id1 r = id2 r' /\ id2 r = id1 r').
Proof.
  unfold pair_key. split.
  - intros H. injection H as Hmin Hmax. lia.
  - intros H. f_equal; lia.
Qed.

Lemma pair_map_filter (P : crow -> Prop) `{!forall r, Decision (P r)} ctable :
  pair_map ctable -> pair_map (filter P ctable).
Proof.
  intros [Hne Hnd]. split.
  - apply Forall_forall. intros r Hr. apply list_elem_of_filter in Hr as [_ Hr].
    rewrite Forall_forall in Hne. exact (Hne r Hr).
  - eapply sublist_NoDup; [exact Hnd|].
    apply fmap_sublist, sublist_filter.
Qed.

(** The rows of the table that [stored] writes, and where. *)
Section Stored.
Variables (idf : list Z) (ix : list crow) (r1 r2 : list nat).
Hypothesis Hr1 : Forall2 (fun r p => where_first idf (id1 r) = Ok p) ix r1.
Hypothesis Hr2 : Forall2 (fun r p => where_first idf (id2 r) = Ok p) ix r2.

Lemma row_at k a b :
  r1 !! k = Some a -> r2 !! k = Some b ->
  exists r, ix !! k = Some r /\
            where_first idf (id1 r) = Ok a /\ where_first idf (id2 r) = Ok b.
Proof using Hr1 Hr2.
  intros Ha Hb.
  destruct (Forall2_lookup_r _ _ _ _ _ Hr1 Ha) as (r & Hr & H1).
  destruct (Forall2_lookup_r _ _ _ _ _ Hr2 Hb) as (r' & Hr' & H2).
  exists r. split; [exact Hr|]. split; [exact H1|]. congruence.
Qed.

Lemma at_row k r :
  ix !! k = Some r ->
  exists a b, r1 !! k = Some a /\ r2 !! k = Some b /\
              where_first idf (id1 r) = Ok a /\ where_first idf (id2 r) = Ok b.
Proof using Hr1 Hr2.
  intros Hr.
  destruct (Forall2_lookup_l _ _ _ _ _ Hr1 Hr) as (a & Ha & H1).
  destruct (Forall2_lookup_l _ _ _ _ _ Hr2 Hr) as (b & Hb & H2).
  exists a, b. auto.
Qed.

Hypothesis Hmap : pair_map ix.

Lemma row_off_diagonal k a :
  r1 !! k = Some a -> r2 !! k = Some a -> False.
Proof using Hr1 Hr2 Hmap.
  intros Ha Hb. destruct (row_at k a a Ha Hb) as (r & Hr & H1 & H2).
  apply where_first_Ok in H1, H2.
  destruct Hmap as [Hne _]. rewrite Forall_lookup in Hne.
  apply (Hne k r Hr). congruence.
Qed.

(** No two rows write the same cell or mirrored cells. *)
Lemma row_of_pair k k' a b :
  r1 !! k = Some a -> r2 !! k = Some b ->
  (r1 !! k' = Some a /\ r2 !! k' = Some b) \/
  (r1 !! k' = Some b /\ r2 !! k' = Some a) ->
  k' = k.
Proof using Hr1 Hr2 Hmap.
  intros Ha Hb H'.
  destruct (row_at k a b Ha Hb) as (r & Hr & H1 & H2).
  apply where_first_Ok in H1, H2.
  assert (Hkey : exists r', ix !! k' = Some r' /\ pair_key r' = pair_key r).
  { destruct H' as [[Ha' Hb']|[Ha' Hb']].
    - destruct (row_at k' a b Ha' Hb') as (r' & Hr' & H1' & H2').
      apply where_first_Ok in H1', H2'.
      exists r'. split; [exact Hr'|]. apply pair_key_eq. left. split; congruence.
    - destruct (row_at k' b a Ha' Hb') as (r' & Hr' & H1' & H2').
      apply where_first_Ok in H1', H2'.
      exists r'. split; [exact Hr'|]. apply pair_key_eq. right. split; congruence. }
  destruct Hkey as (r' & Hr' & Hkey).
  destruct Hmap as [_ Hnd].
  eapply (NoDup_lookup _ _ _ _ Hnd).
  - rewrite list_lookup_fmap, Hr'. simpl. rewrite Hkey. reflexivity.
  - rewrite list_lookup_fmap, Hr. reflexivity.
Qed.

(** The cells of the matrix after the two assignments
    [C[r1,r2] = ccc[ix]] and [C[r2,r1] = ccc[ix]]. *)
Variables (C0 C : matrix).
Hypothesis Hcells : forall a b,
  mget C a b = match written r1 r2 (ccc <$> ix) b a with
               | Some w => Ok w
               | None => match written r1 r2 (ccc <$> ix) a b with
                         | Some w => Ok w
                         | None => mget C0 a b
                         end
               end.

Lemma stored_symmetric : symmetric C0 -> symmetric C.
Proof using Hr1 Hr2 Hmap Hcells.
  intros Hsym a b. rewrite !Hcells.
  destruct (written r1 r2 (ccc <$> ix) b a) as [w|] eqn:Eba,
           (written r1 r2 (ccc <$> ix) a b) as [w'|] eqn:Eab;
    try reflexivity; [|apply Hsym].
  exfalso.
  destruct (written_Some _ _ _ _ _ _ Eba) as (k & H1 & H2 & _).
  destruct (written_Some _ _ _ _ _ _ Eab) as (k' & H1' & H2' & _).
  assert (k' = k) as -> by (eapply row_of_pair; eauto).
  apply (row_off_diagonal k a); congruence.
Qed.

Lemma stored_diagonal a : mget C a a = mget C0 a a.
Proof using Hr1 Hr2 Hmap Hcells.
  rewrite Hcells.
  destruct (written r1 r2 (ccc <$> ix) a a) as [w|] eqn:E; [|reflexivity].
  exfalso. destruct (written_Some _ _ _ _ _ _ E) as (k & H1 & H2 & _).
  exact (row_off_diagonal k a H1 H2).
Qed.

(** A row of the table is found in its two cells. *)
Lemma stored_row k r :
  ix !! k = Some r ->
  exists a b, where_first idf (id1 r) = Ok a /\
              where_first idf (id2 r) = Ok b /\ a <> b /\
              mget C a b = Ok (ccc r) /\ mget C b a = Ok (ccc r).
Proof using Hr1 Hr2 Hmap Hcells.
  intros Hr. destruct (at_row k r Hr) as (a & b & Ha & Hb & H1 & H2).
  exists a, b. split; [exact H1|]. split; [exact H2|].
  assert (Hab : a <> b).
  { intros ->. exact (row_off_diagonal k b Ha Hb). }
  split; [exact Hab|].
  assert (Hw : written r1 r2 (ccc <$> ix) a b = Some (ccc r)).
  { apply (written_unique _ _ _ _ _ k); try assumption.
    - rewrite list_lookup_fmap, Hr. reflexivity.
    - intros k' Ha' Hb'. eapply row_of_pair; eauto. }
  assert (Hw' : written r1 r2 (ccc <$> ix) b a = None).
  { destruct (written r1 r2 (ccc <$> ix) b a) as [w|] eqn:E; [|reflexivity].
    exfalso. destruct (written_Some _ _ _ _ _ _ E) as (k' & Ha' & Hb' & _).
    assert (k' = k) as -> by (eapply row_of_pair; eauto).
    congruence. }
  rewrite !Hcells, Hw, Hw'. split; reflexivity.
Qed.

(** A cell either comes from a row of the table or is as it was. *)
Lemma stored_cell a b :
  (exists k r, ix !! k = Some r /\ mget C a b = Ok (ccc r) /\
     ((r1 !! k = Some a /\ r2 !! k = Some b) \/
      (r1 !! k = Some b /\ r2 !! k = Some a))) \/
  mget C a b = mget C0 a b.
Proof using Hr1 Hr2 Hmap Hcells.
  rewrite Hcells.
  destruct (written r1 r2 (ccc <$> ix) b a) as [w|] eqn:Eba.
  - left. destruct (written_Some _ _ _ _ _ _ Eba) as (k & H1 & H2 & H3).
    rewrite list_lookup_fmap in H3.
    destruct (ix !! k) as [r|] eqn:Hr; [|discriminate H3].
    injection H3 as <-. exists k, r. auto.
  - destruct (written r1 r2 (ccc <$> ix) a b) as [w|] eqn:Eab.
    + left. destruct (written_Some _ _ _ _ _ _ Eab) as (k & H1 & H2 & H3).
      rewrite list_lookup_fmap in H3.
      destruct (ix !! k) as [r|] eqn:Hr; [|discriminate H3].
      injection H3 as <-. exists k, r. auto.
    + right. reflexivity.
Qed.

End Stored.

(** What [stored] returns, opened up. *)
Lemma stored_Ok idf ctable (C : matrix) :
  stored idf ctable = Ok C ->
  forall ix, ix = filter (fun r => id2 r ∈ idf) ctable ->
  exists r1 r2,
    Forall2 (fun r p => where_first idf (id1 r) = Ok p) ix r1 /\
    Forall2 (fun r p => where_first idf (id2 r) = Ok p) ix r2 /\
    square (length idf) C /\
    forall a b,
      mget C a b = match written r1 r2 (ccc <$> ix) b a with
                   | Some w => Ok w
                   | None => match written r1 r2 (ccc <$> ix) a b with
                             | Some w => Ok w
                             | None => mget (eye (length idf)) a b
                             end
                   end.
Proof.
  unfold stored. intros H ix ->.
  apply bind_Ok in H as (r1 & Hr1 & H).
  apply bind_Ok in H as (r2 & Hr2 & H).
  apply bind_Ok in H as (C1 & HC1 & H).
  exists r1, r2.
  apply rmap_Ok in Hr1, Hr2.
  apply Forall2_fmap_l in Hr1, Hr2.
  split; [exact Hr1|]. split; [exact Hr2|]. split.
  - eapply scatter_square; [|exact H].
    eapply scatter_square; [apply eye_square | exact HC1].
  - intros a b.
    rewrite (scatter_cell _ _ _ _ _ H a b), written_swap.
    rewrite (scatter_cell _ _ _ _ _ HC1 a b). reflexivity.
Qed.

(** ** The catalog order *)

Lemma argsort_Permutation keys : argsort keys ≡ₚ seq 0 (length keys).
Proof.
  unfold argsort. rewrite merge_sort_Permutation.
  rewrite snd_zip; [reflexivity|]. rewrite length_seq. reflexivity.
Qed.

Lemma reorder_Ok (C Cind : matrix) p :
  reorder C p = Ok Cind ->
  square (length p) Cind /\
  forall i j pi pj, p !! i = Some pi -> p !! j = Some pj ->
    mget Cind i j = mget C pi pj.
Proof.
  unfold reorder. intros H. apply bind_Ok in H as (rows & Hrows & H).
  apply rmap_Ok in H.
  pose proof (take_at_length _ _ _ Hrows) as Hlen.
  split; [split|].
  - rewrite <- (Forall2_length _ _ _ H). exact Hlen.
  - apply Forall_lookup. intros i row' Hrow'.
    destruct (Forall2_lookup_r _ _ _ _ _ H Hrow') as (row & _ & Htake).
    exact (take_at_length _ _ _ Htake).
  - intros i j pi pj Hpi Hpj. apply mget_eq. intros v.
    rewrite !mget_Ok. split.
    + intros (row' & Hrow' & Hv).
      destruct (Forall2_lookup_r _ _ _ _ _ H Hrow') as (row & Hrow & Htake).
      exists row. split.
      * rewrite <- (take_at_lookup _ _ _ _ _ Hrows Hpi). exact Hrow.
      * rewrite <- (take_at_lookup _ _ _ _ _ Htake Hpj). exact Hv.
    + intros (row & Hrow & Hv).
      rewrite <- (take_at_lookup _ _ _ _ _ Hrows Hpi) in Hrow.
      destruct (Forall2_lookup_l _ _ _ _ _ H Hrow) as (row' & Hrow' & Htake).
      exists row'. split; [exact Hrow'|].
      rewrite (take_at_lookup _ _ _ _ _ Htake Hpj). exact Hv.
Qed.

(** What [stored_in_order] returns, opened up. *)
Lemma stored_in_order_Ok rtable ctable fam s :
  stored_in_order rtable ctable fam = Ok s ->
  fam <> [] /\
  o_catalogind s ≡ₚ seq 0 (length fam) /\
  take_at fam (o_catalogind s) = Ok (o_famcat s) /\
  take_at (id <$> rtable) fam = Ok (o_idf s) /\
  exists C, stored (o_idf s) ctable = Ok C /\
            reorder C (o_catalogind s) = Ok (o_Cind s).
Proof.
  unfold stored_in_order. intros H.
  apply bind_Ok in H as (times & Htimes & H).
  apply bind_Ok in H as (famcat & Hfamcat & H).
  apply bind_Ok in H as (first & Hfirst & H).
  apply bind_Ok in H as (minind & Hminind & H).
  apply bind_Ok in H as (idf & Hidf & H).
  apply bind_Ok in H as (C & HC & H).
  apply bind_Ok in H as (Cind & HCind & H).
  injection H as <-. simpl.
  pose proof (take_at_length _ _ _ Htimes) as Hlen.
  split; [|split; [|split; [|split]]].
  - intros ->. apply index_Ok in Hminind. discriminate Hminind.
  - rewrite <- Hlen. apply argsort_Permutation.
  - exact Hfamcat.
  - exact Hidf.
  - exists C. auto.
Qed.

Lemma catalog_position p n i :
  p ≡ₚ seq 0 n -> (i < n)%nat -> exists pi, p !! i = Some pi /\ (pi < n)%nat.
Proof.
  intros Hp Hi.
  destruct (lookup_lt_is_Some_2 p i) as [pi Hpi].
  { rewrite Hp, length_seq. exact Hi. }
  exists pi. split; [exact Hpi|].
  apply list_elem_of_lookup_2 in Hpi. rewrite Hp in Hpi.
  apply elem_of_seq in Hpi. lia.
Qed.

(** The stored matrix in catalog order: its shape and, for a table that
    is a map on unordered pairs, its symmetry and its diagonal. *)
Lemma stored_in_order_square rtable ctable fam s :
  stored_in_order rtable ctable fam = Ok s ->
  length (o_famcat s) = length fam /\ length (o_idf s) = length fam /\
  square (length fam) (o_Cind s).
Proof.
  intros H. destruct (stored_in_order_Ok _ _ _ _ H)
    as (_ & Hp & Hfamcat & Hidf & C & HC & HCind).
  assert (Hlp : length (o_catalogind s) = length fam).
  { rewrite Hp, length_seq. reflexivity. }
  split; [|split].
  - rewrite (take_at_length _ _ _ Hfamcat). exact Hlp.
  - exact (take_at_length _ _ _ Hidf).
  - rewrite <- Hlp. exact (proj1 (reorder_Ok _ _ _ HCind)).
Qed.

Lemma stored_in_order_symmetric rtable ctable fam s :
  stored_in_order rtable ctable fam = Ok s ->
  pair_map ctable ->
  symmetric (o_Cind s) /\ unit_diagonal (length fam) (o_Cind s).
Proof.
  intros H Hmap.
  destruct (stored_in_order_square _ _ _ _ H) as (_ & Hlidf & Hsq).
  destruct (stored_in_order_Ok _ _ _ _ H)
    as (_ & Hp & _ & _ & C & HC & HCind).
  destruct (reorder_Ok _ _ _ HCind) as [_ Hcell].
  destruct (stored_Ok _ _ _ HC _ eq_refl) as (r1 & r2 & Hr1 & Hr2 & HsqC & HcellC).
  pose proof (pair_map_filter (fun r => id2 r ∈ o_idf s) ctable Hmap) as Hmap'.
  split.
  - intros i j.
    destruct (decide ((i < length fam)%nat /\ (j < length fam)%nat)) as [[Hi Hj]|Hout].
    + destruct (catalog_position _ _ i Hp Hi) as (pi & Hpi & _).
      destruct (catalog_position _ _ j Hp Hj) as (pj & Hpj & _).
      rewrite (Hcell i j pi pj Hpi Hpj), (Hcell j i pj pi Hpj Hpi).
      apply (stored_symmetric _ _ _ _ Hr1 Hr2 Hmap' _ _ HcellC).
      apply eye_symmetric.
    + rewrite !(mget_out_of_range (length fam)) by (try exact Hsq; tauto).
      reflexivity.
  - intros i Hi.
    destruct (catalog_position _ _ i Hp Hi) as (pi & Hpi & Hlt).
    rewrite (Hcell i i pi pi Hpi Hpi).
    rewrite (stored_diagonal _ _ _ _ Hr1 Hr2 Hmap' _ _ HcellC).
    rewrite Hlidf, mget_eye by exact Hlt.
    rewrite Nat.eqb_refl. reflexivity.
Qed.

(** ** The completed matrix *)

Section Completed.
Variable xcorr1x1 : nat -> nat -> result Q.
Variables (rtable : list rrow) (ctable : list crow) (fam : list nat).
Variable r : matrices.
Hypothesis Hrun : plotReport xcorr1x1 rtable ctable fam = Ok r.

Let n := length fam.
Let Cind := o_Cind (m_stored r).
Let famcat := o_famcat (m_stored r).

Lemma plotReport_stored : stored_in_order rtable ctable fam = Ok (m_stored r).
Proof using Hrun.
  unfold plotReport in Hrun. apply bind_Ok in Hrun as (s & Hs & H).
  apply bind_Ok in H as (st & _ & H). injection H as <-. exact Hs.
Qed.

(** The loops of [plotReport], seen from the stored matrix. *)
Lemma plotReport_loop :
  m_calls r = filter (fun ij => is_zero Cind ij = true) (loop_pairs n) /\
  square n (m_Cfull r) /\
  (forall x, mget (m_Cfull r) x x = mget Cind x x) /\
  (forall i j, (i < j)%nat -> (j < n)%nat -> is_zero Cind (i, j) = false ->
     mget (m_Cfull r) i j = mget Cind i j /\
     mget (m_Cfull r) j i = mget Cind j i) /\
  (forall i j, (i < j)%nat -> (j < n)%nat -> is_zero Cind (i, j) = true ->
     exists a b cor,
       famcat !! i = Some a /\ famcat !! j = Some b /\
       xcorr1x1 a b = Ok cor /\
       mget (m_Cfull r) i j = Ok cor /\ mget (m_Cfull r) j i = Ok cor).
Proof using Hrun.
  pose proof plotReport_stored as Hs.
  destruct (stored_in_order_square _ _ _ _ Hs) as (Hlen & _ & Hsq).
  unfold plotReport in Hrun. apply bind_Ok in Hrun as (s & Hs' & H).
  rewrite Hs in Hs'. injection Hs' as <-.
  apply bind_Ok in H as (st & Hst & H). injection H as <-. simpl.
  unfold complete in Hst. rewrite Hlen in Hst.
  destruct (fill_loop xcorr1x1 _ _ _ _ Hst) as (Hcalls & Hsq' & Hout & Hnz & Hz).
  { intros i j Hij. apply elem_of_loop_pairs in Hij. lia. }
  { apply NoDup_loop_pairs. }
  simpl in *. split; [exact Hcalls|]. split; [apply Hsq', Hsq|].
  split; [|split].
  - intros x. apply Hout; rewrite elem_of_loop_pairs; lia.
  - intros i j Hij Hj. apply Hnz. apply elem_of_loop_pairs. lia.
  - intros i j Hij Hj. apply Hz. apply elem_of_loop_pairs. lia.
Qed.

Lemma Cfull_symmetric : symmetric Cind -> symmetric (m_Cfull r).
Proof using Hrun.
  intros Hsym.
  destruct plotReport_loop as (_ & Hsq & _ & Hnz & Hz).
  assert (Hup : forall i j, (i < j)%nat ->
            mget (m_Cfull r) i j = mget (m_Cfull r) j i).
  { intros i j Hij.
    destruct (decide (j < n)%nat) as [Hj|Hj].
    - destruct (is_zero Cind (i, j)) eqn:Ez.
      + destruct (Hz i j Hij Hj Ez) as (_ & _ & cor & _ & _ & _ & -> & ->).
        reflexivity.
      + destruct (Hnz i j Hij Hj Ez) as [-> ->]. apply Hsym.
    - rewrite !(mget_out_of_range n) by (try exact Hsq; lia). reflexivity. }
  intros i j. destruct (lt_eq_lt_dec i j) as [[Hij| ->]|Hij].
  - apply Hup, Hij.
  - reflexivity.
  - symmetry. apply Hup, Hij.
Qed.

Lemma Cfull_keeps_nonzero :
  symmetric Cind ->
  forall i j v, mget Cind i j = Ok v -> Qeq_bool v 0 = false ->
                mget (m_Cfull r) i j = Ok v.
Proof using Hrun.
  intros Hsym i j v Hv Hnz0.
  destruct plotReport_loop as (_ & _ & Hdiag & Hnz & _).
  destruct (stored_in_order_square _ _ _ _ plotReport_stored) as (_ & _ & Hsq).
  destruct (mget_Ok_range _ _ _ _ _ Hsq Hv) as [Hi Hj].
  destruct (lt_eq_lt_dec i j) as [[Hij| ->]|Hij].
  - destruct (Hnz i j Hij Hj) as [-> _]; [|exact Hv].
    unfold is_zero. simpl. fold Cind. rewrite Hv. exact Hnz0.
  - rewrite Hdiag. exact Hv.
  - destruct (Hnz j i Hij Hi) as [_ ->]; [|exact Hv].
    unfold is_zero. simpl. fold Cind. rewrite (Hsym j i), Hv. exact Hnz0.
Qed.

End Completed.

(** ** Counting the calls *)

Lemma length_filter_split {A : Type} (P : A -> bool) (l : list A) :
  (length (filter (fun x => P x = true) l)
   + length (filter (fun x => P x = false) l))%nat = length l.
Proof.
  induction l as [|x l IH]; [reflexivity|].
  rewrite !filter_cons. destruct (P x) eqn:E.
  - rewrite decide_True, decide_False by congruence. simpl. lia.
  - rewrite decide_False, decide_True by congruence. simpl. lia.
Qed.

Lemma take_at_total {A : Type} (a : list A) (idx : list nat) :
  (forall x, x ∈ idx -> (x < length a)%nat) -> exists bs, take_at a idx = Ok bs.
Proof.
  induction idx as [|x idx IH]; intros H.
  - exists []. reflexivity.
  - destruct (index_lt a x) as [b Hb]; [apply H; left|].
    destruct IH as [bs Hbs]; [intros y Hy; apply H; right; exact Hy|].
    exists (b :: bs). unfold take_at in *. simpl. rewrite Hb. simpl.
    rewrite Hbs. reflexivity.
Qed.

Lemma NoDup_fmap_key {A B : Type} (f : A -> B) (l : list A) x y :
  NoDup (f <$> l) -> x ∈ l -> y ∈ l -> f x = f y -> x = y.
Proof.
  intros Hnd Hx Hy Hxy.
  apply list_elem_of_lookup_1 in Hx as [i Hi], Hy as [j Hj].
  assert (i = j) as ->.
  { eapply (NoDup_lookup _ _ _ _ Hnd).
    - rewrite list_lookup_fmap, Hi. reflexivity.
    - rewrite list_lookup_fmap, Hj, Hxy. reflexivity. }
  congruence.
Qed.

Section Count.
Variables (rtable : list rrow) (ctable : list crow) (fam : list nat).
Variable s : by_time.
Hypothesis Hs : stored_in_order rtable ctable fam = Ok s.
Hypothesis Hmap : pair_map ctable.
Hypothesis Hnd : NoDup (o_idf s).

(** The ids of the members in catalog order. *)
Lemma catalog_ids :
  exists idcat, take_at (o_idf s) (o_catalogind s) = Ok idcat /\ NoDup idcat /\ length idcat = (length fam).
Proof using Hs Hnd.
  destruct (stored_in_order_Ok _ _ _ _ Hs) as (_ & Hp & _ & _ & _).
  destruct (stored_in_order_square _ _ _ _ Hs) as (_ & Hlidf & _).
  destruct (take_at_total (o_idf s) (o_catalogind s)) as [idcat Hidcat].
  { intros x Hx. rewrite Hp in Hx.
    apply elem_of_seq in Hx. rewrite Hlidf. lia. }
  exists idcat. split; [exact Hidcat|]. split.
  - apply NoDup_alt. intros i j x Hi Hj.
    assert (Hpnd : NoDup (o_catalogind s)).
    { rewrite Hp. apply NoDup_seq. }
    destruct (lookup_lt_is_Some_2 (o_catalogind s) i) as [pi Hpi].
    { rewrite <- (take_at_length _ _ _ Hidcat). eapply lookup_lt_Some, Hi. }
    destruct (lookup_lt_is_Some_2 (o_catalogind s) j) as [pj Hpj].
    { rewrite <- (take_at_length _ _ _ Hidcat). eapply lookup_lt_Some, Hj. }
    rewrite (take_at_lookup _ _ _ _ _ Hidcat Hpi) in Hi.
    rewrite (take_at_lookup _ _ _ _ _ Hidcat Hpj) in Hj.
    assert (pi = pj) as -> by exact (NoDup_lookup _ _ _ _ Hnd Hi Hj).
    exact (NoDup_lookup _ _ _ _ Hpnd Hpi Hpj).
  - rewrite (take_at_length _ _ _ Hidcat).
    rewrite Hp, length_seq. reflexivity.
Qed.

Variable idcat : list Z.
Hypothesis Hidcat : take_at (o_idf s) (o_catalogind s) = Ok idcat.
Hypothesis Hndcat : NoDup idcat.

Lemma position_catalog i a x :
  (o_catalogind s) !! i = Some a -> (o_idf s) !! a = Some x -> position idcat x = i.
Proof using Hidcat Hndcat.
  intros Hpi Ha. unfold position.
  rewrite (where_first_NoDup idcat x i Hndcat); [reflexivity|].
  rewrite (take_at_lookup _ _ _ _ _ Hidcat Hpi). exact Ha.
Qed.

Lemma position_inj x y :
  x ∈ idcat -> y ∈ idcat -> position idcat x = position idcat y -> x = y.
Proof using Type.
  intros Hx Hy. unfold position.
  destruct (where_first_elem idcat x Hx) as [i Hi].
  destruct (where_first_elem idcat y Hy) as [j Hj].
  rewrite Hi, Hj. intros ->.
  apply where_first_Ok in Hi, Hj. congruence.
Qed.

(** The nonzero cells above the diagonal are the cells of the rows
    stored with a nonzero coefficient. *)
Lemma nonzero_cells :
  filter (fun ij => is_zero (o_Cind s) ij = false) (loop_pairs (length fam))
  ≡ₚ cell_of idcat <$> stored_nonzero (o_idf s) ctable.
Proof using Hs Hmap Hnd Hidcat Hndcat.
  destruct (stored_in_order_Ok _ _ _ _ Hs) as (_ & Hp & _ & _ & C & HC & HCind).
  destruct (stored_in_order_square _ _ _ _ Hs) as (_ & Hlidf & Hsq).
  destruct (reorder_Ok _ _ _ HCind) as [_ Hcell].
  destruct (stored_Ok _ _ _ HC _ eq_refl) as (r1 & r2 & Hr1 & Hr2 & HsqC & HcellC).
  pose proof (pair_map_filter (fun r => id2 r ∈ o_idf s) ctable Hmap) as Hmap'.
  assert (Hin_cat : forall x, x ∈ (o_idf s) -> x ∈ idcat).
  { intros x Hx. apply list_elem_of_lookup_1 in Hx as [a Ha].
    assert (Hap : a ∈ (o_catalogind s)).
    { rewrite Hp. apply elem_of_seq.
      apply lookup_lt_Some in Ha. lia. }
    apply list_elem_of_lookup_1 in Hap as [i Hi].
    apply (list_elem_of_lookup_2 _ i).
    rewrite (take_at_lookup _ _ _ _ _ Hidcat Hi). exact Ha. }
  apply NoDup_Permutation.
  - apply NoDup_filter, NoDup_loop_pairs.
  - apply NoDup_fmap_2_strong.
    + intros r r' Hr Hr' Hcells.
      apply list_elem_of_filter in Hr as [(H1 & H2 & _) Hr].
      apply list_elem_of_filter in Hr' as [(H1' & H2' & _) Hr'].
      apply (NoDup_fmap_key pair_key ctable); try assumption; [apply Hmap|].
      apply pair_key_eq. unfold cell_of in Hcells.
      injection Hcells as Hmin Hmax.
      assert (Hcases :
        (position idcat (id1 r) = position idcat (id1 r') /\
         position idcat (id2 r) = position idcat (id2 r')) \/
        (position idcat (id1 r) = position idcat (id2 r') /\
         position idcat (id2 r) = position idcat (id1 r'))) by lia.
      destruct Hcases as [[E1 E2]|[E1 E2]]; [left|right];
        split; apply position_inj; auto.
    + apply NoDup_filter. eapply NoDup_fmap_1. apply Hmap.
  - intros [i j]. rewrite list_elem_of_filter, elem_of_loop_pairs, list_elem_of_fmap.
    split.
    + intros (Hnz & Hij & Hj).
      destruct (catalog_position _ _ i Hp ltac:(lia)) as (pi & Hpi & Hpin).
      destruct (catalog_position _ _ j Hp Hj) as (pj & Hpj & Hpjn).
      assert (Hne : pi <> pj).
      { intros ->. assert (NoDup (o_catalogind s)) as Hpnd by (rewrite Hp; apply NoDup_seq).
        pose proof (NoDup_lookup _ _ _ _ Hpnd Hpi Hpj). lia. }
      unfold is_zero in Hnz. simpl in Hnz.
      rewrite (Hcell i j pi pj Hpi Hpj) in Hnz.
      destruct (stored_cell _ _ _ _ Hr1 Hr2 Hmap' _ _ HcellC pi pj)
        as [(k & r & Hr & Hval & Hwhere)|Heye].
      * rewrite Hval in Hnz. exists r.
        assert (Hrt : r ∈ filter (fun r => id2 r ∈ (o_idf s)) ctable)
          by (eapply list_elem_of_lookup_2; exact Hr).
        apply list_elem_of_filter in Hrt as [Hid2 Hrt].
        destruct Hwhere as [[Ha Hb]|[Ha Hb]];
          destruct (row_at _ _ _ _ Hr1 Hr2 _ _ _ Ha Hb) as (r' & Hr' & H1 & H2);
          assert (r' = r) as -> by congruence;
          apply where_first_Ok in H1, H2.
        -- split.
           ++ unfold cell_of.
              rewrite (position_catalog i pi _ Hpi H1),
                      (position_catalog j pj _ Hpj H2).
              f_equal; lia.
           ++ apply list_elem_of_filter. split; [|exact Hrt].
              split; [eapply list_elem_of_lookup_2; exact H1|].
              split; [exact Hid2 | exact Hnz].
        -- split.
           ++ unfold cell_of.
              rewrite (position_catalog j pj _ Hpj H1),
                      (position_catalog i pi _ Hpi H2).
              f_equal; lia.
           ++ apply list_elem_of_filter. split; [|exact Hrt].
              split; [eapply list_elem_of_lookup_2; exact H1|].
              split; [exact Hid2 | exact Hnz].
      * exfalso. rewrite Heye in Hnz. rewrite Hlidf, mget_eye in Hnz by assumption.
        apply Nat.eqb_neq in Hne. rewrite Hne in Hnz. discriminate Hnz.
    + intros (r & Hcellr & Hr).
      apply list_elem_of_filter in Hr as [(Hid1 & Hid2 & Hnz) Hr].
      assert (Hrt : r ∈ filter (fun r => id2 r ∈ (o_idf s)) ctable).
      { apply list_elem_of_filter. split; assumption. }
      apply list_elem_of_lookup_1 in Hrt as [k Hk].
      destruct (stored_row _ _ _ _ Hr1 Hr2 Hmap' _ _ HcellC k r Hk)
        as (a & b & H1 & H2 & Hab & Hvab & Hvba).
      apply where_first_Ok in H1, H2.
      assert (Hpa : exists i', (o_catalogind s) !! i' = Some a /\ (i' < (length fam))%nat).
      { assert (Hap : a ∈ (o_catalogind s)).
        { rewrite Hp. apply elem_of_seq.
          apply lookup_lt_Some in H1. lia. }
        apply list_elem_of_lookup_1 in Hap as [i' Hi']. exists i'.
        split; [exact Hi'|]. apply lookup_lt_Some in Hi'.
        rewrite Hp, length_seq in Hi'. exact Hi'. }
      assert (Hpb : exists j', (o_catalogind s) !! j' = Some b /\ (j' < (length fam))%nat).
      { assert (Hbp : b ∈ (o_catalogind s)).
        { rewrite Hp. apply elem_of_seq.
          apply lookup_lt_Some in H2. lia. }
        apply list_elem_of_lookup_1 in Hbp as [j' Hj']. exists j'.
        split; [exact Hj'|]. apply lookup_lt_Some in Hj'.
        rewrite Hp, length_seq in Hj'. exact Hj'. }
      destruct Hpa as (i' & Hi' & Hi'n), Hpb as (j' & Hj' & Hj'n).
      assert (Hne : i' <> j') by (intros ->; congruence).
      unfold cell_of in Hcellr.
      rewrite (position_catalog i' a _ Hi' H1),
              (position_catalog j' b _ Hj' H2) in Hcellr.
      injection Hcellr as -> ->.
      split; [|lia].
      unfold is_zero. simpl.
      destruct (Nat.le_gt_cases i' j') as [Hle|Hgt].
      * rewrite Nat.min_l, Nat.max_r by lia.
        rewrite (Hcell i' j' a b Hi' Hj'), Hvab. exact Hnz.
      * rewrite Nat.min_r, Nat.max_l by lia.
        rewrite (Hcell j' i' b a Hj' Hi'), Hvba. exact Hnz.
Qed.

End Count.

(** ** When the matrix code returns *)

Lemma rmap_total {A B : Type} (f : A -> result B) (l : list A) :
  (forall a, a ∈ l -> exists b, f a = Ok b) -> exists bs, rmap f l = Ok bs.
Proof.
  induction l as [|a l IH]; intros H.
  - exists []. reflexivity.
  - destruct (H a) as [b Hb]; [left|].
    destruct IH as [bs Hbs]; [intros a' Ha'; apply H; right; exact Ha'|].
    exists (b :: bs). simpl. rewrite Hb. simpl. rewrite Hbs. reflexivity.
Qed.

Lemma scatter_total n r1 : forall (C : matrix) r2 vals,
  square n C ->
  Forall (fun x => (x < n)%nat) r1 -> Forall (fun y => (y < n)%nat) r2 ->
  exists C', scatter C r1 r2 vals = Ok C'.
Proof.
  induction r1 as [|x r1 IH]; intros C r2 vals Hsq H1 H2.
  - exists C. reflexivity.
  - destruct r2 as [|y r2]; [exists C; reflexivity|].
    destruct vals as [|v vals]; [exists C; reflexivity|].
    apply Forall_cons in H1 as [Hx H1]. apply Forall_cons in H2 as [Hy H2].
    destruct (mset_in_range n C x y v Hsq Hx Hy) as [C1 HC1].
    destruct (IH C1 r2 vals (mset_square _ _ _ _ _ _ Hsq HC1) H1 H2) as [C' HC'].
    exists C'. simpl. rewrite HC1. simpl. exact HC'.
Qed.

Lemma where_first_range idf (ids : list Z) (ps : list nat) :
  Forall2 (fun x p => where_first idf x = Ok p) ids ps ->
  Forall (fun p => (p < length idf)%nat) ps.
Proof.
  intros HF. apply Forall_forall. intros p Hp.
  apply list_elem_of_lookup_1 in Hp as [i Hi].
  destruct (Forall2_lookup_r _ _ _ _ _ HF Hi) as (x & _ & Hx).
  apply where_first_Ok in Hx. eapply lookup_lt_Some, Hx.
Qed.

(** The stored matrix is built as soon as every row of the table that
    ends in a member also starts in one. *)
Lemma stored_total idf ctable :
  (forall r, r ∈ ctable -> id2 r ∈ idf -> id1 r ∈ idf) ->
  exists C, stored idf ctable = Ok C.
Proof.
  intros Hclosed. unfold stored.
  set (ix := filter (fun r => id2 r ∈ idf) ctable).
  destruct (rmap_total (where_first idf) (id1 <$> ix)) as [r1 Hr1].
  { intros x Hx. apply list_elem_of_fmap in Hx as (r & -> & Hr).
    apply list_elem_of_filter in Hr as [Hid2 Hr].
    apply where_first_elem, Hclosed; assumption. }
  destruct (rmap_total (where_first idf) (id2 <$> ix)) as [r2 Hr2].
  { intros x Hx. apply list_elem_of_fmap in Hx as (r & -> & Hr).
    apply list_elem_of_filter in Hr as [Hid2 _].
    apply where_first_elem, Hid2. }
  rewrite Hr1, Hr2. simpl.
  pose proof (where_first_range _ _ _ (proj1 (rmap_Ok _ _ _) Hr1)) as Hlt1.
  pose proof (where_first_range _ _ _ (proj1 (rmap_Ok _ _ _) Hr2)) as Hlt2.
  destruct (scatter_total _ r1 (eye (length idf)) r2 (ccc <$> ix)
              (eye_square _) Hlt1 Hlt2) as [C1 HC1].
  rewrite HC1. simpl.
  apply (scatter_total (length idf)); try assumption.
  eapply scatter_square; [apply eye_square | exact HC1].
Qed.

Lemma reorder_total n (C : matrix) p :
  square n C -> Forall (fun x => (x < n)%nat) p ->
  exists Cind, reorder C p = Ok Cind.
Proof.
  intros Hsq Hp. unfold reorder.
  destruct (take_at_total C p) as [rows Hrows].
  { intros x Hx. rewrite Forall_forall in Hp. destruct Hsq as [-> _]. auto. }
  rewrite Hrows. simpl. apply rmap_total.
  intros row Hrow. apply take_at_total.
  intros x Hx.
  destruct (take_at_elem _ _ _ _ Hrows Hrow) as (k & _ & Hk).
  rewrite (square_row n C k row Hsq Hk).
  rewrite Forall_forall in Hp. auto.
Qed.

Section Returns.
Variable xcorr1x1 : nat -> nat -> result Q.
Variable famcat : list nat.
Hypothesis Hxcorr :
  forall a b, a ∈ famcat -> b ∈ famcat -> exists cor, xcorr1x1 a b = Ok cor.

Lemma fill_cell_total i j st :
  square (length famcat) (Cfull st) ->
  (i < length famcat)%nat -> (j < length famcat)%nat ->
  exists st', fill_cell xcorr1x1 famcat (i, j) st = Ok st' /\
              square (length famcat) (Cfull st').
Proof using Hxcorr.
  intros Hsq Hi Hj. unfold fill_cell.
  destruct (mget_in_range _ _ i j Hsq Hi Hj) as [c Hc]. rewrite Hc. simpl.
  destruct (Qeq_bool c 0); [|eauto].
  destruct (lookup_lt_is_Some_2 famcat i Hi) as [a Ha].
  destruct (lookup_lt_is_Some_2 famcat j Hj) as [b Hb].
  rewrite (proj2 (index_Ok _ _ _) Ha), (proj2 (index_Ok _ _ _) Hb). simpl.
  destruct (Hxcorr a b) as [cor Hcor];
    [eapply list_elem_of_lookup_2; eassumption..|].
  rewrite Hcor. simpl.
  destruct (mset_in_range _ (Cfull st) i j cor Hsq Hi Hj) as [C1 HC1].
  rewrite HC1. simpl.
  pose proof (mset_square _ _ _ _ _ _ Hsq HC1) as Hsq1.
  destruct (mset_in_range _ C1 j i cor Hsq1 Hj Hi) as [C2 HC2].
  rewrite HC2. simpl. eexists. split; [reflexivity|]. simpl.
  exact (mset_square _ _ _ _ _ _ Hsq1 HC2).
Qed.

Lemma fill_loop_total l : forall st,
  square (length famcat) (Cfull st) ->
  (forall i j, (i, j) ∈ l -> (i < length famcat)%nat /\ (j < length famcat)%nat) ->
  exists st', rfor l (fill_cell xcorr1x1 famcat) st = Ok st'.
Proof using Hxcorr.
  induction l as [|[i j] l IH]; intros st Hsq Hl.
  - exists st. reflexivity.
  - destruct (Hl i j) as [Hi Hj]; [left|].
    destruct (fill_cell_total i j st Hsq Hi Hj) as (st1 & Hst1 & Hsq1).
    destruct (IH st1 Hsq1) as [st' Hst'].
    { intros a b Hab. apply Hl. right. exact Hab. }
    exists st'. cbn [rfor]. rewrite Hst1. exact Hst'.
Qed.

End Returns.

(** The matrix code returns for a family that is not empty, whose
    members are rows of the repeater table, when every row of the
    correlation table that ends in a member also starts in one and the
    correlation routine does not raise for two members. *)
Lemma plotReport_returns xcorr1x1 rtable ctable fam :
  fam <> [] ->
  Forall (fun k => (k < length rtable)%nat) fam ->
  (forall idf, take_at (id <$> rtable) fam = Ok idf ->
     forall r, r ∈ ctable -> id2 r ∈ idf -> id1 r ∈ idf) ->
  (forall a b, a ∈ fam -> b ∈ fam -> exists cor, xcorr1x1 a b = Ok cor) ->
  exists r, plotReport xcorr1x1 rtable ctable fam = Ok r.
Proof.
  intros Hne Hrows Hclosed Hxcorr.
  rewrite Forall_forall in Hrows.
  unfold plotReport, stored_in_order.
  destruct (take_at_total (startTimeMPL <$> rtable) fam) as [times Htimes].
  { intros k Hk. rewrite length_fmap. auto. }
  rewrite Htimes. simpl.
  pose proof (argsort_Permutation times) as Hp.
  rewrite (take_at_length _ _ _ Htimes) in Hp.
  set (p := argsort times) in *.
  assert (Hplt : Forall (fun x => (x < length fam)%nat) p).
  { apply Forall_forall. intros x Hx. rewrite Hp in Hx.
    apply elem_of_seq in Hx. lia. }
  destruct (take_at_total fam p) as [famcat Hfamcat].
  { rewrite Forall_forall in Hplt. exact Hplt. }
  rewrite Hfamcat. simpl.
  assert (Hlen : (0 < length fam)%nat) by (destruct fam; [contradiction | simpl; lia]).
  destruct (catalog_position p (length fam) 0 Hp Hlen) as (first & Hfirst & Hflt).
  rewrite (proj2 (index_Ok _ _ _) Hfirst). simpl.
  destruct (index_lt fam first Hflt) as [minind Hminind].
  rewrite Hminind. simpl.
  destruct (take_at_total (id <$> rtable) fam) as [idf Hidf].
  { intros k Hk. rewrite length_fmap. auto. }
  rewrite Hidf. simpl.
  destruct (stored_total idf ctable (Hclosed idf Hidf)) as [C HC].
  rewrite HC. simpl.
  destruct (stored_Ok _ _ _ HC _ eq_refl) as (_ & _ & _ & _ & HsqC & _).
  rewrite (take_at_length _ _ _ Hidf) in HsqC.
  destruct (reorder_total _ C p HsqC Hplt) as [Cind HCind].
  rewrite HCind. simpl.
  destruct (reorder_Ok _ _ _ HCind) as [HsqCind _].
  assert (Hlfc : length famcat = length p) by exact (take_at_length _ _ _ Hfamcat).
  unfold complete.
  destruct (fill_loop_total xcorr1x1 famcat) with
    (l := loop_pairs (length famcat)) (st := Fill Cind []) as [st Hst].
  - intros a b Ha Hb.
    destruct (take_at_elem _ _ _ _ Hfamcat Ha) as (ka & _ & Hka).
    destruct (take_at_elem _ _ _ _ Hfamcat Hb) as (kb & _ & Hkb).
    apply Hxcorr; eapply list_elem_of_lookup_2; eassumption.
  - simpl. rewrite Hlfc. exact HsqCind.
  - intros i j Hij. apply elem_of_loop_pairs in Hij. lia.
  - rewrite Hst. simpl. eauto.
Qed.

(** ** Symmetry, kept values and the number of calls *)

(** C4: every completed matrix, the stored one in catalog order as well
    as the full one, is symmetric and has a diagonal of ones, for a
    correlation table that is a map on unordered pairs of ids. *)
Theorem matrices_symmetric_unit_diagonal xcorr1x1 rtable ctable fam r :
  plotReport xcorr1x1 rtable ctable fam = Ok r ->
  pair_map ctable ->
  square (length fam) (o_Cind (m_stored r)) /\
  symmetric (o_Cind (m_stored r)) /\
  unit_diagonal (length fam) (o_Cind (m_stored r)) /\
  square (length fam) (m_Cfull r) /\
  symmetric (m_Cfull r) /\
  unit_diagonal (length fam) (m_Cfull r).
Proof.
  intros Hrun Hmap.
  pose proof (plotReport_stored _ _ _ _ _ Hrun) as Hs.
  destruct (stored_in_order_square _ _ _ _ Hs) as (_ & _ & Hsq).
  destruct (stored_in_order_symmetric _ _ _ _ Hs Hmap) as [Hsym Hdiag].
  destruct (plotReport_loop _ _ _ _ _ Hrun) as (_ & Hsq' & Hd & _ & _).
  split; [exact Hsq|]. split; [exact Hsym|]. split; [exact Hdiag|].
  split; [exact Hsq'|]. split.
  - exact (Cfull_symmetric _ _ _ _ _ Hrun Hsym).
  - intros i Hi. rewrite Hd. exact (Hdiag i Hi).
Qed.

Lemma matrices_symmetric_unit_diagonal_witness :
  exists r,
    plotReport xcorr_half scenario_rtable scenario_ctable scenario_fam = Ok r /\
    m_Cfull r = [[1; 9 # 10; 1 # 2]; [9 # 10; 1; 1 # 2]; [1 # 2; 1 # 2; 1]]%Q /\
    symmetric (o_Cind (m_stored r)) /\ symmetric (m_Cfull r) /\
    unit_diagonal 3 (m_Cfull r).
Proof.
  eexists. split; [vm_compute; reflexivity|]. split; [reflexivity|].
  assert (Hmap : pair_map scenario_ctable).
  { split; [repeat constructor; discriminate|].
    simpl. apply NoDup_singleton. }
  pose proof (matrices_symmetric_unit_diagonal xcorr_half scenario_rtable
                scenario_ctable scenario_fam _ eq_refl Hmap) as H.
  split; [apply H|]. split; apply H.
Defined.

Lemma scenario_pair_map : pair_map scenario_ctable.
Proof.
  split; [repeat constructor; discriminate|].
  simpl. apply NoDup_singleton.
Qed.

(** C9: completion only fills cells that are zero in the stored matrix;
    wherever the stored matrix holds a value other than zero, the full
    matrix holds the same value. *)
Theorem completion_keeps_stored_values xcorr1x1 rtable ctable fam r :
  plotReport xcorr1x1 rtable ctable fam = Ok r ->
  pair_map ctable ->
  forall i j v,
    mget (o_Cind (m_stored r)) i j = Ok v -> ~ (v == 0)%Q ->
    mget (m_Cfull r) i j = Ok v.
Proof.
  intros Hrun Hmap i j v Hv Hnz.
  pose proof (plotReport_stored _ _ _ _ _ Hrun) as Hs.
  destruct (stored_in_order_symmetric _ _ _ _ Hs Hmap) as [Hsym _].
  apply (Cfull_keeps_nonzero _ _ _ _ _ Hrun Hsym i j v Hv).
  destruct (Qeq_bool v 0) eqn:E; [|reflexivity].
  exfalso. apply Hnz, Qeq_bool_iff, E.
Qed.

Lemma completion_keeps_stored_values_witness :
  exists r,
    plotReport xcorr_half scenario_rtable scenario_ctable scenario_fam = Ok r /\
    mget (o_Cind (m_stored r)) 1 0 = Ok (9 # 10) /\
    mget (m_Cfull r) 1 0 = Ok (9 # 10).
Proof.
  eexists. split; [vm_compute; reflexivity|]. split; [reflexivity|].
  apply (completion_keeps_stored_values xcorr_half scenario_rtable
           scenario_ctable scenario_fam _ eq_refl scenario_pair_map 1%nat 0%nat).
  - reflexivity.
  - intros H. vm_compute in H. discriminate H.
Defined.

(** C3, as stated, fails: with the members 1 and 2 and a table that holds
    the pair (1, 2) with the coefficient 0, all pairs of members are in
    the table (k = C(2,2) = 1), yet the comparator is called, for the pair
    (1, 2) itself. *)
Lemma comparator_calls_counterexample :
  exists r,
    plotReport xcorr_half [RRow 1 10; RRow 2 20] [CRow 1 2 0] [0; 1]%nat = Ok r /\
    pair_map [CRow 1 2 0] /\
    o_idf (m_stored r) = [1; 2]%Z /\
    length (stored_pairs (o_idf (m_stored r)) [CRow 1 2 0]) = 1%nat /\
    m_calls r = [(0, 1)]%nat /\
    call_ids [RRow 1 10; RRow 2 20] (o_famcat (m_stored r)) (0, 1)%nat
      = Some (1, 2)%Z /\
    length (m_calls r)
      <> (2 * (2 - 1) / 2
          - length (stored_pairs (o_idf (m_stored r)) [CRow 1 2 0]))%nat.
Proof.
  eexists. split; [vm_compute; reflexivity|].
  split; [split; [repeat constructor; discriminate | simpl; apply NoDup_singleton]|].
  split; [reflexivity|]. split; [reflexivity|]. split; [reflexivity|].
  split; [reflexivity|]. vm_compute. discriminate.
Qed.

(** C3 (amended): the comparator is called exactly once for every pair
    [i < j] whose cell in the stored matrix is zero, in loop order, and
    for no other pair; for a table that is a map on unordered pairs and
    members with different ids that makes [C(n,2) - k] calls, where [k]
    counts the pairs of members stored with a coefficient other than zero.
    In the scenario with the members 1, 2, 3 and the pair (1, 2) stored as
    0.9 the calls are those for (1, 3) and (2, 3). *)
Theorem comparator_called_once_per_zero_cell :
  (forall xcorr1x1 rtable ctable fam r,
     plotReport xcorr1x1 rtable ctable fam = Ok r ->
     m_calls r = filter (fun ij => is_zero (o_Cind (m_stored r)) ij = true)
                   (loop_pairs (length fam)) /\
     NoDup (m_calls r) /\
     (pair_map ctable -> NoDup (o_idf (m_stored r)) ->
      length (m_calls r)
      = (length fam * (length fam - 1) / 2
         - length (stored_nonzero (o_idf (m_stored r)) ctable))%nat)) /\
  (forall xcorr1x1 r,
     plotReport xcorr1x1 scenario_rtable scenario_ctable scenario_fam = Ok r ->
     call_ids scenario_rtable (o_famcat (m_stored r)) <$> m_calls r
     = [Some (1, 3); Some (2, 3)]%Z).
Proof.
  split.
  - intros xcorr1x1 rtable ctable fam r Hrun.
    destruct (plotReport_loop _ _ _ _ _ Hrun) as (Hcalls & _).
    split; [exact Hcalls|]. split.
    + rewrite Hcalls. apply NoDup_filter, NoDup_loop_pairs.
    + intros Hmap Hnd.
      pose proof (plotReport_stored _ _ _ _ _ Hrun) as Hs.
      destruct (catalog_ids _ _ _ _ Hs Hnd) as (idcat & Hidcat & Hndcat & _).
      pose proof (nonzero_cells _ _ _ _ Hs Hmap Hnd idcat Hidcat Hndcat) as Hperm.
      apply Permutation_length in Hperm. rewrite length_fmap in Hperm.
      pose proof (length_filter_split (is_zero (o_Cind (m_stored r)))
                    (loop_pairs (length fam))) as Hsplit.
      rewrite length_loop_pairs in Hsplit.
      rewrite Hcalls. lia.
  - intros xcorr1x1 r Hrun.
    destruct (plotReport_loop _ _ _ _ _ Hrun) as (Hcalls & _).
    pose proof (plotReport_stored _ _ _ _ _ Hrun) as Hs.
    rewrite Hcalls. clear Hcalls Hrun.
    destruct (m_stored r) as [famcat idf catalogind Cind].
    vm_compute in Hs. injection Hs as <- <- <- <-. reflexivity.
Qed.

Lemma comparator_called_once_per_zero_cell_witness :
  exists r,
    plotReport xcorr_half scenario_rtable scenario_ctable scenario_fam = Ok r /\
    m_calls r = [(0, 2); (1, 2)]%nat /\
    NoDup (m_calls r) /\
    length (m_calls r)
    = (3 * (3 - 1) / 2
       - length (stored_nonzero (o_idf (m_stored r)) scenario_ctable))%nat /\
    call_ids scenario_rtable (o_famcat (m_stored r)) <$> m_calls r
    = [Some (1, 3); Some (2, 3)]%Z.
Proof.
  eexists. split; [vm_compute; reflexivity|]. split; [reflexivity|].
  destruct comparator_called_once_per_zero_cell as [Hgen Hscen].
  destruct (Hgen xcorr_half scenario_rtable scenario_ctable scenario_fam _ eq_refl)
    as (_ & Hnd & Hcount).
  split; [exact Hnd|]. split.
  - apply Hcount; [exact scenario_pair_map|].
    simpl. compute_done.
  - exact (Hscen xcorr_half _ eq_refl).
Defined.

(** C5, as stated, fails: when the correlation routine raises for one
    pair (here the first pair visited; every other pair would succeed),
    [plotReport] raises too and returns no matrix and no list of pairs. *)
Lemma comparison_failure_counterexample :
  xcorr_fails_01 0 2 = Ok (1 # 2) /\
  xcorr_fails_01 0 1 = Raise ComparisonError /\
  plotReport xcorr_fails_01 scenario_rtable [] scenario_fam
  = Raise ComparisonError /\
  ~ (exists r, plotReport xcorr_fails_01 scenario_rtable [] scenario_fam = Ok r).
Proof.
  split; [reflexivity|]. split; [reflexivity|]. split; [reflexivity|].
  intros [r Hr]. vm_compute in Hr. discriminate Hr.
Qed.

(** C5 (amended): if the correlation routine raises for a pair whose cell
    in the stored matrix is zero, the completion aborts: [plotReport]
    raises, and returns neither a full matrix nor a list of failed
    pairs. *)
Theorem comparison_failure_aborts xcorr1x1 rtable ctable fam s i j a b e :
  stored_in_order rtable ctable fam = Ok s ->
  (i < j)%nat -> (j < length fam)%nat ->
  is_zero (o_Cind s) (i, j) = true ->
  o_famcat s !! i = Some a -> o_famcat s !! j = Some b ->
  xcorr1x1 a b = Raise e ->
  exists e', plotReport xcorr1x1 rtable ctable fam = Raise e'.
Proof.
  intros Hs Hij Hj Hz Ha Hb He.
  destruct (plotReport xcorr1x1 rtable ctable fam) as [r|e'] eqn:Hrun;
    [exfalso | exists e'; reflexivity].
  pose proof (plotReport_stored _ _ _ _ _ Hrun) as Hs'.
  rewrite Hs in Hs'. injection Hs' as ->.
  destruct (plotReport_loop _ _ _ _ _ Hrun) as (_ & _ & _ & _ & Hzero).
  destruct (Hzero i j Hij Hj Hz) as (a' & b' & cor & Ha' & Hb' & Hcor & _).
  congruence.
Qed.

Lemma comparison_failure_aborts_witness :
  exists e', plotReport xcorr_fails_01 scenario_rtable [] scenario_fam = Raise e'.
Proof.
  eapply (comparison_failure_aborts xcorr_fails_01 scenario_rtable []
            scenario_fam _ 0%nat 1%nat 0%nat 1%nat ComparisonError).
  - vm_compute. reflexivity.
  - lia.
  - simpl. lia.
  - reflexivity.
  - reflexivity.
  - reflexivity.
  - reflexivity.
Defined.

End ReportFacts.

(** ** Inputs that are not checked *)

Module InputFacts.
Import Clip Occurrence Report.
Local Open Scope Q_scope.

(** C8, as stated, fails: with the inverted window from 120 down to 100
    nothing is rejected.  [generateLines] returns a line with both arrows,
    and the timeline of the example is drawn. *)
Lemma degenerate_inputs_counterexample :
  100 < 120 /\
  generateLines 120 100 1 101 49 = Lines true true true 119 101 /\
  example_run 120 100 false true
  = Ok (Drawing 1 [(0, Line 119 101 0); (0, LeftArrow 118 119 0);
                   (0, RightArrow 102 101 0); (0, Label 101 0 4)]%nat) /\
  ~ (exists e, example_run 120 100 false true = Raise e).
Proof.
  split; [reflexivity|]. split; [reflexivity|]. split; [reflexivity|].
  intros [e He]. vm_compute in He. discriminate He.
Qed.

(** C8 (amended): the code does not validate its inputs.  An empty member
    list raises where it is first used: in [plotReport] an [IndexError]
    before any cell of the matrix is computed and before any call of the
    comparator, in [plotFamilyOccurrence] a [ValueError] when the loop
    reaches the family.  An inverted window is not rejected: for an
    interval that starts before [min] and ends at or after [max],
    [generateLines] returns a line from [min - padding] to
    [max + padding] with both arrows. *)
Theorem degenerate_inputs_not_validated :
  (forall xcorr1x1 rtable ctable,
     plotReport xcorr1x1 rtable ctable [] = Raise IndexError) /\
  (forall np_arange np_histogram dt famstarts longevity fi mintime maxtime
          minplot binsize barpad colorby_ opt useBokeh ax clustNum st,
     family np_arange np_histogram dt famstarts longevity fi mintime maxtime
       minplot binsize barpad colorby_ opt useBokeh ax (clustNum, []) st
     = Raise ValueError) /\
  (forall tmin tmax pad start len,
     tmax < tmin -> start < tmin -> tmax <= start + len ->
     generateLines tmin tmax pad start len
     = Lines true true true (tmin - pad) (tmax + pad)).
Proof.
  split; [|split].
  - intros xcorr1x1 rtable ctable. reflexivity.
  - intros. reflexivity.
  - intros tmin tmax pad start len Hinv Hstart Hend.
    unfold generateLines.
    split_cmp; simpl; try reflexivity; exfalso; lra.
Qed.

Lemma degenerate_inputs_not_validated_witness :
  generateLines 120 100 1 101 49 = Lines true true true (120 - 1) (100 + 1).
Proof.
  apply (proj2 (proj2 degenerate_inputs_not_validated) 120 100 1 101 49); lra.
Defined.

End InputFacts.

(** ** [generateLines]: when a line is drawn, and its arrows *)

Module ClipMore.
Import Clip.
Local Open Scope Q_scope.

(** X1: for a window with [mintime <= maxtime] and a family that does not
    end before it starts, a line is drawn exactly when the family ends at
    or after [mintime] and either starts before [maxtime] or ends at or
    before it. *)
Theorem generateLines_draws_iff tmin tmax pad start len :
  tmin <= tmax -> 0 <= len ->
  (add_line (generateLines tmin tmax pad start len) = true
   <-> tmin <= start + len /\ (start < tmax \/ start + len <= tmax)).
Proof.
  intros Hw Hl. unfold generateLines.
  split_cmp; simpl; split; intros H; try reflexivity; try discriminate H;
    try (split; [lra | (left; lra) || (right; lra)]);
    exfalso; destruct H as [H1 [H2|H2]]; lra.
Qed.

Lemma generateLines_draws_iff_witness :
  add_line (generateLines 100 200 1 200 0) = true
  <-> 100 <= 200 + 0 /\ (200 < 200 \/ 200 + 0 <= 200).
Proof.
  apply (generateLines_draws_iff 100 200 1 200 0); lra.
Defined.

(** X2: under the same conditions the left arrow is set exactly when the
    family starts before [mintime] and ends at or after it, and the right
    arrow exactly when it starts before [maxtime] and ends after it. *)
Theorem generateLines_arrows_iff tmin tmax pad start len :
  tmin <= tmax -> 0 <= len ->
  (add_larrow (generateLines tmin tmax pad start len) = true
   <-> start < tmin /\ tmin <= start + len) /\
  (add_rarrow (generateLines tmin tmax pad start len) = true
   <-> start < tmax /\ tmax < start + len).
Proof.
  intros Hw Hl. unfold generateLines.
  split_cmp; simpl; split; split; intros H;
    try reflexivity; try discriminate H; try (split; lra);
    exfalso; destruct H as [H1 H2]; lra.
Qed.

Lemma generateLines_arrows_iff_witness :
  (add_larrow (generateLines 100 200 1 50 200) = true
   <-> 50 < 100 /\ 100 <= 50 + 200) /\
  (add_rarrow (generateLines 100 200 1 50 200) = true
   <-> 50 < 200 /\ 200 < 50 + 200).
Proof.
  apply (generateLines_arrows_iff 100 200 1 50 200); lra.
Defined.

(** X3: a line that is drawn runs from left to right; an end without an
    arrow is the family's own start or end, an end with an arrow lies
    [barpad] outside the window. *)
Theorem generateLines_ends tmin tmax pad start len :
  tmin <= tmax -> 0 <= pad -> 0 <= len ->
  add_line (generateLines tmin tmax pad start len) = true ->
  x1 (generateLines tmin tmax pad start len)
    <= x2 (generateLines tmin tmax pad start len) /\
  x1 (generateLines tmin tmax pad start len)
    = (if add_larrow (generateLines tmin tmax pad start len)
       then tmin - pad else start) /\
  x2 (generateLines tmin tmax pad start len)
    = (if add_rarrow (generateLines tmin tmax pad start len)
       then tmax + pad else start + len).
Proof.
  intros Hw Hp Hl. unfold generateLines.
  split_cmp; simpl; intros H; try discriminate H;
    (split; [lra | split; reflexivity]).
Qed.

Lemma generateLines_ends_witness :
  x1 (generateLines 100 200 1 150 100) <= x2 (generateLines 100 200 1 150 100) /\
  x1 (generateLines 100 200 1 150 100)
    = (if add_larrow (generateLines 100 200 1 150 100) then 100 - 1 else 150) /\
  x2 (generateLines 100 200 1 150 100)
    = (if add_rarrow (generateLines 100 200 1 150 100) then 200 + 1 else 150 + 100).
Proof.
  apply (generateLines_ends 100 200 1 150 100); try lra. reflexivity.
Defined.

End ClipMore.

(** ** [plotLongevity] *)

Module LongevityFacts.
Import Clip Longevity.
Local Open Scope Q_scope.

(** A loop that raises does so in one of its passes, and a loop whose
    passes all return returns. *)
Lemma rfor_Raise {A S : Type} (body : A -> S -> result S) (l : list A) :
  forall s e, rfor l body s = Raise e ->
  exists a s', a ∈ l /\ body a s' = Raise e.
Proof.
  induction l as [|a l IH]; intros s e H; [discriminate H|].
  cbn [rfor] in H. destruct (body a s) as [s1|e1] eqn:Ea.
  - destruct (IH s1 e H) as (b & s' & Hb & Hraise).
    exists b, s'. split; [right; exact Hb | exact Hraise].
  - injection H as ->. exists a, s. split; [left | exact Ea].
Qed.

Lemma rfor_returns {A S : Type} (body : A -> S -> result S) (l : list A) :
  (forall a s, a ∈ l -> exists s', body a s = Ok s') ->
  forall s, exists s', rfor l body s = Ok s'.
Proof.
  induction l as [|a l IH]; intros Hall s; [exists s; reflexivity|].
  destruct (Hall a s) as [s1 Hs1]; [left|].
  destruct (IH (fun b t Hb => Hall b t (list_elem_of_further _ _ _ Hb)) s1)
    as [s' Hs'].
  exists s'. cbn [rfor]. rewrite Hs1. exact Hs'.
Qed.

Lemma rfor_pass_Ok {A S : Type} (body : A -> S -> result S) (l : list A) :
  forall s out, rfor l body s = Ok out ->
  forall a, a ∈ l -> exists t t', body a t = Ok t'.
Proof.
  induction l as [|b l IH]; intros s out H a Ha.
  - apply not_elem_of_nil in Ha. contradiction.
  - cbn [rfor] in H. apply bind_Ok in H as (s1 & Hb & H).
    apply elem_of_cons in Ha as [->|Ha].
    + exists s, s1. exact Hb.
    + exact (IH s1 out H a Ha).
Qed.

(** The window test of [generateLines] for a family that runs past
    [maxtime]. *)
Lemma overflow_line tmin tmax pad start len :
  tmin <= tmax -> start < tmax -> tmax < start + len ->
  add_line (generateLines tmin tmax pad start len) = true /\
  add_rarrow (generateLines tmin tmax pad start len) = true.
Proof.
  intros Hw H1 H2. unfold generateLines.
  split_cmp; simpl; split; try reflexivity; exfalso; lra.
Qed.

Lemma rarrow_overflow tmin tmax pad start len :
  tmin <= tmax -> 0 <= len ->
  add_rarrow (generateLines tmin tmax pad start len) = true ->
  start < tmax /\ tmax < start + len.
Proof.
  intros Hw Hl. unfold generateLines.
  split_cmp; simpl; intros H; try discriminate H; split; lra.
Qed.

Lemma line_in_window tmin tmax pad start len :
  tmin <= tmax -> 0 <= pad -> 0 <= len ->
  add_line (generateLines tmin tmax pad start len) = true ->
  tmin - pad <= x1 (generateLines tmin tmax pad start len) /\
  x1 (generateLines tmin tmax pad start len)
    <= x2 (generateLines tmin tmax pad start len) /\
  x2 (generateLines tmin tmax pad start len) <= tmax + pad.
Proof.
  intros Hw Hp Hl. unfold generateLines.
  split_cmp; simpl; intros H; try discriminate H;
    (split; [lra | split; lra]).
Qed.

Lemma line_iff tmin tmax pad start len :
  tmin <= tmax -> 0 <= len ->
  (add_line (generateLines tmin tmax pad start len) = true
   <-> tmin <= start + len /\ (start < tmax \/ start + len <= tmax)).
Proof.
  intros Hw Hl. unfold generateLines.
  split_cmp; simpl; split; intros H; try reflexivity; try discriminate H;
    try (split; [lra | (left; lra) || (right; lra)]);
    exfalso; destruct H as [H1 [H2|H2]]; lra.
Qed.

Section Loop.
Variables (alltrigs famstarts longevity : list Q).
Variables (mintime maxtime barpad : Q).
Variables (useBokeh ax : bool).

(** The marks of one family: none without a line; with a line, the line
    first, and nothing but [AttributeError] can be raised. *)
Lemma marks_Ok l famstart longev new :
  marks mintime maxtime barpad useBokeh ax l famstart longev = Ok new ->
  (add_line l = false /\ new = []) \/
  (add_line l = true /\ (add_rarrow l = true -> ax = true) /\
   exists rest, new = Line (x1 l) (x2 l) longev :: rest /\
                forall a b y, Line a b y ∉ rest).
Proof.
  unfold marks. destruct (add_line l); [|intros [= <-]; left; auto].
  intros H. right. apply bind_Ok in H as (rarrow & Hr & [= <-]).
  split; [reflexivity|]. split.
  { intros Er. rewrite Er in Hr. destruct ax; [reflexivity | discriminate Hr]. }
  eexists. split; [reflexivity|].
  intros a b y Hin. apply elem_of_app in Hin as [Hin|Hin].
  - destruct (add_larrow l); [|apply not_elem_of_nil in Hin; exact Hin].
    destruct useBokeh; apply list_elem_of_singleton in Hin; discriminate Hin.
  - destruct (add_rarrow l).
    + destruct ax; [|discriminate Hr]. injection Hr as <-.
      apply list_elem_of_singleton in Hin. discriminate Hin.
    + injection Hr as <-. apply not_elem_of_nil in Hin. exact Hin.
Qed.

Lemma marks_Raise l famstart longev e :
  marks mintime maxtime barpad useBokeh ax l famstart longev = Raise e ->
  e = AttributeError /\ add_line l = true /\ add_rarrow l = true /\ ax = false.
Proof.
  unfold marks. destruct (add_line l); [|discriminate].
  destruct (add_rarrow l); [|discriminate].
  destruct ax; [discriminate|]. intros [= <-]. auto.
Qed.

(** What a pass adds, when it returns. *)
Lemma family_Ok n drawn drawn' :
  family famstarts longevity mintime maxtime barpad useBokeh ax n drawn
  = Ok drawn' ->
  exists famstart longev new,
    famstarts !! n = Some famstart /\ longevity !! n = Some longev /\
    marks mintime maxtime barpad useBokeh ax
      (generateLines mintime maxtime barpad famstart longev) famstart longev
    = Ok new /\
    drawn' = drawn ++ (pair n <$> new).
Proof.
  unfold family. intros H.
  apply bind_Ok in H as (famstart & Hs & H).
  apply bind_Ok in H as (longev & Hl & H).
  apply bind_Ok in H as (new & Hnew & H).
  injection H as <-. apply index_Ok in Hs, Hl.
  exists famstart, longev, new. auto.
Qed.

(** The marks of the loop over the families [l]: those there before, and
    for every family of [l] the marks of its pass. *)
Lemma loop_marks l : forall drawn out,
  rfor l (family famstarts longevity mintime maxtime barpad useBokeh ax) drawn
  = Ok out ->
  forall n m,
    (n, m) ∈ out <->
    (n, m) ∈ drawn \/
    (n ∈ l /\
     exists famstart longev new,
       famstarts !! n = Some famstart /\ longevity !! n = Some longev /\
       marks mintime maxtime barpad useBokeh ax
         (generateLines mintime maxtime barpad famstart longev) famstart longev
       = Ok new /\
       m ∈ new).
Proof.
  induction l as [|k l IH]; intros drawn out Hrun n m.
  - simpl in Hrun. injection Hrun as <-. split; [auto|].
    intros [H|[H _]]; [exact H|]. apply not_elem_of_nil in H. contradiction.
  - cbn [rfor] in Hrun. apply bind_Ok in Hrun as (drawn1 & Hk & Hrun).
    rewrite (IH drawn1 out Hrun n m).
    destruct (family_Ok k drawn drawn1 Hk)
      as (famstart & longev & new & Hs & Hl & Hnew & ->).
    rewrite elem_of_app, list_elem_of_fmap. split.
    + intros [[H|(m' & Heq & Hm')]|(Hn & H)].
      * left. exact H.
      * injection Heq as -> ->. right. split; [left|].
        exists famstart, longev, new. auto.
      * right. split; [right; exact Hn | exact H].
    + intros [H|(Hn & famstart' & longev' & new' & Hs' & Hl' & Hnew' & Hm)].
      * left. left. exact H.
      * apply elem_of_cons in Hn as [->|Hn].
        -- left. right. exists m. split; [reflexivity|].
           congruence.
        -- right. split; [exact Hn|].
           exists famstart', longev', new'. auto.
Qed.

(** The marks of a run that returns. *)
Lemma plotLongevity_marks out :
  plotLongevity alltrigs famstarts longevity mintime maxtime barpad useBokeh ax
  = Ok out ->
  forall n m,
    (n, m) ∈ out <->
    exists famstart longev new,
      famstarts !! n = Some famstart /\ longevity !! n = Some longev /\
      marks mintime maxtime barpad useBokeh ax
        (generateLines mintime maxtime barpad famstart longev) famstart longev
      = Ok new /\
      m ∈ new.
Proof.
  unfold plotLongevity. intros Hrun n m.
  destruct (useBokeh && _); [discriminate Hrun|].
  destruct (negb useBokeh && negb ax); [discriminate Hrun|].
  rewrite (loop_marks _ _ _ Hrun n m). split.
  - intros [H|[_ H]]; [apply not_elem_of_nil in H; contradiction | exact H].
  - intros (famstart & longev & new & Hs & Hl & H). right. split.
    + apply elem_of_seq. apply lookup_lt_Some in Hs. lia.
    + exists famstart, longev, new. auto.
Qed.

End Loop.

(** X4: every line that [plotLongevity] draws runs from left to right
    inside the window widened by [barpad] on both sides, at the height of
    the longevity of its family, for a window with [mintime <= maxtime],
    [barpad >= 0] and longevities that are not negative. *)
Theorem plotLongevity_lines_in_window
    alltrigs famstarts longevity mintime maxtime barpad useBokeh ax out :
  plotLongevity alltrigs famstarts longevity mintime maxtime barpad useBokeh ax
  = Ok out ->
  mintime <= maxtime -> 0 <= barpad ->
  (forall k v, longevity !! k = Some v -> 0 <= v) ->
  forall n a b y,
    (n, Line a b y) ∈ out ->
    longevity !! n = Some y /\
    mintime - barpad <= a /\ a <= b /\ b <= maxtime + barpad.
Proof.
  intros Hrun Hw Hp Hlen n a b y Hin.
  apply (plotLongevity_marks _ _ _ _ _ _ _ _ _ Hrun) in Hin
    as (famstart & longev & new & Hs & Hl & Hnew & Hm).
  pose proof (Hlen n longev Hl) as Hlongev.
  apply marks_Ok in Hnew as [[_ ->]|(Eline & _ & rest & -> & Hrest)].
  { apply not_elem_of_nil in Hm. contradiction. }
  apply elem_of_cons in Hm as [Hm|Hm]; [|apply Hrest in Hm; contradiction].
  injection Hm as -> -> ->. split; [exact Hl|].
  exact (line_in_window _ _ _ _ _ Hw Hp Hlongev Eline).
Qed.

Lemma plotLongevity_lines_in_window_witness :
  [10; 30; 70] !! 2%nat = Some 70 /\
  100 - 1 <= 99 /\ 99 <= 120 /\ 120 <= 200 + 1.
Proof.
  eapply (plotLongevity_lines_in_window
            [100; 200] [150; 100; 50] [10; 30; 70] 100 200 1 true false).
  - vm_compute. reflexivity.
  - lra.
  - lra.
  - intros [|[|[|k]]] v; simpl; intros [= <-]; lra.
  - do 2 apply list_elem_of_further. apply list_elem_of_here.
Defined.

(** X5: a family has marks in the plot exactly when it ends at or after
    [mintime] and either starts before [maxtime] or ends at or before it;
    its first mark is then its line. *)
Theorem plotLongevity_family_drawn_iff
    alltrigs famstarts longevity mintime maxtime barpad useBokeh ax out
    n famstart longev :
  plotLongevity alltrigs famstarts longevity mintime maxtime barpad useBokeh ax
  = Ok out ->
  mintime <= maxtime ->
  famstarts !! n = Some famstart -> longevity !! n = Some longev ->
  0 <= longev ->
  ((exists m, (n, m) ∈ out) <->
   mintime <= famstart + longev /\
   (famstart < maxtime \/ famstart + longev <= maxtime)) /\
  ((exists m, (n, m) ∈ out) -> exists a b, (n, Line a b longev) ∈ out).
Proof.
  intros Hrun Hw Hs Hl Hlongev.
  pose proof (plotLongevity_marks _ _ _ _ _ _ _ _ _ Hrun n) as Hmarks.
  rewrite <- (line_iff mintime maxtime barpad famstart longev Hw Hlongev).
  assert (Hnew : exists new,
            marks mintime maxtime barpad useBokeh ax
              (generateLines mintime maxtime barpad famstart longev)
              famstart longev = Ok new).
  { unfold plotLongevity in Hrun.
    destruct (useBokeh && _); [discriminate Hrun|].
    destruct (negb useBokeh && negb ax); [discriminate Hrun|].
    destruct (rfor_pass_Ok _ _ _ _ Hrun n) as (t & t' & Ht).
    { apply elem_of_seq. apply lookup_lt_Some in Hs. lia. }
    apply family_Ok in Ht as (s' & l' & new & Hs' & Hl' & Hnew & _).
    exists new. congruence. }
  destruct Hnew as [new Hnew].
  assert (Hline : (exists m, (n, m) ∈ out) ->
                  add_line (generateLines mintime maxtime barpad famstart longev)
                  = true /\
                  exists a b, (n, Line a b longev) ∈ out).
  { intros [m Hm]. apply Hmarks in Hm
      as (s' & l' & new' & Hs' & Hl' & Hnew' & Hm).
    assert (new' = new) as -> by congruence.
    destruct (marks_Ok _ _ _ _ _ _ _ _ _ Hnew)
      as [[_ ->]|(Eline & _ & rest & -> & _)].
    { apply not_elem_of_nil in Hm. contradiction. }
    split; [exact Eline|]. eexists _, _. apply Hmarks.
    eexists _, _, _. split; [exact Hs|]. split; [exact Hl|].
    split; [exact Hnew|]. left. }
  split; [split|].
  - intros H. apply Hline, H.
  - intros Eline.
    destruct (marks_Ok _ _ _ _ _ _ _ _ _ Hnew)
      as [[E _]|(_ & _ & rest & -> & _)]; [congruence|].
    eexists. apply Hmarks.
    eexists _, _, _. split; [exact Hs|]. split; [exact Hl|].
    split; [exact Hnew|]. left.
  - intros H. apply Hline, H.
Qed.

Lemma plotLongevity_family_drawn_iff_witness :
  ((exists m, (1%nat, m) ∈ [(0%nat, Line 150 160 10)]) <->
   100 <= 20 + 30 /\ (20 < 200 \/ 20 + 30 <= 200)) /\
  ((exists m, (1%nat, m) ∈ [(0%nat, Line 150 160 10)]) ->
   exists a b, (1%nat, Line a b 30) ∈ [(0%nat, Line 150 160 10)]).
Proof.
  apply (plotLongevity_family_drawn_iff
           [100; 200] [150; 20] [10; 30] 100 200 1 true false
           [(0%nat, Line 150 160 10)] 1 20 30).
  - vm_compute. reflexivity.
  - lra.
  - reflexivity.
  - reflexivity.
  - lra.
Defined.

(** X6: called for a Bokeh figure without an axis handle, as
    [renderBokehTimeline] does, [plotLongevity] raises [AttributeError]
    exactly when some family starts before [maxtime] and ends after it (the
    right arrow is drawn on [ax] in both backends), and returns exactly when
    there is no such family. *)
Theorem plotLongevity_bokeh_right_arrow
    alltrigs famstarts longevity mintime maxtime barpad :
  alltrigs <> [] ->
  (length famstarts <= length longevity)%nat ->
  mintime <= maxtime ->
  (forall k v, longevity !! k = Some v -> 0 <= v) ->
  let runs_past :=
    exists n famstart longev,
      famstarts !! n = Some famstart /\ longevity !! n = Some longev /\
      famstart < maxtime /\ maxtime < famstart + longev in
  (plotLongevity alltrigs famstarts longevity mintime maxtime barpad true false
   = Raise AttributeError <-> runs_past) /\
  ((exists out,
      plotLongevity alltrigs famstarts longevity mintime maxtime barpad
        true false = Ok out) <-> ~ runs_past).
Proof.
  intros Htrigs Hlen Hw Hpos runs_past.
  assert (Hunfold :
    plotLongevity alltrigs famstarts longevity mintime maxtime barpad true false
    = rfor (seq 0 (length famstarts))
        (family famstarts longevity mintime maxtime barpad true false) []).
  { unfold plotLongevity. destruct alltrigs; [contradiction|]. reflexivity. }
  rewrite Hunfold.
  assert (Hraise : forall e,
    rfor (seq 0 (length famstarts))
      (family famstarts longevity mintime maxtime barpad true false) []
    = Raise e -> e = AttributeError /\ runs_past).
  { intros e H. apply rfor_Raise in H as (n & drawn & Hn & H).
    apply elem_of_seq in Hn. unfold family in H.
    destruct (index_lt famstarts n) as [s Hs]; [lia|].
    destruct (index_lt longevity n) as [l Hl]; [lia|].
    rewrite Hs, Hl in H. cbn in H.
    destruct (marks _ _ _ _ _ _ _ _) as [new|e'] eqn:Em; [discriminate H|].
    cbn in H. injection H as ->.
    apply marks_Raise in Em as (-> & _ & Er & _). split; [reflexivity|].
    apply index_Ok in Hs, Hl.
    exists n, s, l. split; [exact Hs|]. split; [exact Hl|].
    exact (rarrow_overflow _ _ _ _ _ Hw (Hpos n l Hl) Er). }
  assert (Hok : forall out,
    rfor (seq 0 (length famstarts))
      (family famstarts longevity mintime maxtime barpad true false) []
    = Ok out -> ~ runs_past).
  { intros out H (n & s & l & Hs & Hl & H1 & H2).
    destruct (rfor_pass_Ok _ _ _ _ H n) as (t & t' & Ht).
    { apply elem_of_seq. apply lookup_lt_Some in Hs. lia. }
    apply family_Ok in Ht as (s' & l' & new & Hs' & Hl' & Hnew & _).
    assert (s' = s) as -> by congruence.
    assert (l' = l) as -> by congruence.
    destruct (overflow_line mintime maxtime barpad s l Hw H1 H2) as [Eline Er].
    apply marks_Ok in Hnew as [[E _]|(_ & Hax & _)]; [congruence|].
    specialize (Hax Er). discriminate Hax. }
  destruct (rfor (seq 0 (length famstarts))
              (family famstarts longevity mintime maxtime barpad true false) [])
    as [out|e] eqn:Erun.
  - split; split.
    + discriminate.
    + intros Hp. exfalso. exact (Hok out eq_refl Hp).
    + intros _. exact (Hok out eq_refl).
    + intros _. exists out. reflexivity.
  - destruct (Hraise e eq_refl) as [-> Hp]. split; split.
    + intros _. exact Hp.
    + reflexivity.
    + intros [out Hout]. discriminate Hout.
    + intros Hnp. contradiction.
Qed.

Lemma plotLongevity_bokeh_right_arrow_witness :
  plotLongevity [100; 200] [150] [100] 100 200 1 true false
  = Raise AttributeError.
Proof.
  apply (plotLongevity_bokeh_right_arrow [100; 200] [150] [100] 100 200 1).
  - discriminate.
  - simpl. lia.
  - lra.
  - intros [|k] v; simpl; intros [= <-]; lra.
  - exists 0%nat, 150, 100. repeat split; lra.
Defined.

End LongevityFacts.


(** ** The colour index and the colour bar *)

Module MapperFacts.
Import Rate Mapper RateFacts.

Lemma high_power binsize :
  high (determineColorMapper binsize) = (10 ^ divisor binsize)%Z.
Proof.
  unfold determineColorMapper, divisor. destruct (Qgeb binsize 1); reflexivity.
Qed.

(** A higher bound lets the climb go at least as far. *)
Lemma climb_mono (step : Z) (fuel : nat) : forall bound bound' acc,
  (bound <= bound')%Z ->
  (climb step bound acc fuel <= climb step bound' acc fuel)%nat.
Proof.
  induction fuel as [|fuel IH]; intros bound bound' acc Hb; simpl; [lia|].
  destruct (Z.leb_spec (acc * step) bound) as [Hle|Hgt].
  - destruct (Z.leb_spec (acc * step) bound') as [Hle'|Hgt']; [|lia].
    apply le_n_S, IH, Hb.
  - lia.
Qed.

(** X7: the colour index of a bin does not go down when the bin holds
    more events. *)
Theorem rate_ind_monotone binsize count count' :
  (1 <= count)%nat -> (count <= count')%nat ->
  (rate_ind binsize count <= rate_ind binsize count')%Z.
Proof.
  intros Hc Hle.
  destruct (rate_ind_index binsize count Hc) as (-> & _).
  destruct (rate_ind_index binsize count' ltac:(lia)) as (-> & _).
  apply Nat2Z.inj_le. unfold rate_index.
  apply climb_mono. apply Z.pow_le_mono_l. lia.
Qed.

Lemma rate_ind_monotone_witness : (rate_ind 1 2 <= rate_ind 1 50)%Z.
Proof.
  apply (rate_ind_monotone 1 2 50); lia.
Defined.

(** X8: the colours drawn by Matplotlib and the colour bar of Bokeh agree at
    both ends of the scale: a bin gets the first colour, index 0, exactly
    when it holds [low] = 1 event, and the last colour, index 255, exactly
    when it holds at least [high] events, 1000 for bins of a day or longer
    and 100 for shorter bins. *)
Theorem rate_ind_ends_at_mapper_bounds binsize count :
  (1 <= count)%nat ->
  (rate_ind binsize count = 0%Z
   <-> Z.of_nat count = low (determineColorMapper binsize)) /\
  (rate_ind binsize count = 255%Z
   <-> (high (determineColorMapper binsize) <= Z.of_nat count)%Z).
Proof.
  intros Hc.
  destruct (rate_ind_index binsize count Hc) as (-> & _).
  rewrite high_power.
  assert (Hlow : low (determineColorMapper binsize) = 1%Z).
  { unfold determineColorMapper. destruct (Qgeb binsize 1); reflexivity. }
  rewrite Hlow. unfold rate_index.
  assert (Hd : (1 <= 10 ^ divisor binsize <= 1000)%Z).
  { destruct (divisor_cases binsize) as [-> | ->];
      [change (10 ^ 3)%Z with 1000%Z | change (10 ^ 2)%Z with 100%Z]; lia. }
  destruct (climb_spec (10 ^ divisor binsize) (Z.of_nat count ^ 255) 255 1)
    as (Hle & Hpos & Hstop).
  set (K := climb (10 ^ divisor binsize) (Z.of_nat count ^ 255) 1 255) in *.
  rewrite !Z.mul_1_l in *.
  split; split.
  - intros HK. assert (K = 0%nat) as HK0 by lia.
    destruct (decide (count = 1%nat)) as [->|Hne]; [reflexivity|].
    exfalso. apply Hstop; [lia|]. rewrite HK0.
    change (Z.of_nat 1) with 1%Z. rewrite Z.pow_1_r.
    transitivity (2 ^ 255)%Z.
    + transitivity 1000%Z; [lia|]. apply Z.leb_le. vm_compute. reflexivity.
    + apply Z.pow_le_mono_l. lia.
  - intros Hone. assert (count = 1%nat) as -> by lia.
    destruct (decide (K = 0%nat)) as [->|HK]; [reflexivity|].
    exfalso. specialize (Hpos ltac:(lia)).
    change (Z.of_nat 1) with 1%Z in Hpos. rewrite Z.pow_1_l in Hpos by lia.
    destruct (divisor_cases binsize) as [E | E]; rewrite E in *.
    + change (10 ^ 3)%Z with 1000%Z in *.
      assert (1000 ^ 1 <= 1000 ^ Z.of_nat K)%Z
        by (apply Z.pow_le_mono_r; lia).
      rewrite Z.pow_1_r in *. lia.
    + change (10 ^ 2)%Z with 100%Z in *.
      assert (100 ^ 1 <= 100 ^ Z.of_nat K)%Z
        by (apply Z.pow_le_mono_r; lia).
      rewrite Z.pow_1_r in *. lia.
  - intros HK. assert (K = 255%nat) as HK' by lia.
    specialize (Hpos ltac:(lia)). rewrite HK' in Hpos.
    apply (Z.pow_le_mono_l_iff _ _ (Z.of_nat 255)); [lia | lia | lia | exact Hpos].
  - intros Hhigh.
    destruct (decide (K = 255%nat)) as [->|HK]; [reflexivity|].
    exfalso. apply Hstop; [lia|].
    transitivity ((10 ^ divisor binsize) ^ 255)%Z.
    + apply Z.pow_le_mono_r; lia.
    + apply Z.pow_le_mono_l. lia.
Qed.

Lemma rate_ind_ends_at_mapper_bounds_witness :
  (rate_ind (1 # 24) 100 = 0%Z
   <-> Z.of_nat 100 = low (determineColorMapper (1 # 24))) /\
  (rate_ind (1 # 24) 100 = 255%Z
   <-> (high (determineColorMapper (1 # 24)) <= Z.of_nat 100)%Z).
Proof.
  apply (rate_ind_ends_at_mapper_bounds (1 # 24) 100). lia.
Defined.

End MapperFacts.

(** ** The rows, blocks and patches of [plotFamilyOccurrence] *)

Module TimelineFacts.
Import Clip Occurrence Timeline OccurrenceFacts.
Local Open Scope Q_scope.

Lemma foldl_max_ge (a : list Q) : forall x t,
  t ∈ x :: a -> t <= foldl (fun m y => if Qgtb y m then y else m) x a.
Proof.
  induction a as [|y a IH]; intros x t Ht; simpl.
  - apply elem_of_cons in Ht as [->|Ht]; [apply Qle_refl|].
    apply not_elem_of_nil in Ht. contradiction.
  - destruct (Qgtb y x) eqn:E.
    + apply Qgtb_lt in E.
      apply elem_of_cons in Ht as [->|Ht].
      * apply Qle_trans with y; [apply Qlt_le_weak, E | apply IH; left].
      * apply IH. exact Ht.
    + apply Qgtb_le in E.
      apply elem_of_cons in Ht as [->|Ht]; [apply IH; left|].
      apply elem_of_cons in Ht as [->|Ht].
      * apply Qle_trans with x; [exact E | apply IH; left].
      * apply IH. right. exact Ht.
Qed.

(** The latest time of a family is at or after each of its events. *)
Lemma py_max_ge (a : list Q) (m t : Q) : py_max a = Ok m -> t ∈ a -> t <= m.
Proof.
  destruct a as [|x a]; simpl; intros H Ht; [discriminate H|].
  injection H as <-. apply foldl_max_ge, Ht.
Qed.

Lemma foldl_min_le (a : list Q) : forall x t,
  t ∈ x :: a -> foldl (fun m y => if Qltb y m then y else m) x a <= t.
Proof.
  induction a as [|y a IH]; intros x t Ht; simpl.
  - apply elem_of_cons in Ht as [->|Ht]; [apply Qle_refl|].
    apply not_elem_of_nil in Ht. contradiction.
  - unfold Qltb. destruct (Qle_bool x y) eqn:E; simpl.
    + apply Qle_bool_iff in E.
      apply elem_of_cons in Ht as [->|Ht]; [apply IH; left|].
      apply elem_of_cons in Ht as [->|Ht].
      * apply Qle_trans with x; [apply IH; left | exact E].
      * apply IH. right. exact Ht.
    + apply Qle_bool_false in E.
      apply elem_of_cons in Ht as [->|Ht].
      * apply Qle_trans with y; [apply IH; left | apply Qlt_le_weak, E].
      * apply IH. exact Ht.
Qed.

Lemma fi_index_le opt m : (fi_index opt m <= 255)%nat.
Proof.
  unfold fi_index.
  destruct (Qeq_bool _ 0); [destruct (Qltb _ 0); lia|].
  set (x := 255 * (m - fispanlow opt) / (fispanhigh opt - fispanlow opt)).
  assert (H : (if Qltb (if Qltb x 255 then x else 255) 0 then 0
               else if Qltb x 255 then x else 255) <= 255).
  { unfold Qltb.
    destruct (Qle_bool 255 x) eqn:E1; simpl.
    - destruct (Qle_bool 0 255); simpl; lra.
    - apply Qle_bool_false in E1.
      destruct (Qle_bool 0 x); simpl; lra. }
  apply Qfloor_resp_le in H.
  change (Qfloor 255) with 255%Z in H. lia.
Qed.

Lemma no_label_labels c (gs : list glyph) :
  Forall (fun g => match g with Label _ _ _ => False | _ => True end) gs ->
  labels (pair c <$> gs) = [].
Proof.
  induction 1 as [|g gs Hg _ IH]; [reflexivity|].
  simpl. destruct g; try contradiction; exact IH.
Qed.

Lemma labels_app gs gs' : labels (gs ++ gs') = labels gs ++ labels gs'.
Proof. apply omap_app. Qed.

Section Loop.
Variable np_arange : Q -> Q -> Q -> result (list Q).
Variable np_histogram : list Q -> list Q -> result (list nat).
Variables (dt famstarts longevity fi : list Q).
Variables (mintime maxtime : Q) (minplot : nat) (binsize barpad : Q).
Variables (colorby_ : colorby) (opt : options).
Variables (useBokeh ax : bool).

(** Every colour index is one of the 256 colours of the palette. *)
Lemma bin_colours_le members times hist d1 colors :
  bin_colours fi binsize colorby_ opt members times hist d1 = Ok colors ->
  Forall (fun color => (color <= 255)%nat) colors.
Proof.
  unfold bin_colours. destruct colorby_.
  - intros [= <-]. apply Forall_fmap, Forall_forall. intros count _.
    apply RateFacts.climb_le.
  - intros H. apply rmap_Ok in H.
    induction H as [|[edge count] color l colors' Hc _ IH]; constructor;
      [|exact IH].
    apply bind_Ok in Hc as (who & _ & Hc).
    apply bind_Ok in Hc as (vals & _ & Hc).
    injection Hc as <-. apply fi_index_le.
Qed.

(** The Matplotlib boxes: blocks only, on the row [y], one bin wide,
    starting inside the window. *)
Lemma boxes_sound y c size first last : forall bins x2 gs x2',
  boxes mintime maxtime binsize y bins x2 = (gs, x2') ->
  Forall (fun b => (b.2 <= 255)%nat) bins ->
  Forall (fun g => row g = y /\
                   match g with Quad _ _ _ _ => True | _ => False end /\
                   sound mintime maxtime binsize barpad false c size first last g) gs.
Proof.
  induction bins as [|[x color] bins IH]; intros x2 gs x2' H Hcol; simpl in H.
  - injection H as <- _. constructor.
  - apply Forall_cons in Hcol as [Hc Hcol].
    destruct (Qgeb x mintime && Qleb x maxtime) eqn:E.
    + destruct (boxes _ _ _ y bins _) as [gs1 x21] eqn:Eb.
      injection H as <- _. constructor.
      * split; [reflexivity|]. split; [exact I|].
        apply andb_true_iff in E as [E1 E2].
        apply Qle_bool_iff in E1, E2. simpl. auto.
      * exact (IH _ _ _ Eb Hcol).
    + exact (IH _ _ _ H Hcol).
Qed.

Let body := family np_arange np_histogram dt famstarts longevity fi
              mintime maxtime minplot binsize barpad colorby_ opt useBokeh ax.

(** One pass of the loop: a family that is not drawn changes nothing; a
    family that is drawn takes the next row, and draws on this row only,
    one label among its glyphs. *)
Lemma family_pass c members st st' :
  body (c, members) st = Ok st' ->
  exists times first last,
    take_at dt members = Ok times /\
    py_min times = Ok first /\ py_max times = Ok last /\
    ((Nat.leb minplot (length times) && Qgtb last mintime = false /\ st' = st) \/
     (Nat.leb minplot (length times) && Qgtb last mintime = true /\
      exists new,
        st' = Drawing (S (n st)) (glyphs st ++ (pair c <$> new)) /\
        Forall (fun g => row g = n st) new /\
        labels (pair c <$> new) = [(c, n st, length times)] /\
        Forall (sound mintime maxtime binsize barpad useBokeh c (length times) first last) new)).
Proof using Type.
  intros H. unfold body, family in H.
  apply bind_Ok in H as (times & Htimes & H).
  apply bind_Ok in H as (first & Hfirst & H).
  apply bind_Ok in H as (last & Hlast & H).
  apply bind_Ok in H as (h & _ & H).
  apply bind_Ok in H as (hist & _ & H).
  apply bind_Ok in H as (d1 & _ & H).
  apply bind_Ok in H as (colors & Hcolors & H).
  apply bin_colours_le in Hcolors.
  exists times, first, last. do 3 (split; [assumption|]).
  destruct (Nat.leb minplot (length times) && Qgtb last mintime);
    [right | left; injection H as <-; auto].
  split; [reflexivity|].
  apply bind_Ok in H as (famstart & _ & H).
  apply bind_Ok in H as (longev & _ & H).
  apply bind_Ok in H as (lines & Hlines & H).
  apply bind_Ok in H as (rest & Hrest & H).
  injection H as <-. exists (lines ++ rest). split; [reflexivity|].
  set (P := fun g =>
         row g = n st /\
         match g with Label _ _ _ => False | _ => True end /\
         sound mintime maxtime binsize barpad useBokeh c (length times) first last g).
  assert (HL : Forall P lines).
  { destruct (add_line _).
    - apply bind_Ok in Hlines as (rarrow & Hr & [= <-]).
      assert (Forall P rarrow).
      { destruct (add_rarrow _); [|injection Hr as <-; constructor].
        destruct ax; [|discriminate Hr]. injection Hr as <-.
        repeat constructor. }
      simpl. constructor; [repeat constructor|].
      apply Forall_app_2; [|assumption].
      destruct (add_larrow _); [|constructor].
      destruct useBokeh; repeat constructor.
    - injection Hlines as <-. constructor. }
  assert (HR : exists quads tail_,
            rest = quads ++ tail_ /\ Forall P quads /\
            labels (pair c <$> tail_) = [(c, n st, length times)] /\
            Forall (fun g => row g = n st /\
                     sound mintime maxtime binsize barpad useBokeh c (length times) first last g)
                   tail_).
  { destruct useBokeh.
    - apply bind_Ok in Hrest as (xmax & _ & [= <-]).
      eexists _, _. split; [reflexivity|]. split; [|split].
      + apply Forall_fmap, Forall_forall. intros [[xl xr] color] Hin.
        apply list_elem_of_filter in Hin as [Hgt Hin]. simpl in Hgt.
        apply Qgtb_lt in Hgt.
        apply list_elem_of_lookup_1 in Hin as [i Hi].
        apply lookup_zip_Some in Hi as [Hi Hcol].
        apply lookup_zip_Some in Hi as [Hxl Hxr].
        rewrite list_lookup_fmap, Hxl in Hxr. injection Hxr as <-.
        split; [reflexivity|]. split; [exact I|]. simpl.
        split; [reflexivity|]. split; [|exact Hgt].
        exact (proj1 (Forall_lookup _ _) Hcolors _ _ Hcol).
      + reflexivity.
      + repeat constructor.
    - destruct (boxes _ _ _ _ _ _) as [quads x2'] eqn:Eb.
      injection Hrest as <-.
      eexists _, _. split; [reflexivity|]. split; [|split].
      + eapply Forall_impl.
        * eapply (boxes_sound _ c (length times) first last _ _ _ _ Eb).
          apply Forall_forall. intros [x color] Hin. simpl.
          apply list_elem_of_lookup_1 in Hin as [i Hi].
          apply lookup_zip_Some in Hi as [_ Hcol].
          exact (proj1 (Forall_lookup _ _) Hcolors _ _ Hcol).
        * intros g (Hrow & Hq & Hs). split; [exact Hrow|].
          split; [destruct g; try contradiction; exact I | exact Hs].
      + reflexivity.
      + repeat constructor. }
  destruct HR as (quads & tail_ & -> & HQ & Hlab & HT).
  split; [|split].
  - repeat apply Forall_app_2.
    + eapply Forall_impl; [exact HL|]. intros g Hg; apply Hg.
    + eapply Forall_impl; [exact HQ|]. intros g Hg; apply Hg.
    + eapply Forall_impl; [exact HT|]. intros g Hg; apply Hg.
  - rewrite !fmap_app, !labels_app, Hlab.
    rewrite (no_label_labels c lines), (no_label_labels c quads); [reflexivity| |].
    + eapply Forall_impl; [exact HQ|]. intros g Hg; apply Hg.
    + eapply Forall_impl; [exact HL|]. intros g Hg; apply Hg.
  - repeat apply Forall_app_2.
    + eapply Forall_impl; [exact HL|]. intros g Hg; apply Hg.
    + eapply Forall_impl; [exact HQ|]. intros g Hg; apply Hg.
    + eapply Forall_impl; [exact HT|]. intros g Hg; apply Hg.
Qed.

(** What the loop over the families [l], numbered in increasing order
    from [b] on, adds to a drawing whose labels number its rows. *)
Lemma loop_rows l : forall b st st',
  rfor l body st = Ok st' ->
  StronglySorted lt l.*1 -> Forall (fun cm => (b <= cm.1)%nat) l ->
  (fun x => x.1.2) <$> labels (glyphs st) = seq 0 (n st) ->
  StronglySorted lt ((fun x => x.1.1) <$> labels (glyphs st)) ->
  Forall (fun x => (x.1.1 < b)%nat) (labels (glyphs st)) ->
  (forall c g, (c, g) ∈ glyphs st ->
     exists t, (c, row g, t) ∈ labels (glyphs st)) ->
  (fun x => x.1.2) <$> labels (glyphs st') = seq 0 (n st') /\
  StronglySorted lt ((fun x => x.1.1) <$> labels (glyphs st')) /\
  (forall c g, (c, g) ∈ glyphs st' ->
     exists t, (c, row g, t) ∈ labels (glyphs st')).
Proof using Type.
  induction l as [|[c members] l IH];
    intros b st st' Hrun Hsorted Hb Hrows Hfams Hbelow Hon.
  - simpl in Hrun. injection Hrun as <-. auto.
  - cbn [rfor] in Hrun. apply bind_Ok in Hrun as (st1 & Hpass & Hrun).
    rewrite fmap_cons in Hsorted.
    apply StronglySorted_inv in Hsorted as [Hsorted Hc].
    apply Forall_cons in Hb as [Hbc Hb]. simpl in Hbc, Hc.
    apply (IH (S c) st1 st' Hrun Hsorted).
    { apply Forall_forall. intros cm Hcm.
      assert (Hin : cm.1 ∈ l.*1) by (apply list_elem_of_fmap; eauto).
      exact (proj1 (Forall_forall _ _) Hc _ Hin). }
    all: destruct (family_pass c members st st1 Hpass)
        as (times & first & last & _ & _ & _ &
            [[_ ->]|(_ & new & -> & Hrow & Hlab & _)]).
    all: cbn [glyphs n].
    all: try rewrite labels_app, Hlab.
    + exact Hrows.
    + rewrite fmap_app, Hrows, seq_S. reflexivity.
    + exact Hfams.
    + rewrite fmap_app. simpl.
      clear - Hfams Hbelow Hbc.
      induction (labels (glyphs st)) as [|x xs IHx]; simpl.
      * repeat constructor.
      * simpl in Hfams. apply StronglySorted_inv in Hfams as [Hxs Hx].
        apply Forall_cons in Hbelow as [Hxb Hbelow].
        constructor; [exact (IHx Hxs Hbelow)|].
        apply Forall_app_2; [exact Hx|]. repeat constructor. lia.
    + eapply Forall_impl; [exact Hbelow|]. intros y Hy. simpl in *. lia.
    + apply Forall_app_2.
      * eapply Forall_impl; [exact Hbelow|]. intros y Hy. simpl in *. lia.
      * repeat constructor.
    + exact Hon.
    + intros c' g Hin. apply elem_of_app in Hin as [Hin|Hin].
      * destruct (Hon c' g Hin) as [t Ht]. exists t.
        apply elem_of_app. left. exact Ht.
      * apply list_elem_of_fmap in Hin as (g' & [= -> ->] & Hg').
        exists (length times). apply elem_of_app. right.
        rewrite (proj1 (Forall_forall _ _) Hrow g' Hg'). left.
Qed.

(** Every glyph that the loop adds comes from the pass of a family of [l]
    that is drawn, and is sound for it. *)
Lemma loop_sound l : forall st st',
  rfor l body st = Ok st' ->
  forall c g, (c, g) ∈ glyphs st' ->
  (c, g) ∈ glyphs st \/
  exists members times first last,
    (c, members) ∈ l /\ take_at dt members = Ok times /\
    py_min times = Ok first /\ py_max times = Ok last /\
    Nat.leb minplot (length times) && Qgtb last mintime = true /\
    sound mintime maxtime binsize barpad useBokeh c (length times) first last g.
Proof using Type.
  induction l as [|[c0 members] l IH]; intros st st' Hrun c g Hin.
  - simpl in Hrun. injection Hrun as <-. left. exact Hin.
  - cbn [rfor] in Hrun. apply bind_Ok in Hrun as (st1 & Hpass & Hrun).
    destruct (IH st1 st' Hrun c g Hin)
      as [Hin1|(m & times & first & last & Hm & H)].
    + destruct (family_pass c0 members st st1 Hpass)
        as (times & first & last & Ht & Hf & Hl &
            [[_ ->]|(Hcond & new & -> & _ & _ & Hsound)]).
      * left. exact Hin1.
      * cbn [glyphs] in Hin1. apply elem_of_app in Hin1 as [Hin1|Hin1].
        -- left. exact Hin1.
        -- apply list_elem_of_fmap in Hin1 as (g' & [= -> ->] & Hg').
           right. exists members, times, first, last.
           split; [left|]. do 4 (split; [assumption|]).
           exact (proj1 (Forall_forall _ _) Hsound g' Hg').
    + right. exists m, times, first, last. split; [right; exact Hm | exact H].
Qed.

(** A family of [l] that is included has its label, with the number of its
    members, after the loop. *)
Lemma loop_included l : forall st st' c members,
  rfor l body st = Ok st' ->
  (c, members) ∈ l -> included dt mintime minplot members ->
  exists x y, (c, Label x y (length members)) ∈ glyphs st'.
Proof using Type.
  assert (Hgrow : forall l st st', rfor l body st = Ok st' ->
            forall cg, cg ∈ glyphs st -> cg ∈ glyphs st').
  { induction l0 as [|[c0 m0] l0 IH0]; intros st st' Hrun cg Hcg.
    - simpl in Hrun. injection Hrun as <-. exact Hcg.
    - cbn [rfor] in Hrun. apply bind_Ok in Hrun as (st1 & Hpass & Hrun).
      apply (IH0 st1 st' Hrun).
      destruct (family_pass c0 m0 st st1 Hpass)
        as (times & first & last & _ & _ & _ &
            [[_ ->]|(_ & new & -> & _)]); [exact Hcg|].
      apply elem_of_app. left. exact Hcg. }
  induction l as [|[c0 m0] l IH]; intros st st' c members Hrun Hin Hincl.
  - apply not_elem_of_nil in Hin. contradiction.
  - cbn [rfor] in Hrun. apply bind_Ok in Hrun as (st1 & Hpass & Hrun).
    apply elem_of_cons in Hin as [[= <- <-]|Hin];
      [|exact (IH st1 st' c members Hrun Hin Hincl)].
    destruct (family_pass c members st st1 Hpass)
      as (times & first & last & Ht & Hf & Hl & Hcases).
    destruct Hincl as (Hmin & k & t & Hk & Hdt & Hlate).
    assert (Hlen : length times = length members)
      by exact (take_at_length _ _ _ Ht).
    assert (Hcond : Nat.leb minplot (length times) && Qgtb last mintime = true).
    { apply andb_true_iff. split; [apply Nat.leb_le; lia|].
      apply Qgtb_lt. apply Qlt_le_trans with t; [exact Hlate|].
      apply (py_max_ge _ _ _ Hl).
      apply list_elem_of_lookup_1 in Hk as [i Hi].
      apply (list_elem_of_lookup_2 _ i).
      rewrite (take_at_lookup _ _ _ _ _ Ht Hi). exact Hdt. }
    destruct Hcases as [[Hno _]|(_ & new & -> & _ & Hlab & _)]; [congruence|].
    assert (Hex : (c, n st, length times) ∈ labels (pair c <$> new))
      by (rewrite Hlab; left).
    apply list_elem_of_omap in Hex as ([c' g] & Hg & Hsome).
    destruct g; try discriminate Hsome. injection Hsome as -> -> Htext.
    rewrite <- Hlen, <- Htext. eexists _, _.
    apply (Hgrow l _ st' Hrun). cbn [glyphs].
    apply elem_of_app. right. exact Hg.
Qed.

End Loop.

Lemma seq_sorted n : forall k, StronglySorted lt (seq k n).
Proof.
  induction n as [|n IH]; intros k; simpl; constructor; [apply IH|].
  apply Forall_forall. intros i Hi. apply elem_of_seq in Hi. lia.
Qed.

Lemma sorted_NoDup (l : list nat) : StronglySorted lt l -> NoDup l.
Proof.
  induction 1 as [|x l _ IH Hx]; constructor; [|exact IH].
  intros Hin. pose proof (proj1 (Forall_forall _ _) Hx x Hin). lia.
Qed.

Lemma NoDup_fmap_eq {A B : Type} (f : A -> B) (l : list A) x y :
  NoDup (f <$> l) -> x ∈ l -> y ∈ l -> f x = f y -> x = y.
Proof.
  induction l as [|a l IH]; intros Hnd Hx Hy Hxy.
  - apply not_elem_of_nil in Hx. contradiction.
  - rewrite fmap_cons in Hnd. apply NoDup_cons in Hnd as [Ha Hnd].
    apply elem_of_cons in Hx as [->|Hx]; apply elem_of_cons in Hy as [->|Hy].
    + reflexivity.
    + exfalso. apply Ha. rewrite Hxy. apply list_elem_of_fmap. eauto.
    + exfalso. apply Ha. rewrite <- Hxy. apply list_elem_of_fmap. eauto.
    + exact (IH Hnd Hx Hy Hxy).
Qed.

Lemma numbered_families (ftable : list (list nat)) c members :
  (c, members) ∈ zip (seq 0 (length ftable)) ftable <-> ftable !! c = Some members.
Proof.
  split.
  - intros Hin. apply list_elem_of_lookup_1 in Hin as [i Hi].
    apply lookup_zip_Some in Hi as [Hseq Hm].
    apply lookup_seq in Hseq as [Hc _]. simpl in Hc. subst c. exact Hm.
  - intros Hm. apply (list_elem_of_lookup_2 _ c).
    apply lookup_zip_Some. split; [|exact Hm].
    apply lookup_seq. split; [reflexivity|].
    exact (lookup_lt_Some _ _ _ Hm).
Qed.

(** X9: the labels of a timeline number its rows: they lie on the rows
    0, 1, ... up to the row counter, one on each row, in the order of the
    family numbers; every glyph lies on the row of the label of its family,
    so that two glyphs share a row exactly when one family drew them. *)
Theorem timeline_rows
    np_arange np_histogram dt famstarts longevity fi mintime maxtime minplot
    binsize barpad colorby_ opt useBokeh ax ftable out :
  plotFamilyOccurrence np_arange np_histogram dt famstarts longevity fi
    mintime maxtime minplot binsize barpad colorby_ opt useBokeh ax ftable
  = Ok out ->
  (fun x => x.1.2) <$> labels (glyphs out) = seq 0 (n out) /\
  StronglySorted lt ((fun x => x.1.1) <$> labels (glyphs out)) /\
  (forall c g, (c, g) ∈ glyphs out ->
     exists t, (c, row g, t) ∈ labels (glyphs out)) /\
  (forall c g c' g', (c, g) ∈ glyphs out -> (c', g') ∈ glyphs out ->
     (c = c' <-> row g = row g')).
Proof.
  intros Hrun. unfold plotFamilyOccurrence in Hrun.
  destruct (negb useBokeh && negb ax); [discriminate Hrun|].
  destruct (loop_rows _ _ _ _ _ _ _ _ _ _ _ _ _ _ _ _ 0%nat _ _ Hrun)
    as (Hrows & Hfams & Hon).
  - rewrite fst_zip by (rewrite length_seq; lia). apply seq_sorted.
  - apply Forall_forall. intros cm _. lia.
  - reflexivity.
  - constructor.
  - constructor.
  - intros c g Hin. apply not_elem_of_nil in Hin. contradiction.
  - split; [exact Hrows|]. split; [exact Hfams|]. split; [exact Hon|].
    intros c g c' g' Hg Hg'.
    destruct (Hon c g Hg) as [t Ht]. destruct (Hon c' g' Hg') as [t' Ht'].
    split; intros Heq.
    + assert (E : (c, row g, t) = (c', row g', t')).
      { apply (NoDup_fmap_eq (fun x => x.1.1) (labels (glyphs out)));
          [apply sorted_NoDup, Hfams | exact Ht | exact Ht' | exact Heq]. }
      congruence.
    + assert (E : (c, row g, t) = (c', row g', t')).
      { apply (NoDup_fmap_eq (fun x => x.1.2) (labels (glyphs out)));
          [rewrite Hrows; apply NoDup_seq | exact Ht | exact Ht' | exact Heq]. }
      congruence.
Qed.

Lemma timeline_rows_witness :
  exists out,
    example_run2 true false = Ok out /\ n out = 2%nat /\
    (fun x => x.1.2) <$> labels (glyphs out) = seq 0 (n out) /\
    StronglySorted lt ((fun x => x.1.1) <$> labels (glyphs out)) /\
    (forall c g, (c, g) ∈ glyphs out ->
       exists t, (c, row g, t) ∈ labels (glyphs out)) /\
    (forall c g c' g', (c, g) ∈ glyphs out -> (c', g') ∈ glyphs out ->
       (c = c' <-> row g = row g')).
Proof.
  eexists. split; [vm_compute; reflexivity|]. split; [reflexivity|].
  apply (timeline_rows arange_exact histogram_exact (example_dt ++ [121]) example_famstarts
           [49; 10; 1] [] 100 200 2 1 1 ByRate (Options 0 1) true false
           [[0; 1; 2; 3]; [4; 5]; [6; 7]]%nat).
  vm_compute. reflexivity.
Defined.

(** X10: a family of the table has a label in the timeline exactly when it
    is included, that is when it has at least [minplot] members and an
    event after [mintime]; the label then shows the number of its members. *)
Theorem family_labelled_iff_included
    np_arange np_histogram dt famstarts longevity fi mintime maxtime minplot
    binsize barpad colorby_ opt useBokeh ax ftable out c members :
  plotFamilyOccurrence np_arange np_histogram dt famstarts longevity fi
    mintime maxtime minplot binsize barpad colorby_ opt useBokeh ax ftable
  = Ok out ->
  ftable !! c = Some members ->
  ((exists x y text, (c, Label x y text) ∈ glyphs out)
   <-> included dt mintime minplot members) /\
  (forall x y text, (c, Label x y text) ∈ glyphs out -> text = length members).
Proof.
  intros Hrun Hfam. unfold plotFamilyOccurrence in Hrun.
  destruct (negb useBokeh && negb ax); [discriminate Hrun|].
  assert (Hlabel : forall x y text, (c, Label x y text) ∈ glyphs out ->
            text = length members /\ included dt mintime minplot members).
  { intros x y text Hin.
    destruct (loop_sound _ _ _ _ _ _ _ _ _ _ _ _ _ _ _ _ _ _ Hrun _ _ Hin)
      as [Hnil|(m & times & first & last & Hm & Ht & _ & Hl & Hcond & Hs)].
    { apply not_elem_of_nil in Hnil. contradiction. }
    apply numbered_families in Hm.
    assert (m = members) as -> by congruence.
    pose proof (take_at_length _ _ _ Ht) as Hlen.
    simpl in Hs. split; [congruence|].
    apply andb_true_iff in Hcond as [Hmin Hlate].
    apply Nat.leb_le in Hmin. apply Qgtb_lt in Hlate.
    split; [lia|].
    destruct (take_at_elem _ _ _ _ Ht (py_max_elem _ _ Hl)) as (k & Hk & Hdt).
    exists k, last. auto. }
  split; [split|].
  - intros (x & y & text & Hin). exact (proj2 (Hlabel x y text Hin)).
  - intros Hincl.
    destruct (loop_included _ _ _ _ _ _ _ _ _ _ _ _ _ _ _ _ _ _ c members Hrun)
      as (x & y & Hin); [apply numbered_families, Hfam | exact Hincl|].
    eauto.
  - intros x y text Hin. exact (proj1 (Hlabel x y text Hin)).
Qed.

Lemma family_labelled_iff_included_witness :
  exists out,
    example_run2 false true = Ok out /\
    ((exists x y text, (2%nat, Label x y text) ∈ glyphs out)
     <-> included (example_dt ++ [121]) 100 2 [6; 7]%nat) /\
    (forall x y text, (2%nat, Label x y text) ∈ glyphs out -> text = 2%nat).
Proof.
  eexists. split; [vm_compute; reflexivity|].
  eapply (family_labelled_iff_included arange_exact histogram_exact (example_dt ++ [121]) example_famstarts
           [49; 10; 1] [] 100 200 2 1 1 ByRate (Options 0 1) false true
           [[0; 1; 2; 3]; [4; 5]; [6; 7]]%nat
           _ 2%nat [6; 7]%nat).
  - vm_compute. reflexivity.
  - reflexivity.
Defined.

(** X11: every block of a timeline is one bin wide, has one of the 256
    colours of the palette, and starts inside the window: after [mintime]
    with Bokeh, from [mintime] to [maxtime] with Matplotlib. *)
Theorem timeline_blocks
    np_arange np_histogram dt famstarts longevity fi mintime maxtime minplot
    binsize barpad colorby_ opt useBokeh ax ftable out c xl xr color y :
  plotFamilyOccurrence np_arange np_histogram dt famstarts longevity fi
    mintime maxtime minplot binsize barpad colorby_ opt useBokeh ax ftable
  = Ok out ->
  (c, Quad xl xr color y) ∈ glyphs out ->
  xr = xl + binsize /\ (color <= 255)%nat /\
  (if useBokeh then mintime < xl else mintime <= xl /\ xl <= maxtime).
Proof.
  intros Hrun Hin. unfold plotFamilyOccurrence in Hrun.
  destruct (negb useBokeh && negb ax); [discriminate Hrun|].
  destruct (loop_sound _ _ _ _ _ _ _ _ _ _ _ _ _ _ _ _ _ _ Hrun _ _ Hin)
    as [Hnil|(m & times & first & last & _ & _ & _ & _ & _ & Hs)].
  { apply not_elem_of_nil in Hnil. contradiction. }
  exact Hs.
Qed.

Lemma timeline_blocks_witness :
  exists out,
    example_run2 false true = Ok out /\
    121 = 120 + 1 /\ (25 <= 255)%nat /\ 100 <= 120 /\ 120 <= 200.
Proof.
  eexists. split; [vm_compute; reflexivity|].
  eapply (timeline_blocks arange_exact histogram_exact (example_dt ++ [121]) example_famstarts
           [49; 10; 1] [] 100 200 2 1 1 ByRate (Options 0 1) false true
           [[0; 1; 2; 3]; [4; 5]; [6; 7]]%nat
           _ 2%nat 120 121 25%nat 1%nat).
  - vm_compute. reflexivity.
  - apply (list_elem_of_lookup_2 _ 6%nat). reflexivity.
Defined.



End TimelineFacts.

(** ** [plotFI] *)

Module FIFacts.
Import Occurrence FI.
Local Open Scope Q_scope.

Lemma where_from_ge mask : forall k i, i ∈ where_from k mask -> (k <= i)%nat.
Proof.
  induction mask as [|b mask IH]; intros k i Hi; simpl in Hi.
  - apply not_elem_of_nil in Hi. contradiction.
  - destruct b.
    + apply elem_of_cons in Hi as [->|Hi]; [lia|]. apply IH in Hi. lia.
    + apply IH in Hi. lia.
Qed.

Lemma take_at_cons {A : Type} (a : list A) i idx bs :
  take_at a (i :: idx) = Ok bs <->
  exists b bs', a !! i = Some b /\ take_at a idx = Ok bs' /\ bs = b :: bs'.
Proof.
  rewrite take_at_Ok. split.
  - intros H. inversion H as [|? b ? bs' Hb Hbs]; subst.
    exists b, bs'. split; [exact Hb|]. split; [apply take_at_Ok, Hbs | reflexivity].
  - intros (b & bs' & Hb & Hbs & ->). constructor; [exact Hb|].
    apply take_at_Ok, Hbs.
Qed.

Lemma take_at_Raise {A : Type} (a : list A) idx e :
  take_at a idx = Raise e -> e = IndexError.
Proof.
  unfold take_at. induction idx as [|i idx IH]; [discriminate|].
  cbn [rmap]. destruct (index a i) as [b|e'] eqn:Ei; cbn.
  - destruct (rmap (index a) idx); cbn; [discriminate|].
    intros [= <-]. apply IH. reflexivity.
  - intros [= <-]. unfold index in Ei. destruct (a !! i); congruence.
Qed.

(** Selecting by [np.where] from the times and from the frequency indices
    and pairing the results is filtering the pairs. *)
Lemma select_filter (test : Q -> bool) (dt0 fi0 : list Q) : forall l k xs ys,
  (forall i, l !! i = dt0 !! (k + i)%nat) ->
  take_at dt0 (where_from k (test <$> l)) = Ok xs ->
  take_at fi0 (where_from k (test <$> l)) = Ok ys ->
  zip xs ys = filter (fun p => test p.1 = true) (zip l (drop k fi0)).
Proof.
  induction l as [|a l IH]; intros k xs ys Hl Hxs Hys.
  - simpl in Hxs, Hys. injection Hxs as <-. reflexivity.
  - assert (Hl' : forall i, l !! i = dt0 !! (S k + i)%nat).
    { intros i. specialize (Hl (S i)). simpl in Hl. rewrite Hl.
      f_equal. lia. }
    rewrite fmap_cons in Hxs, Hys. cbn [where_from] in Hxs, Hys.
    destruct (test a) eqn:Ea.
    + apply take_at_cons in Hxs as (x & xs' & Hx & Hxs & ->).
      apply take_at_cons in Hys as (y & ys' & Hy & Hys & ->).
      pose proof (Hl 0%nat) as H0. simpl in H0.
      rewrite Nat.add_0_r, Hx in H0. injection H0 as ->.
      rewrite (drop_S _ _ _ Hy). simpl.
      rewrite filter_cons_True by exact Ea.
      f_equal. exact (IH (S k) xs' ys' Hl' Hxs Hys).
    + destruct (fi0 !! k) as [y|] eqn:Hy.
      * rewrite (drop_S _ _ _ Hy). simpl.
        rewrite filter_cons_False by (simpl; congruence).
        exact (IH (S k) xs ys Hl' Hxs Hys).
      * apply lookup_ge_None in Hy.
        rewrite drop_ge by exact Hy. rewrite zip_with_nil_r. simpl.
        destruct (where_from (S k) (test <$> l)) as [|i idx] eqn:Ew.
        -- simpl in Hxs. injection Hxs as <-. reflexivity.
        -- exfalso. apply take_at_cons in Hys as (y & _ & Hi & _).
           apply lookup_lt_Some in Hi.
           assert (S k <= i)%nat; [|lia].
           apply (where_from_ge (test <$> l)). rewrite Ew. left.
Qed.

(** X13: the points of the frequency index plot are the events inside the
    window, from [mintime] to [maxtime] with both ends, each with its own
    frequency index, in the order of the catalogue. *)
Theorem plotFI_points alltrigs dt fi mintime maxtime useBokeh ax pts :
  plotFI alltrigs dt fi mintime maxtime useBokeh ax = Ok pts ->
  pts = filter (fun p => Qgeb p.1 mintime && Qleb p.1 maxtime = true)
          (zip dt fi) /\
  (forall t f, (t, f) ∈ pts <->
     exists k, dt !! k = Some t /\ fi !! k = Some f /\
               mintime <= t /\ t <= maxtime).
Proof.
  intros H. unfold plotFI in H.
  apply bind_Ok in H as (u & _ & H).
  apply bind_Ok in H as (xs & Hxs & H).
  apply bind_Ok in H as (ys & Hys & H).
  injection H as <-.
  assert (E : zip xs ys
              = filter (fun p => Qgeb p.1 mintime && Qleb p.1 maxtime = true)
                  (zip dt fi)).
  { exact (select_filter (fun t => Qgeb t mintime && Qleb t maxtime)
             dt fi dt 0 xs ys (fun i => eq_refl) Hxs Hys). }
  split; [exact E|]. intros t f. rewrite E, list_elem_of_filter. simpl.
  rewrite andb_true_iff. unfold Qgeb, Qleb. rewrite !Qle_bool_iff.
  split.
  - intros [[H1 H2] Hin]. apply list_elem_of_lookup_1 in Hin as [k Hk].
    apply lookup_zip_Some in Hk as [Hdt Hfi]. exists k. auto.
  - intros (k & Hdt & Hfi & H1 & H2). split; [auto|].
    apply (list_elem_of_lookup_2 _ k). apply lookup_zip_Some. auto.
Qed.

Lemma plotFI_points_witness :
  [(101, 1 # 2); (150, 2)]
  = filter (fun p => Qgeb p.1 100 && Qleb p.1 200 = true)
      (zip [40; 101; 150; 250] [0; 1 # 2; 2; 3]) /\
  (forall t f, (t, f) ∈ [(101, 1 # 2); (150, 2)] <->
     exists k, [40; 101; 150; 250] !! k = Some t /\
               [0; 1 # 2; 2; 3] !! k = Some f /\ 100 <= t /\ t <= 200).
Proof.
  apply (plotFI_points [250] [40; 101; 150; 250] [0; 1 # 2; 2; 3] 100 200
           true false).
  vm_compute. reflexivity.
Defined.

(** X14: once its first lines are passed (triggers to take the maximum of
    with Bokeh, an axis handle with Matplotlib), [plotFI] returns exactly
    when every event inside the window has a frequency index, and raises
    [IndexError] otherwise. *)
Theorem plotFI_returns_iff (alltrigs dt fi : list Q) (mintime maxtime : Q)
    (useBokeh ax : bool) :
  (if useBokeh then alltrigs <> [] else ax = true) ->
  let covered :=
    forall k t, dt !! k = Some t -> mintime <= t -> t <= maxtime ->
                (k < length fi)%nat in
  ((exists pts, plotFI alltrigs dt fi mintime maxtime useBokeh ax = Ok pts)
   <-> covered) /\
  (plotFI alltrigs dt fi mintime maxtime useBokeh ax = Raise IndexError
   <-> ~ covered).
Proof.
  intros Hpre covered.
  set (test := fun t => Qgeb t mintime && Qleb t maxtime).
  assert (Hunfold :
    plotFI alltrigs dt fi mintime maxtime useBokeh ax
    = take_at dt (np_where (test <$> dt)) ≫= (fun xs =>
        take_at fi (np_where (test <$> dt)) ≫= (fun ys =>
          Ok (zip xs ys)))).
  { unfold plotFI. destruct useBokeh.
    - destruct alltrigs; [contradiction|]. reflexivity.
    - rewrite Hpre. reflexivity. }
  assert (Hwhere : forall l k i,
            i ∈ where_from k (test <$> l) <->
            exists j t, i = (k + j)%nat /\ l !! j = Some t /\ test t = true).
  { induction l as [|a l IH]; intros k i.
    - simpl. split; [intros Hi; apply not_elem_of_nil in Hi; contradiction|].
      intros (j & t & _ & Hj & _). discriminate Hj.
    - rewrite fmap_cons. cbn [where_from].
      assert (Hrest : i ∈ where_from (S k) (test <$> l) <->
                exists j t, i = (k + S j)%nat /\ l !! j = Some t /\ test t = true).
      { rewrite IH. split; intros (j & t & -> & H); exists j, t;
          (split; [lia | exact H]). }
      destruct (test a) eqn:Ea.
      + rewrite elem_of_cons, Hrest. split.
        * intros [->|(j & t & -> & H)].
          -- exists 0%nat, a. split; [lia|]. auto.
          -- exists (S j), t. auto.
        * intros ([|j] & t & -> & Hj & Ht).
          -- left. lia.
          -- right. exists j, t. auto.
      + rewrite Hrest. split.
        * intros (j & t & -> & H). exists (S j), t. auto.
        * intros ([|j] & t & -> & Hj & Ht).
          -- simpl in Hj. injection Hj as ->. congruence.
          -- exists j, t. auto. }
  assert (Htest : forall t, test t = true <-> mintime <= t /\ t <= maxtime).
  { intros t. unfold test, Qgeb, Qleb.
    rewrite andb_true_iff, !Qle_bool_iff. reflexivity. }
  assert (Hxs : exists xs, take_at dt (np_where (test <$> dt)) = Ok xs).
  { apply ReportFacts.take_at_total. intros i Hi.
    apply Hwhere in Hi as (j & t & -> & Hj & _).
    exact (lookup_lt_Some _ _ _ Hj). }
  destruct Hxs as [xs Hxs].
  rewrite Hunfold, Hxs. cbn.
  destruct (take_at fi (np_where (test <$> dt))) as [ys|e] eqn:Hys; cbn.
  - assert (Hc : covered).
    { intros k t Hk H1 H2.
      assert (Hin : k ∈ np_where (test <$> dt)).
      { apply Hwhere. exists k, t. split; [reflexivity|].
        split; [exact Hk | apply Htest; auto]. }
      apply list_elem_of_lookup_1 in Hin as [i Hi].
      apply take_at_Ok in Hys.
      destruct (Forall2_lookup_l _ _ _ _ _ Hys Hi) as (y & _ & Hy).
      exact (lookup_lt_Some _ _ _ Hy). }
    split; split.
    + intros _. exact Hc.
    + intros _. eauto.
    + discriminate.
    + intros Hn. contradiction.
  - assert (Hn : ~ covered /\ e = IndexError).
    { split.
      - intros Hc.
        destruct (ReportFacts.take_at_total fi (np_where (test <$> dt)))
          as [ys Hys']; [|congruence].
        intros i Hi. apply Hwhere in Hi as (j & t & -> & Hj & Ht).
        apply Htest in Ht as [H1 H2]. exact (Hc j t Hj H1 H2).
      - exact (take_at_Raise _ _ _ Hys). }
    destruct Hn as [Hn ->]. split; split.
    + intros [pts Hpts]. discriminate Hpts.
    + intros Hc. contradiction.
    + intros _. exact Hn.
    + reflexivity.
Qed.

Lemma plotFI_returns_iff_witness :
  plotFI [250] [40; 101; 150] [0; 1] 100 200 true false = Raise IndexError
  <-> ~ (forall k t, [40; 101; 150] !! k = Some t -> 100 <= t -> t <= 200 ->
           (k < length [0; 1])%nat).
Proof.
  apply (plotFI_returns_iff [250] [40; 101; 150] [0; 1] 100 200 true false).
  discriminate.
Defined.

End FIFacts.

(** ** The layout of [renderBokehTimeline] *)

Module LayoutFacts.
Import Occurrence Layout.

Lemma split_nonempty sep s : split sep s <> [].
Proof.
  destruct s as [|c s]; simpl; [discriminate|].
  destruct (Ascii.eqb c sep); [discriminate|].
  destruct (split sep s); discriminate.
Qed.

Lemma split_length sep s : (1 <= length (split sep s))%nat.
Proof.
  pose proof (split_nonempty sep s). destruct (split sep s); [contradiction|].
  simpl. lia.
Qed.

Lemma split_sep sep s : split sep (String sep s) = EmptyString :: split sep s.
Proof. simpl. rewrite Ascii.eqb_refl. reflexivity. Qed.

Lemma split_other sep c s w ws :
  c <> sep -> split sep s = w :: ws -> split sep (String c s) = String c w :: ws.
Proof.
  intros Hc Hs. simpl. rewrite (proj2 (Ascii.eqb_neq c sep) Hc), Hs. reflexivity.
Qed.

(** The names of the plot format are those of its groups, one group after
    the other. *)
Lemma names_of_groups s :
  concat (split "+"%char <$> split ","%char s)
  = split ","%char (replace "+"%char ","%char s).
Proof.
  induction s as [|c s IH]; [reflexivity|].
  destruct (split ","%char s) as [|w ws] eqn:Es;
    [exfalso; exact (split_nonempty _ _ Es)|].
  destruct (split "+"%char w) as [|v vs] eqn:Ew;
    [exfalso; exact (split_nonempty _ _ Ew)|].
  rewrite fmap_cons, Ew in IH. simpl in IH.
  destruct (Ascii.eqb_spec c ","%char) as [->|Hcomma].
  - rewrite split_sep, Es. change (replace "+" "," (String "," s))
      with (String ","%char (replace "+"%char ","%char s)).
    rewrite split_sep, <- IH, !fmap_cons, Ew. reflexivity.
  - destruct (Ascii.eqb_spec c "+"%char) as [->|Hplus].
    + rewrite (split_other _ _ _ _ _ Hcomma Es).
      change (replace "+" "," (String "+" s))
        with (String ","%char (replace "+"%char ","%char s)).
      rewrite split_sep, <- IH, fmap_cons, split_sep, Ew. reflexivity.
    + rewrite (split_other _ _ _ _ _ Hcomma Es).
      assert (Er : replace "+" "," (String c s)
                   = String c (replace "+"%char ","%char s)).
      { simpl. rewrite (proj2 (Ascii.eqb_neq c "+"%char) Hplus). reflexivity. }
      rewrite Er, fmap_cons, (split_other _ _ _ _ _ Hplus Ew).
      symmetry. apply (split_other _ _ _ _ _ Hcomma). symmetry. exact IH.
Qed.

Lemma split_without sep s : contains sep s = false -> split sep s = [s].
Proof.
  induction s as [|c s IH]; [reflexivity|]. simpl.
  intros H. apply orb_false_iff in H as [Hc Hs].
  rewrite Hc, (IH Hs). reflexivity.
Qed.

Lemma omap_length_le {A B : Type} (f : A -> option B) (l : list A) :
  (length (omap f l) <= length l)%nat.
Proof.
  induction l as [|a l IH]; simpl; [lia|].
  change (list_omap _ _ f l) with (omap f l).
  destruct (f a); simpl; lia.
Qed.

Lemma omap_full {A B : Type} (f : A -> option B) (l : list A) :
  length (omap f l) = length l <-> Forall (fun a => is_Some (f a)) l.
Proof.
  induction l as [|a l IH]; simpl.
  - split; [constructor | reflexivity].
  - change (list_omap _ _ f l) with (omap f l).
    pose proof (omap_length_le f l). destruct (f a) eqn:E; simpl.
    + split.
      * intros Hlen. constructor; [rewrite E; eauto | apply IH; lia].
      * intros Hall. apply Forall_cons in Hall as [_ Hall].
        apply IH in Hall. lia.
    + split; [lia|]. intros Hall. apply Forall_cons in Hall as [[b Hb] _].
      congruence.
Qed.

Lemma omap_Forall2 {A B : Type} (f : A -> option B) (l : list A) :
  Forall (fun a => is_Some (f a)) l ->
  Forall2 (fun a b => f a = Some b) l (omap f l).
Proof.
  induction 1 as [|a l [b Hb] _ IH]; simpl; [constructor|].
  change (list_omap _ _ f l) with (omap f l).
  rewrite Hb. constructor; assumption.
Qed.

Lemma rfor_step {T : Type} (body : nat -> T -> result T) a n s s' :
  body a s = Ok s' ->
  rfor (seq a (S n)) body s = rfor (seq (S a) n) body s'.
Proof. intros H. cbn [seq rfor]. rewrite H. reflexivity. Qed.

Section Render.
Variable figure : Type.
Variable subplot : Q -> plot_type -> result figure.

(** The plots that are created: one for every name that is a plot type. *)
Lemma create_loop maxtime names : forall plots tabtitles plots' tabtitles',
  rfor names (create figure subplot maxtime) (plots, tabtitles)
  = Ok (plots', tabtitles') ->
  exists figs,
    plots' = plots ++ figs /\
    tabtitles' = tabtitles ++ (tabtitle <$> omap plot_type_of names) /\
    Forall2 (fun k fig => subplot maxtime k = Ok fig)
      (omap plot_type_of names) figs.
Proof.
  induction names as [|p names IH]; intros plots tabtitles plots' tabtitles' H.
  - simpl in H. injection H as <- <-. exists [].
    rewrite !app_nil_r. split; [reflexivity|]. split; [reflexivity|constructor].
  - cbn [rfor] in H. apply bind_Ok in H as ([plots1 titles1] & Hp & H).
    destruct (IH _ _ _ _ H) as (figs & -> & -> & HF).
    unfold create in Hp. simpl. destruct (plot_type_of p) as [k|].
    + apply bind_Ok in Hp as (fig & Hfig & [= <- <-]).
      exists (fig :: figs). rewrite <- !app_assoc. simpl.
      split; [reflexivity|]. split; [reflexivity|].
      constructor; assumption.
    + injection Hp as <- <-. exists figs. auto.
Qed.

Lemma create_loop_total maxtime names :
  (forall k, exists fig, subplot maxtime k = Ok fig) ->
  forall st, exists st', rfor names (create figure subplot maxtime) st = Ok st'.
Proof.
  intros Htotal. induction names as [|p names IH]; intros [plots tabtitles].
  - eexists. reflexivity.
  - cbn [rfor].
    assert (Hc : exists st1,
              create figure subplot maxtime p (plots, tabtitles) = Ok st1).
    { unfold create. destruct (plot_type_of p) as [k|]; [|eauto].
      destruct (Htotal k) as [fig ->]. cbn. eauto. }
    destruct Hc as [st1 ->]. cbn. apply IH.
Qed.

Section Place.
Variables (plots : list figure) (tabtitles : list string).
Hypothesis same_length : length tabtitles = length plots.

Lemma tab_Ok pnum pft tabs fig t :
  plots !! (pnum + pft)%nat = Some fig ->
  tabtitles !! (pnum + pft)%nat = Some t ->
  tab figure plots tabtitles pnum pft tabs = Ok (tabs ++ [(fig, t)]).
Proof using Type.
  intros Hfig Ht. unfold tab.
  rewrite (proj2 (index_Ok _ _ _) Hfig), (proj2 (index_Ok _ _ _) Ht).
  reflexivity.
Qed.

Lemma tab_Raise pnum pft tabs :
  (length plots <= pnum + pft)%nat ->
  tab figure plots tabtitles pnum pft tabs = Raise IndexError.
Proof using Type.
  intros Hge. unfold tab. rewrite (index_ge plots) by exact Hge. reflexivity.
Qed.

(** The tabs of a group: the plots from [pnum + a] on with their titles,
    as long as there are plots. *)
Lemma tabs_Ok pnum count : forall a tabs,
  (pnum + a + count <= length plots)%nat ->
  rfor (seq a count) (tab figure plots tabtitles pnum) tabs
  = Ok (tabs ++ zip (take count (drop (pnum + a) plots))
                    (take count (drop (pnum + a) tabtitles))).
Proof using same_length.
  induction count as [|count IH]; intros a tabs Hle.
  - simpl. rewrite app_nil_r. reflexivity.
  - destruct (lookup_lt_is_Some_2 plots (pnum + a)) as [fig Hfig]; [lia|].
    destruct (lookup_lt_is_Some_2 tabtitles (pnum + a)) as [t Ht]; [lia|].
    rewrite (rfor_step _ _ _ _ _ (tab_Ok _ _ _ _ _ Hfig Ht)).
    rewrite IH by lia.
    rewrite (drop_S _ _ _ Hfig), (drop_S _ _ _ Ht). simpl.
    rewrite <- app_assoc. simpl.
    replace (pnum + S a)%nat with (S (pnum + a)) by lia. reflexivity.
Qed.

Lemma tabs_Raise pnum count : forall a tabs,
  (0 < count)%nat -> (length plots < pnum + a + count)%nat ->
  rfor (seq a count) (tab figure plots tabtitles pnum) tabs = Raise IndexError.
Proof using same_length.
  induction count as [|count IH]; intros a tabs Hpos Hgt; [lia|].
  destruct (decide (pnum + a < length plots)%nat) as [Hlt|Hge].
  - destruct (lookup_lt_is_Some_2 plots (pnum + a)) as [fig Hfig]; [lia|].
    destruct (lookup_lt_is_Some_2 tabtitles (pnum + a)) as [t Ht]; [lia|].
    rewrite (rfor_step _ _ _ _ _ (tab_Ok _ _ _ _ _ Hfig Ht)).
    apply IH; lia.
  - cbn [seq rfor]. rewrite tab_Raise by lia. reflexivity.
Qed.

(** One row: it raises when the plots run out, and otherwise holds the
    next plots, as many as the group has names. *)
Lemma place_Ok pnum items pf :
  (pnum + length (split "+"%char pf) <= length plots)%nat ->
  exists row,
    place figure plots tabtitles pf (pnum, items)
    = Ok ((pnum + length (split "+"%char pf))%nat, items ++ [row]) /\
    tabbed_as figure pf row /\
    (cells figure row).*1
    = take (length (split "+"%char pf)) (drop pnum plots) /\
    Forall2 (titled figure) (cells figure row)
      (take (length (split "+"%char pf)) (drop pnum tabtitles)).
Proof using same_length.
  intros Hle. unfold place.
  pose proof (split_length "+"%char pf) as Hcount.
  destruct (contains "+"%char pf) eqn:Ec.
  - rewrite tabs_Ok by lia. cbn. rewrite Nat.add_0_r.
    eexists. split; [do 2 f_equal; lia|]. split; [exact Ec|].
    set (count := length (split "+"%char pf)) in *.
    assert (Hlen : length (take count (drop pnum plots))
                   = length (take count (drop pnum tabtitles))).
    { rewrite !length_take, !length_drop. lia. }
    revert Hlen.
    generalize (take count (drop pnum plots)) (take count (drop pnum tabtitles)).
    induction l as [|fig l IH]; intros [|t l0] Hlen; try discriminate Hlen.
    + split; constructor.
    + simpl in Hlen. destruct (IH l0 ltac:(lia)) as [H1 H2].
      split; [simpl; f_equal; exact H1|].
      constructor; [|exact H2]. intros t' [= <-]. reflexivity.
  - rewrite (split_without _ _ Ec) in Hle |- *. simpl in Hle |- *.
    destruct (lookup_lt_is_Some_2 plots pnum) as [fig Hfig]; [lia|].
    destruct (lookup_lt_is_Some_2 tabtitles pnum) as [t Ht]; [lia|].
    rewrite (proj2 (index_Ok _ _ _) Hfig). cbn.
    exists (Single figure fig). split; [reflexivity|]. split; [exact Ec|].
    rewrite (drop_S _ _ _ Hfig), (drop_S _ _ _ Ht). simpl.
    rewrite !take_0. split; [reflexivity|].
    constructor; [|constructor]. intros t' Hnone. discriminate Hnone.
Qed.

Lemma place_Raise pnum items pf :
  (length plots < pnum + length (split "+"%char pf))%nat ->
  place figure plots tabtitles pf (pnum, items) = Raise IndexError.
Proof using same_length.
  intros Hgt. unfold place.
  pose proof (split_length "+"%char pf) as Hcount.
  destruct (contains "+"%char pf) eqn:Ec.
  - rewrite tabs_Raise by lia. reflexivity.
  - rewrite (split_without _ _ Ec) in Hgt. simpl in Hgt.
    rewrite index_ge by lia. reflexivity.
Qed.

Lemma take_add {A : Type} (l : list A) a b :
  take (a + b) l = take a l ++ take b (drop a l).
Proof.
  revert l. induction a as [|a IH]; intros [|x l]; simpl;
    rewrite ?take_nil; try reflexivity.
  f_equal. apply IH.
Qed.

(** The rows of the groups [groups], placed from [pnum] on. *)
Lemma place_loop groups : forall pnum items,
  (pnum + length (concat (split "+"%char <$> groups)) <= length plots)%nat ->
  exists rows,
    rfor groups (place figure plots tabtitles) (pnum, items)
    = Ok ((pnum + length (concat (split "+"%char <$> groups)))%nat,
          items ++ rows) /\
    Forall2 (fun pf row =>
               tabbed_as figure pf row /\
               length (cells figure row) = length (split "+"%char pf))
      groups rows /\
    (concat (cells figure <$> rows)).*1
    = take (length (concat (split "+"%char <$> groups))) (drop pnum plots) /\
    Forall2 (titled figure) (concat (cells figure <$> rows))
      (take (length (concat (split "+"%char <$> groups)))
         (drop pnum tabtitles)).
Proof using same_length.
  induction groups as [|pf groups IH]; intros pnum items Hle.
  - exists []. simpl. rewrite Nat.add_0_r, app_nil_r, !take_0.
    repeat split; constructor.
  - rewrite fmap_cons, concat_cons, length_app in Hle |- *.
    destruct (place_Ok pnum items pf ltac:(lia))
      as (row & Hrow & Hkind & Hfigs & Htitles).
    destruct (IH (pnum + length (split "+"%char pf))%nat (items ++ [row])
                ltac:(lia))
      as (rows & Hrows & Hkinds & Hfigs' & Htitles').
    exists (row :: rows). cbn [rfor]. rewrite Hrow. cbn.
    rewrite Hrows. split; [rewrite <- app_assoc; do 2 f_equal; lia|].
    split; [|split].
    + constructor; [|exact Hkinds]. split; [exact Hkind|].
      rewrite <- (length_fmap fst), Hfigs, length_take, length_drop.
      pose proof (split_length "+"%char pf). lia.
    + rewrite fmap_app, Hfigs, Hfigs', take_add, drop_drop. reflexivity.
    + rewrite take_add, drop_drop.
      apply Forall2_app; [exact Htitles | exact Htitles'].
Qed.

Lemma place_loop_Raise groups : forall pnum items,
  (pnum <= length plots)%nat ->
  (length plots < pnum + length (concat (split "+"%char <$> groups)))%nat ->
  rfor groups (place figure plots tabtitles) (pnum, items) = Raise IndexError.
Proof using same_length.
  induction groups as [|pf groups IH]; intros pnum items Hin Hgt.
  - simpl in Hgt. lia.
  - rewrite fmap_cons, concat_cons, length_app in Hgt. cbn [rfor].
    destruct (decide (pnum + length (split "+"%char pf) <= length plots)%nat)
      as [Hle|Hover].
    + destruct (place_Ok pnum items pf Hle) as (row & -> & _). cbn.
      apply IH; lia.
    + rewrite place_Raise by lia. reflexivity.
Qed.

End Place.
Lemma cells_of_kinds (sub : plot_type -> result figure) :
  forall kinds (cs : list (figure * option string)),
  Forall2 (fun k fig => sub k = Ok fig) kinds cs.*1 ->
  Forall2 (titled figure) cs (tabtitle <$> kinds) ->
  Forall2 (fun k cell => sub k = Ok cell.1 /\ titled figure cell (tabtitle k))
    kinds cs.
Proof.
  induction kinds as [|k kinds IH]; intros [|cell cs] Hfigs Htitles;
    try (inversion Hfigs; fail).
  - constructor.
  - rewrite fmap_cons in Hfigs. rewrite fmap_cons in Htitles.
    apply Forall2_cons in Hfigs as [Hfig Hfigs].
    apply Forall2_cons in Htitles as [Htitle Htitles].
    constructor; [split; assumption | exact (IH cs Hfigs Htitles)].
Qed.

(** X15: when [renderBokehTimeline] returns, every name of the plot format
    is a plot type; the grid holds the title and then one row for every
    group of the format, in tabs exactly when the group has a [+], with as
    many plots as the group has names; and read row by row the plots are
    those of the names, in the order of the format, each tab under the
    title of its plot. *)
Theorem renderBokehTimeline_rows alltrigs plotformat items :
  renderBokehTimeline figure subplot alltrigs plotformat = Ok items ->
  exists maxtime kinds rows,
    py_max alltrigs = Ok maxtime /\
    Forall2 (fun p k => plot_type_of p = Some k)
      (split ","%char (replace "+"%char ","%char plotformat)) kinds /\
    items = Div figure :: rows /\
    Forall2 (fun pf row =>
               tabbed_as figure pf row /\
               length (cells figure row) = length (split "+"%char pf))
      (split ","%char plotformat) rows /\
    Forall2 (fun k cell =>
               subplot maxtime k = Ok cell.1 /\
               titled figure cell (tabtitle k))
      kinds (concat (cells figure <$> rows)).
Proof.
  intros H. unfold renderBokehTimeline in H.
  apply bind_Ok in H as (maxtime & Hmax & H).
  apply bind_Ok in H as ([plots tabtitles] & Hcreate & H).
  apply bind_Ok in H as (placed & Hplace & [= <-]).
  apply create_loop in Hcreate as (figs & Hplots & Htitles & Hfigs).
  simpl in Hplots, Htitles. subst plots tabtitles.
  set (names := split ","%char (replace "+"%char ","%char plotformat)) in *.
  set (kinds := omap plot_type_of names) in *.
  pose proof (Forall2_length _ _ _ Hfigs) as Hlen.
  assert (Hsame : length (tabtitle <$> kinds) = length figs)
    by (rewrite length_fmap; exact Hlen).
  assert (Hshort : (length kinds <= length names)%nat)
    by apply omap_length_le.
  assert (Htotal : length (concat (split "+"%char <$> split ","%char plotformat))
                   = length names)
    by exact (f_equal length (names_of_groups plotformat)).
  destruct (decide (length names <= length figs)%nat) as [Hle|Hgt].
  - destruct (place_loop figs (tabtitle <$> kinds) Hsame
                (split ","%char plotformat) 0%nat [Div figure])
      as (rows & Hrows & Hkinds & Hcells & Hcelltitles); [simpl; lia|].
    rewrite Hrows in Hplace. injection Hplace as <-.
    rewrite Htotal, drop_0, take_ge in Hcells by lia.
    rewrite Htotal, drop_0, take_ge in Hcelltitles by lia.
    exists maxtime, kinds, rows. split; [exact Hmax|]. split.
    { apply omap_Forall2, omap_full. change (length kinds = length names). lia. }
    split; [reflexivity|]. split; [exact Hkinds|].
    apply cells_of_kinds; [rewrite Hcells; exact Hfigs | exact Hcelltitles].
  - rewrite (place_loop_Raise figs (tabtitle <$> kinds) Hsame) in Hplace;
      [discriminate Hplace | lia | simpl; lia].
Qed.

(** X16: with triggers to take the latest of and subplots that can be
    drawn, [renderBokehTimeline] returns exactly when every name of the
    plot format is a plot type; a name that is not one is reported and
    passed over when the plots are created, but still counted when they are
    placed, and the function raises [IndexError]. *)
Theorem renderBokehTimeline_returns_iff alltrigs plotformat maxtime :
  py_max alltrigs = Ok maxtime ->
  (forall k, exists fig, subplot maxtime k = Ok fig) ->
  let valid :=
    Forall (fun p => is_Some (plot_type_of p))
      (split ","%char (replace "+"%char ","%char plotformat)) in
  ((exists items,
      renderBokehTimeline figure subplot alltrigs plotformat = Ok items)
   <-> valid) /\
  (renderBokehTimeline figure subplot alltrigs plotformat = Raise IndexError
   <-> ~ valid).
Proof.
  intros Hmax Htotal valid. unfold renderBokehTimeline. rewrite Hmax. cbn.
  set (names := split ","%char (replace "+"%char ","%char plotformat)) in *.
  destruct (create_loop_total maxtime names Htotal ([], []))
    as [[plots tabtitles] Hcreate].
  rewrite Hcreate. cbn.
  apply create_loop in Hcreate as (figs & Hplots & Htitles & Hfigs).
  simpl in Hplots, Htitles. subst plots tabtitles.
  set (kinds := omap plot_type_of names) in *.
  pose proof (Forall2_length _ _ _ Hfigs) as Hlen.
  assert (Hsame : length (tabtitle <$> kinds) = length figs)
    by (rewrite length_fmap; exact Hlen).
  assert (Hshort : (length kinds <= length names)%nat)
    by apply omap_length_le.
  assert (Hnames : length (concat (split "+"%char <$> split ","%char plotformat))
                   = length names)
    by exact (f_equal length (names_of_groups plotformat)).
  assert (Hfull : length kinds = length names <-> valid)
    by apply omap_full.
  destruct (decide (length kinds = length names)) as [Heq|Hne].
  - destruct (place_loop figs (tabtitle <$> kinds) Hsame
                (split ","%char plotformat) 0%nat [Div figure])
      as (rows & -> & _); [simpl; lia|]. cbn.
    apply Hfull in Heq. split; split.
    + intros _. exact Heq.
    + intros _. eauto.
    + discriminate.
    + intros Hn. contradiction.
  - rewrite (place_loop_Raise figs (tabtitle <$> kinds) Hsame);
      [|lia | simpl; lia]. cbn.
    assert (Hn : ~ valid) by (intros Hv; apply Hfull in Hv; contradiction).
    split; split.
    + intros [items Hitems]. discriminate Hitems.
    + intros Hv. contradiction.
    + intros _. exact Hn.
    + reflexivity.
Qed.

End Render.

Lemma renderBokehTimeline_rows_witness :
  exists maxtime kinds rows,
    py_max [100; 200]%Q = Ok maxtime /\
    Forall2 (fun p k => plot_type_of p = Some k)
      (split ","%char (replace "+"%char ","%char "eqrate,fi+longevity")) kinds /\
    [Div plot_type; Single plot_type EqRate;
     Tabs plot_type [(FreqIndex, "FI"); (Longev, "Longevity")]]
    = Div plot_type :: rows /\
    Forall2 (fun pf row =>
               tabbed_as plot_type pf row /\
               length (cells plot_type row) = length (split "+"%char pf))
      (split ","%char "eqrate,fi+longevity") rows /\
    Forall2 (fun k cell => Ok k = Ok cell.1 /\ titled plot_type cell (tabtitle k))
      kinds (concat (cells plot_type <$> rows)).
Proof.
  apply (renderBokehTimeline_rows plot_type (fun _ k => Ok k)
           [100; 200]%Q "eqrate,fi+longevity").
  vm_compute. reflexivity.
Defined.

Lemma renderBokehTimeline_returns_iff_witness :
  renderBokehTimeline plot_type (fun _ k => Ok k) [100; 200]%Q "eqrate,rate"
  = Raise IndexError
  <-> ~ Forall (fun p => is_Some (plot_type_of p))
          (split ","%char (replace "+"%char ","%char "eqrate,rate")).
Proof.
  apply (renderBokehTimeline_returns_iff plot_type (fun _ k => Ok k)
           [100; 200]%Q "eqrate,rate" 200%Q).
  - vm_compute. reflexivity.
  - intros k. exists k. reflexivity.
Defined.

End LayoutFacts.

(** ** The window and the grid of [customPDFoverview] *)

Module OverviewFacts.
Import Occurrence Layout Overview.

Lemma plot_type_of_Some p k :
  plot_type_of p = Some k ->
  p = match k with
      | EqRate => "eqrate"
      | FreqIndex => "fi"
      | Longev => "longevity"
      | Occur => "occurrence"
      | OccurFI => "occurrencefi"
      end.
Proof.
  unfold plot_type_of.
  repeat match goal with
         | |- context [String.eqb p ?s] =>
             destruct (String.eqb_spec p s) as [->|_];
             [intros [= <-]; reflexivity|]
         end.
  discriminate.
Qed.

(** A name that is a plot type counts as many rows as its subplot takes. *)
Lemma rows_step_valid occurheight p k nsub :
  plot_type_of p = Some k ->
  (if infix "occurrence" p then (nsub + occurheight)%nat else (nsub + 1)%nat)
  = (nsub + height occurheight k)%nat.
Proof.
  intros H. apply plot_type_of_Some in H as ->. destruct k; reflexivity.
Qed.

Lemma rows_from occurheight names : forall nsub,
  foldl (fun nsub p => if infix "occurrence" p
                       then (nsub + occurheight)%nat else (nsub + 1)%nat)
        nsub names
  = (nsub + rows occurheight names)%nat.
Proof.
  unfold rows. induction names as [|p names IH]; intros nsub; simpl; [lia|].
  rewrite IH, (IH (if infix "occurrence" p then _ else _)).
  destruct (infix "occurrence" p); lia.
Qed.

Lemma rows_cons occurheight p names :
  rows occurheight (p :: names)
  = ((if infix "occurrence" p then occurheight else 1) + rows occurheight names)%nat.
Proof.
  unfold rows at 1. simpl. rewrite rows_from.
  destruct (infix "occurrence" p); reflexivity.
Qed.

Lemma taken_app placed placed' :
  taken (placed ++ placed') = taken placed ++ taken placed'.
Proof. unfold taken. rewrite fmap_app, concat_app. reflexivity. Qed.

Lemma taken_cons k first last placed :
  taken ((k, first, last) :: placed)
  = seq first (last + 1 - first) ++ taken placed.
Proof. reflexivity. Qed.

Section Grid.
Variable axes : Type.
Variable reference : Q * Q * Q -> result axes.
Variable subplot : Q * Q * Q -> plot_type -> nat -> nat -> nat -> result axes.

(** The subplots of the names [names], placed after [pnum] rows. *)
Lemma cell_loop w occurheight nsub names : forall pnum placed pnum' placed',
  rfor names (cell axes subplot w occurheight nsub) (pnum, placed)
  = Ok (pnum', placed') ->
  exists new,
    placed' = placed ++ new /\
    new.*1.*1 = omap plot_type_of names /\
    taken new = seq (pnum + 1) (pnum' - pnum) /\
    (pnum <= pnum' <= pnum + rows occurheight names)%nat /\
    (Forall (fun p => is_Some (plot_type_of p)) names ->
     pnum' = (pnum + rows occurheight names)%nat) /\
    Forall (fun s => (pnum + 1 <= s.1.2)%nat /\ (s.2 <= pnum')%nat /\
                     (s.2 + 1 = s.1.2 + height occurheight s.1.1)%nat) new.
Proof.
  induction names as [|p names IH]; intros pnum placed pnum' placed' H.
  - simpl in H. injection H as <- <-. exists [].
    rewrite app_nil_r, Nat.sub_diag. unfold rows. simpl.
    repeat split; try lia. constructor.
  - cbn [rfor] in H. apply bind_Ok in H as ([pnum1 placed1] & Hcell & H).
    destruct (IH _ _ _ _ H) as (new & -> & Hkinds & Htaken & Hp & Hfull & Hall).
    rewrite rows_cons. unfold cell in Hcell. simpl.
    change (list_omap _ _ plot_type_of names) with (omap plot_type_of names).
    destruct (plot_type_of p) as [k|] eqn:Ek.
    + apply bind_Ok in Hcell as (ax & _ & [= <- <-]).
      pose proof (rows_step_valid occurheight p k 0 Ek) as Hstep.
      simpl in Hstep. rewrite Hstep in *.
      exists ((k, (pnum + 1)%nat, (pnum + height occurheight k)%nat) :: new).
      rewrite <- app_assoc. split; [reflexivity|].
      split; [simpl; f_equal; exact Hkinds|]. split; [|split; [|split]].
      * rewrite taken_cons, Htaken.
        replace (pnum + height occurheight k + 1 - (pnum + 1))%nat
          with (height occurheight k) by lia.
        replace (pnum' - pnum)%nat
          with (height occurheight k + (pnum' - (pnum + height occurheight k)))%nat
          by lia.
        rewrite seq_app. do 2 f_equal. lia.
      * lia.
      * intros Hv. apply Forall_cons in Hv as [_ Hv]. specialize (Hfull Hv). lia.
      * constructor; [simpl; lia|].
        eapply Forall_impl; [exact Hall|]. intros s (H1 & H2 & H3).
        repeat split; lia.
    + injection Hcell as <- <-. exists new. split; [reflexivity|].
      split; [exact Hkinds|]. split; [exact Htaken|]. split; [|split].
      * destruct (infix "occurrence" p); lia.
      * intros Hv. apply Forall_cons in Hv as [[k Hk] _]. congruence.
      * exact Hall.
Qed.

(** X17: the subplots of [customPDFoverview] are those of the names of the
    plot format that are plot types, in order; they take the rows 1, 2, ...
    of the grid without a gap and without an overlap, an occurrence plot
    [occurheight] rows and every other plot one row, and stay inside the
    [nsub] rows of the grid; they fill it when every name is a plot type. *)
Theorem customPDFoverview_grid
    tmin tmax occurheight plotformat alltrigs nsub placed :
  customPDFoverview axes reference subplot tmin tmax occurheight plotformat
    alltrigs = Ok (nsub, placed) ->
  let names := split ","%char (replace "+"%char ","%char plotformat) in
  nsub = rows occurheight names /\
  placed.*1.*1 = omap plot_type_of names /\
  exists pnum,
    taken placed = seq 1 pnum /\ (pnum <= nsub)%nat /\
    (Forall (fun p => is_Some (plot_type_of p)) names -> pnum = nsub) /\
    Forall (fun s => (1 <= s.1.2)%nat /\ (s.2 <= nsub)%nat /\
                     (s.2 + 1 = s.1.2 + height occurheight s.1.1)%nat) placed.
Proof.
  intros H names. unfold customPDFoverview in H.
  apply bind_Ok in H as (w & _ & H).
  apply bind_Ok in H as (ax & _ & H).
  apply bind_Ok in H as ([pnum placed'] & Hloop & [= <- <-]).
  apply cell_loop in Hloop as (new & -> & Hkinds & Htaken & Hp & Hfull & Hall).
  subst names. simpl in *. rewrite Nat.sub_0_r in Htaken.
  split; [reflexivity|]. split; [exact Hkinds|].
  exists pnum. split; [exact Htaken|]. split; [lia|]. split; [exact Hfull|].
  eapply Forall_impl; [exact Hall|]. intros s (H1 & H2 & H3).
  repeat split; lia.
Qed.

End Grid.

Lemma customPDFoverview_grid_witness :
  let names := split ","%char (replace "+"%char ","%char "eqrate,occurrence,rate") in
  5%nat = rows 3 names /\
  [(EqRate, 1%nat, 1%nat); (Occur, 2%nat, 4%nat)].*1.*1
  = omap plot_type_of names /\
  exists pnum,
    taken [(EqRate, 1%nat, 1%nat); (Occur, 2%nat, 4%nat)] = seq 1 pnum /\
    (pnum <= 5)%nat /\
    (Forall (fun p => is_Some (plot_type_of p)) names -> pnum = 5%nat) /\
    Forall (fun s => (1 <= s.1.2)%nat /\ (s.2 <= 5)%nat /\
                     (s.2 + 1 = s.1.2 + height 3 s.1.1)%nat)
      [(EqRate, 1%nat, 1%nat); (Occur, 2%nat, 4%nat)].
Proof.
  apply (customPDFoverview_grid unit (fun _ => Ok ()) (fun _ _ _ _ _ => Ok ())
           0 0 3 "eqrate,occurrence,rate" [100; 200]%Q).
  vm_compute. reflexivity.
Defined.

(** X18: the window of [customPDFoverview] is not checked: a [tmin] or
    [tmax] that is set is used as it is, and the padding is negative
    exactly when the window is inverted; with both left at 0 the window runs
    from the first to the last trigger, and then [mintime <= maxtime] and
    the padding is not negative. *)
Theorem window_defaults tmin tmax alltrigs mintime maxtime barpad :
  window tmin tmax alltrigs = Ok (mintime, maxtime, barpad) ->
  ((~ tmin == 0)%Q -> mintime = tmin) /\
  ((~ tmax == 0)%Q -> maxtime = tmax) /\
  ((0 <= barpad)%Q <-> (mintime <= maxtime)%Q) /\
  ((tmin == 0)%Q -> (tmax == 0)%Q ->
   py_min alltrigs = Ok mintime /\ py_max alltrigs = Ok maxtime /\
   (mintime <= maxtime)%Q /\ (0 <= barpad)%Q).
Proof.
  intros H. unfold window in H.
  apply bind_Ok in H as (lo & Hlo & H).
  apply bind_Ok in H as (hi & Hhi & [= <- <- <-]).
  split; [|split; [|split]].
  - intros Hn. destruct (Qeq_bool tmin 0) eqn:E.
    + apply Qeq_bool_iff in E. contradiction.
    + congruence.
  - intros Hn. destruct (Qeq_bool tmax 0) eqn:E.
    + apply Qeq_bool_iff in E. contradiction.
    + congruence.
  - split; intros Hb; lra.
  - intros Hmin Hmax.
    apply Qeq_bool_iff in Hmin, Hmax. rewrite Hmin in Hlo. rewrite Hmax in Hhi.
    split; [exact Hlo|]. split; [exact Hhi|].
    assert (Hle : (lo <= hi)%Q).
    { destruct alltrigs as [|x a]; [discriminate Hlo|].
      simpl in Hlo, Hhi. injection Hlo as <-. injection Hhi as <-.
      apply Qle_trans with x;
        [apply TimelineFacts.foldl_min_le | apply TimelineFacts.foldl_max_ge];
        left. }
    split; [exact Hle | lra].
Qed.

Lemma window_defaults_witness :
  ((~ 0 == 0)%Q -> 100%Q = 0%Q) /\
  ((~ 0 == 0)%Q -> 200%Q = 0%Q) /\
  ((0 <= (1 # 100) * (200 - 100))%Q <-> (100 <= 200)%Q) /\
  ((0 == 0)%Q -> (0 == 0)%Q ->
   py_min [150; 100; 200]%Q = Ok 100%Q /\ py_max [150; 100; 200]%Q = Ok 200%Q /\
   (100 <= 200)%Q /\ (0 <= (1 # 100) * (200 - 100))%Q).
Proof.
  apply (window_defaults 0 0 [150; 100; 200]%Q). reflexivity.
Defined.

End OverviewFacts.

(** ** The OPTICS ordering of [plotReport] *)

Module OrderingFacts.
Import Report Ordering ReportFacts.

(** Reordering twice is reordering by the composed order. *)
Lemma reorder_twice (C C1 C2 : matrix) s order p :
  reorder C s = Ok C1 -> reorder C1 order = Ok C2 ->
  take_at s order = Ok p ->
  square (length p) C2 /\
  forall a b pa pb, p !! a = Some pa -> p !! b = Some pb ->
    mget C2 a b = mget C pa pb.
Proof.
  intros H1 H2 Hp.
  destruct (reorder_Ok _ _ _ H1) as [_ Hcell1].
  destruct (reorder_Ok _ _ _ H2) as [Hsq2 Hcell2].
  rewrite (take_at_length _ _ _ Hp). split; [exact Hsq2|].
  intros a b pa pb Ha Hb.
  apply take_at_Ok in Hp.
  destruct (Forall2_lookup_r _ _ _ _ _ Hp Ha) as (oa & Hoa & Hsa).
  destruct (Forall2_lookup_r _ _ _ _ _ Hp Hb) as (ob & Hob & Hsb).
  rewrite (Hcell2 a b oa ob Hoa Hob). exact (Hcell1 oa ob pa pb Hsa Hsb).
Qed.

(** X19: in the order of OPTICS both matrices still belong to the list of
    events: there is one list of positions [p] by which the events and the
    rows and columns of both matrices were taken from those in order of
    time, so the cell [a, b] is the correlation of the events [a] and [b] of
    the new list; both matrices are square of the new size, and a matrix
    that was symmetric with ones on the diagonal still is. *)
Theorem ordered_matrices_follow_events
    optics famcat (Cind Cfull : matrix) famcat' Cind' Cfull' :
  ordered optics famcat Cind Cfull = Ok (famcat', Cind', Cfull') ->
  exists p,
    length famcat' = length p /\
    (forall a pa, p !! a = Some pa -> famcat' !! a = famcat !! pa) /\
    Forall (fun pa => (pa < length famcat)%nat) p /\
    square (length p) Cind' /\ square (length p) Cfull' /\
    (forall a b pa pb, p !! a = Some pa -> p !! b = Some pb ->
       mget Cind' a b = mget Cind pa pb /\
       mget Cfull' a b = mget Cfull pa pb) /\
    (symmetric Cind -> symmetric Cind') /\
    (symmetric Cfull -> symmetric Cfull') /\
    (unit_diagonal (length famcat) Cind -> unit_diagonal (length p) Cind') /\
    (unit_diagonal (length famcat) Cfull -> unit_diagonal (length p) Cfull').
Proof.
  intros H. unfold ordered in H.
  apply bind_Ok in H as (totals & _ & H).
  set (s := rev (argsort totals)) in H.
  apply bind_Ok in H as (D & _ & H).
  apply bind_Ok in H as (famcat1 & Hf1 & H).
  apply bind_Ok in H as (Cind1 & HI1 & H).
  apply bind_Ok in H as (Cfull1 & HF1 & H).
  apply bind_Ok in H as (order & _ & H).
  apply bind_Ok in H as (famcat2 & Hf2 & H).
  apply bind_Ok in H as (Cind2 & HI2 & H).
  apply bind_Ok in H as (Cfull2 & HF2 & [= <- <- <-]).
  pose proof (take_at_length _ _ _ Hf1) as Hlen1.
  destruct (take_at_total s order) as [p Hp].
  { intros o Ho.
    apply list_elem_of_lookup_1 in Ho as [a Ha].
    apply take_at_Ok in Hf2.
    destruct (Forall2_lookup_l _ _ _ _ _ Hf2 Ha) as (x & _ & Hx).
    apply lookup_lt_Some in Hx. lia. }
  destruct (reorder_twice _ _ _ _ _ _ HI1 HI2 Hp) as [HsqI' HcellI].
  destruct (reorder_twice _ _ _ _ _ _ HF1 HF2 Hp) as [HsqF' HcellF].
  assert (Hev : forall a pa, p !! a = Some pa -> famcat2 !! a = famcat !! pa).
  { intros a pa Ha. apply take_at_Ok in Hp.
    destruct (Forall2_lookup_r _ _ _ _ _ Hp Ha) as (oa & Hoa & Hsa).
    rewrite (take_at_lookup _ _ _ _ _ Hf2 Hoa).
    exact (take_at_lookup _ _ _ _ _ Hf1 Hsa). }
  assert (Hrange : Forall (fun pa => (pa < length famcat)%nat) p).
  { apply Forall_lookup. intros a pa Ha.
    pose proof (Hev a pa Ha) as E.
    assert (Hlt : (a < length famcat2)%nat).
    { rewrite (take_at_length _ _ _ Hf2), <- (take_at_length _ _ _ Hp).
      exact (lookup_lt_Some _ _ _ Ha). }
    destruct (lookup_lt_is_Some_2 famcat2 a Hlt) as [x Hx].
    rewrite Hx in E. symmetry in E. exact (lookup_lt_Some _ _ _ E). }
  assert (Hsym : forall (C C' : matrix),
            square (length p) C' ->
            (forall a b pa pb, p !! a = Some pa -> p !! b = Some pb ->
               mget C' a b = mget C pa pb) ->
            symmetric C -> symmetric C').
  { intros C C' Hsq Hcell HC a b.
    destruct (decide (a < length p /\ b < length p)%nat) as [[Ha Hb]|Hout].
    - destruct (lookup_lt_is_Some_2 p a Ha) as [pa Hpa].
      destruct (lookup_lt_is_Some_2 p b Hb) as [pb Hpb].
      rewrite (Hcell a b pa pb Hpa Hpb), (Hcell b a pb pa Hpb Hpa). apply HC.
    - rewrite (mget_out_of_range _ _ a b Hsq Hout).
      rewrite (mget_out_of_range _ _ b a Hsq); [reflexivity|lia]. }
  assert (Hdiag : forall (C C' : matrix),
            (forall a b pa pb, p !! a = Some pa -> p !! b = Some pb ->
               mget C' a b = mget C pa pb) ->
            unit_diagonal (length famcat) C -> unit_diagonal (length p) C').
  { intros C C' Hcell HC a Ha.
    destruct (lookup_lt_is_Some_2 p a Ha) as [pa Hpa].
    rewrite (Hcell a a pa pa Hpa Hpa). apply HC.
    exact (proj1 (Forall_lookup _ _) Hrange a pa Hpa). }
  exists p. split.
  { rewrite (take_at_length _ _ _ Hf2), (take_at_length _ _ _ Hp). reflexivity. }
  split; [exact Hev|]. split; [exact Hrange|].
  split; [exact HsqI'|]. split; [exact HsqF'|]. split.
  { intros a b pa pb Ha Hb. split; [apply HcellI | apply HcellF]; assumption. }
  split; [exact (Hsym Cind Cind2 HsqI' HcellI)|].
  split; [exact (Hsym Cfull Cfull2 HsqF' HcellF)|].
  split; [exact (Hdiag Cind Cind2 HcellI) | exact (Hdiag Cfull Cfull2 HcellF)].
Qed.

Lemma ordered_matrices_follow_events_witness :
  exists p,
    length [9; 7; 5]%nat = length p /\
    (forall a pa, p !! a = Some pa -> [9; 7; 5]%nat !! a = [5; 7; 9]%nat !! pa) /\
    Forall (fun pa => (pa < length [5; 7; 9]%nat)%nat) p /\
    square (length p) [[1; 0; 0]; [0; 1; 9 # 10]; [0; 9 # 10; 1]]%Q /\
    square (length p) [[1; 1 # 2; 4 # 5]; [1 # 2; 1; 9 # 10]; [4 # 5; 9 # 10; 1]]%Q /\
    (forall a b pa pb, p !! a = Some pa -> p !! b = Some pb ->
       mget [[1; 0; 0]; [0; 1; 9 # 10]; [0; 9 # 10; 1]]%Q a b
       = mget [[1; 9 # 10; 0]; [9 # 10; 1; 0]; [0; 0; 1]]%Q pa pb /\
       mget [[1; 1 # 2; 4 # 5]; [1 # 2; 1; 9 # 10]; [4 # 5; 9 # 10; 1]]%Q a b
       = mget [[1; 9 # 10; 4 # 5]; [9 # 10; 1; 1 # 2]; [4 # 5; 1 # 2; 1]]%Q pa pb) /\
    (symmetric [[1; 9 # 10; 0]; [9 # 10; 1; 0]; [0; 0; 1]]%Q ->
     symmetric [[1; 0; 0]; [0; 1; 9 # 10]; [0; 9 # 10; 1]]%Q) /\
    (symmetric [[1; 9 # 10; 4 # 5]; [9 # 10; 1; 1 # 2]; [4 # 5; 1 # 2; 1]]%Q ->
     symmetric [[1; 1 # 2; 4 # 5]; [1 # 2; 1; 9 # 10]; [4 # 5; 9 # 10; 1]]%Q) /\
    (unit_diagonal (length [5; 7; 9]%nat) [[1; 9 # 10; 0]; [9 # 10; 1; 0]; [0; 0; 1]]%Q ->
     unit_diagonal (length p) [[1; 0; 0]; [0; 1; 9 # 10]; [0; 9 # 10; 1]]%Q) /\
    (unit_diagonal (length [5; 7; 9]%nat) [[1; 9 # 10; 4 # 5]; [9 # 10; 1; 1 # 2]; [4 # 5; 1 # 2; 1]]%Q ->
     unit_diagonal (length p) [[1; 1 # 2; 4 # 5]; [1 # 2; 1; 9 # 10]; [4 # 5; 9 # 10; 1]]%Q).
Proof.
  apply (ordered_matrices_follow_events (fun D => Ok (seq 0 (length D)))
           [5; 7; 9]%nat
           [[1; 9 # 10; 0]; [9 # 10; 1; 0]; [0; 0; 1]]%Q
           [[1; 9 # 10; 4 # 5]; [9 # 10; 1; 1 # 2]; [4 # 5; 1 # 2; 1]]%Q).
  vm_compute. reflexivity.
Defined.

End OrderingFacts.

(** ** The image files of [createPlots] *)

Module FilesFacts.
Import Files.

(** X21: [cleanHTML] never fails; afterwards the pages with a number from
    [newnClust] up to, but not including, [oldnClust] are gone and every
    other page is still there; with [newnClust >= oldnClust] nothing
    changes. *)
Theorem cleanHTML_removes_the_range oldnClust newnClust (pages : gset nat) :
  exists pages',
    cleanHTML oldnClust newnClust pages = Some pages' /\
    (forall fnum, fnum ∈ pages' <->
       fnum ∈ pages /\ ~ (newnClust <= fnum < oldnClust)) /\
    (oldnClust <= newnClust -> pages' = pages).
Proof.
  unfold cleanHTML.
  assert (Hloop : forall count start (ps : gset nat),
            exists ps',
              ofor (seq start count)
                (fun fnum pages =>
                   if decide (fnum ∈ pages) then os_remove pages fnum
                   else Some pages) ps = Some ps' /\
              forall fnum, fnum ∈ ps' <->
                fnum ∈ ps /\ ~ (start <= fnum < start + count)).
  { induction count as [|count IH]; intros start ps.
    - exists ps. split; [reflexivity|]. intros fnum. split; [|tauto].
      intros H. split; [exact H | lia].
    - cbn [seq ofor]. unfold os_remove.
      destruct (decide (start ∈ ps)) as [Hin|Hout].
      + cbn.
        destruct (IH (S start) (ps ∖ {[start]})) as (ps' & Hrun & Hps').
        exists ps'. split; [exact Hrun|]. intros fnum.
        rewrite Hps', elem_of_difference, elem_of_singleton. split.
        * intros [[H1 H2] H3]. split; [exact H1 | lia].
        * intros [H1 H2]. split; [split; [exact H1 | lia] | lia].
      + cbn. destruct (IH (S start) ps) as (ps' & Hrun & Hps').
        exists ps'. split; [exact Hrun|]. intros fnum. rewrite Hps'. split.
        * intros [H1 H2]. split; [exact H1|].
          intros H3. destruct (decide (fnum = start)) as [->|Hne];
            [contradiction | lia].
        * intros [H1 H2]. split; [exact H1 | lia]. }
  destruct (Hloop (oldnClust - newnClust) newnClust pages) as (ps' & Hrun & Hps').
  exists ps'. split; [exact Hrun|]. split.
  - intros fnum. rewrite Hps'. split; intros [H1 H2]; (split; [exact H1 | lia]).
  - intros Hle. apply set_eq. intros fnum. rewrite Hps'. split.
    + intros [H _]. exact H.
    + intros H. split; [exact H | lia].
Qed.

Section Images.
Variable image : Type.

Lemma os_rename_Some (fs : gmap path image) src dst img :
  fs !! src = Some img ->
  os_rename image fs src dst = Some (<[dst := img]> (delete src fs)).
Proof. intros H. unfold os_rename. rewrite H. reflexivity. Qed.

(** A batch of renames whose sources are there, with sources and targets
    all different: every target gets the image of its source, the sources
    are gone, and nothing else changes. *)
Lemma renames_spec (R : list (path * path)) : forall fs : gmap path image,
  NoDup R.*1 -> NoDup R.*2 ->
  (forall s d, s ∈ R.*1 -> d ∈ R.*2 -> s <> d) ->
  (forall s, s ∈ R.*1 -> is_Some (fs !! s)) ->
  exists fs',
    ofor R (fun sd fs => os_rename image fs sd.1 sd.2) fs = Some fs' /\
    (forall s d, (s, d) ∈ R -> fs' !! d = fs !! s) /\
    (forall s, s ∈ R.*1 -> fs' !! s = None) /\
    (forall p, p ∉ R.*1 -> p ∉ R.*2 -> fs' !! p = fs !! p).
Proof.
  induction R as [|[s d] R IH]; intros fs Hsrc Hdst Hdisj Hthere.
  - exists fs. split; [reflexivity|]. split; [|split].
    + intros s d H. apply not_elem_of_nil in H. contradiction.
    + intros s H. apply not_elem_of_nil in H. contradiction.
    + reflexivity.
  - rewrite !fmap_cons in *. cbn [fst snd] in *.
    apply NoDup_cons in Hsrc as [Hs Hsrc]. apply NoDup_cons in Hdst as [Hd Hdst].
    destruct (Hthere s) as [img Himg]; [left|].
    assert (Hsd : s <> d) by (apply Hdisj; left).
    assert (HdR : d ∉ R.*1).
    { intros H. apply (Hdisj d d); [right; exact H | left | reflexivity]. }
    assert (HsR : s ∉ R.*2).
    { intros H. apply (Hdisj s s); [left | right; exact H | reflexivity]. }
    set (fs1 := <[d := img]> (delete s fs)).
    assert (Hfs1 : forall p, p <> s -> p <> d -> fs1 !! p = fs !! p).
    { intros p Hps Hpd. unfold fs1.
      rewrite lookup_insert_ne by congruence.
      rewrite lookup_delete_ne by congruence. reflexivity. }
    destruct (IH fs1 Hsrc Hdst) as (fs' & Hrun & Hmoved & Hgone & Hrest).
    { intros s' d' Hs' Hd'. apply Hdisj; right; assumption. }
    { intros s' Hs'. rewrite Hfs1.
      - apply Hthere. right. exact Hs'.
      - intros ->. contradiction.
      - intros ->. contradiction. }
    exists fs'. split; [|split; [|split]].
    + cbn [ofor fst snd]. rewrite (os_rename_Some _ _ _ _ Himg). exact Hrun.
    + intros s' d' Hin. apply elem_of_cons in Hin as [[= -> ->]|Hin].
      * rewrite (Hrest d HdR Hd). unfold fs1.
        rewrite lookup_insert_eq. symmetry. exact Himg.
      * rewrite (Hmoved s' d' Hin). apply Hfs1.
        -- intros ->. apply Hs. apply list_elem_of_fmap. exists (s, d'). auto.
        -- intros ->. apply HdR. apply list_elem_of_fmap. exists (d, d'). auto.
    + intros s' Hin. apply elem_of_cons in Hin as [->|Hin]; [|exact (Hgone s' Hin)].
      rewrite (Hrest s Hs HsR). unfold fs1.
      rewrite lookup_insert_ne by congruence. apply lookup_delete_eq.
    + intros p Hp1 Hp2. rewrite not_elem_of_cons in Hp1, Hp2.
      destruct Hp1 as [Hps Hp1]. destruct Hp2 as [Hpd Hp2].
      rewrite (Hrest p Hp1 Hp2). exact (Hfs1 p Hps Hpd).
Qed.

Lemma ofor_app {A S : Type} (body : A -> S -> option S) (l l' : list A) s :
  ofor (l ++ l') body s = ofor l body s ≫= ofor l' body.
Proof.
  revert s. induction l as [|a l IH]; intros s; simpl; [reflexivity|].
  destruct (body a s) as [s1|]; simpl; [apply IH | reflexivity].
Qed.

Lemma rev_reverse {A : Type} (l : list A) : rev l = reverse l.
Proof. unfold reverse. apply rev_alt. Qed.

Lemma ofor_bind {A B S : Type} (f : A -> list B) (body : B -> S -> option S)
    (l : list A) : forall s,
  ofor l (fun a s => ofor (f a) body s) s = ofor (l ≫= f) body s.
Proof.
  induction l as [|a l IH]; intros s; [reflexivity|].
  change ((a :: l) ≫= f) with (f a ++ (l ≫= f)).
  rewrite ofor_app. cbn [ofor].
  destruct (ofor (f a) body s) as [s1|]; simpl; [apply IH | reflexivity].
Qed.

Lemma move_moves (nrow : nat * frow) (fs : gmap path image) :
  move image nrow fs
  = ofor (moves nrow) (fun sd fs => os_rename image fs sd.1 sd.2) fs.
Proof.
  destruct nrow as [n row]. unfold move, moves.
  destruct (negb (lastprint row =? n) && (printme row =? 0)); [|reflexivity].
  cbn [ofor fst snd].
  destruct (os_rename image fs _ _) as [fs1|]; simpl; [|reflexivity].
  destruct (os_rename image fs1 _ _); reflexivity.
Qed.

Lemma in_numbered (ftable : list frow) n row :
  (n, row) ∈ numbered ftable <-> ftable !! n = Some row.
Proof.
  unfold numbered. split.
  - intros Hin. apply list_elem_of_lookup_1 in Hin as [i Hi].
    apply lookup_zip_Some in Hi as [Hseq Hm].
    apply lookup_seq in Hseq as [Hc _]. simpl in Hc. subst n. exact Hm.
  - intros Hm. apply (list_elem_of_lookup_2 _ n).
    apply lookup_zip_Some. split; [|exact Hm].
    apply lookup_seq. split; [reflexivity|].
    exact (lookup_lt_Some _ _ _ Hm).
Qed.

Lemma in_moves n row s d :
  (s, d) ∈ moves (n, row) <->
  lastprint row <> n /\ printme row = 0%nat /\
  exists k, s = (k, lastprint row, false) /\ d = (k, n, true).
Proof.
  unfold moves.
  destruct (Nat.eqb_spec (lastprint row) n) as [Heq|Hne];
    destruct (Nat.eqb_spec (printme row) 0) as [Hp|Hp]; simpl.
  all: split;
    [intros H | intros (H1 & H2 & k & -> & ->)]; try contradiction.
  all: try (apply not_elem_of_nil in H; contradiction).
  - split; [exact Hne|]. split; [exact Hp|].
    apply elem_of_cons in H as [[= -> ->]|H]; [exists CorePng; auto|].
    apply list_elem_of_singleton in H as [= -> ->]. exists FamPng. auto.
  - destruct k; [left | right; left].
Qed.

(** A write to every numbered family that asks for one. *)
Lemma writes_spec (k : kind) (test : frow -> bool) (img : nat -> image)
    (l : list (nat * frow)) : forall fs : gmap path image,
  NoDup l.*1 ->
  let fs' := foldl (fun fs '(n, row) =>
                      if test row then savefig image fs (k, n, false) (img n)
                      else fs) fs l in
  (forall n row, (n, row) ∈ l -> test row = true ->
     fs' !! (k, n, false) = Some (img n)) /\
  (forall p, (forall n row, (n, row) ∈ l -> test row = true -> p <> (k, n, false)) ->
     fs' !! p = fs !! p).
Proof.
  induction l as [|[n row] l IH]; intros fs Hnd; simpl.
  - split; [|reflexivity]. intros n row H. apply not_elem_of_nil in H. contradiction.
  - rewrite fmap_cons in Hnd. apply NoDup_cons in Hnd as [Hn Hnd]. simpl in Hn.
    destruct (IH (if test row then savefig image fs (k, n, false) (img n) else fs)
                Hnd) as [W1 W2].
    split.
    + intros m row' Hin Ht. apply elem_of_cons in Hin as [[= -> ->]|Hin].
      * rewrite W2.
        -- rewrite Ht. apply lookup_insert_eq.
        -- intros m row' Hin' _ [= <-]. apply Hn.
           apply list_elem_of_fmap. exists (n, row'). auto.
      * exact (W1 m row' Hin Ht).
    + intros p Hp. rewrite W2.
      * destruct (test row) eqn:Ht; [|reflexivity].
        apply lookup_insert_ne. intros <-.
        apply (Hp n row); [left | exact Ht | reflexivity].
      * intros m row' Hin Ht. apply (Hp m row'); [right; exact Hin | exact Ht].
Qed.

Lemma ofor_ext {A S : Type} (body body' : A -> S -> option S) (l : list A) s :
  (forall a s, body a s = body' a s) -> ofor l body s = ofor l body' s.
Proof.
  intros Hext. revert s. induction l as [|a l IH]; intros s; [reflexivity|].
  simpl. rewrite Hext. destruct (body' a s); simpl; [apply IH | reflexivity].
Qed.

Lemma ofor_fmap {A B S : Type} (f : A -> B) (body : B -> S -> option S)
    (l : list A) : forall s,
  ofor (f <$> l) body s = ofor l (fun a s => body (f a) s) s.
Proof.
  induction l as [|a l IH]; intros s; [reflexivity|].
  simpl. destruct (body (f a) s); simpl; [apply IH | reflexivity].
Qed.

Variables (core_image fam_image : nat -> image).
Variable glob : gmap path image -> list path.
Hypothesis glob_spec : forall fs : gmap path image,
  NoDup (glob fs) /\ forall p, p ∈ glob fs <-> p.2 = true /\ is_Some (fs !! p).

(** Taking the temporary names off: the image of every temporary path
    goes to the path without the ending, and no temporary path is left. *)
Lemma strip_spec (fs : gmap path image) :
  exists fs',
    ofor (glob fs) (fun tmp fs => os_rename image fs tmp (strip tmp)) fs
    = Some fs' /\
    (forall p, p.2 = true -> fs' !! p = None) /\
    (forall k n, fs' !! (k, n, false)
                 = match fs !! (k, n, true) with
                   | Some img => Some img
                   | None => fs !! (k, n, false)
                   end).
Proof using glob_spec.
  destruct (glob_spec fs) as [Hnd Hglob].
  set (R := (fun t => (t, strip t)) <$> glob fs).
  assert (HR1 : R.*1 = glob fs).
  { unfold R. rewrite <- list_fmap_compose. apply list_fmap_id. }
  assert (HR2 : R.*2 = strip <$> glob fs).
  { unfold R. rewrite <- list_fmap_compose. reflexivity. }
  destruct (renames_spec R fs) as (fs' & Hrun & Hmoved & Hgone & Hrest).
  - rewrite HR1. exact Hnd.
  - rewrite HR2. apply NoDup_fmap_2_strong; [|exact Hnd].
    intros [[k n] b] [[k' n'] b'] Hin Hin' Heq.
    apply Hglob in Hin as [Hb _]. apply Hglob in Hin' as [Hb' _].
    simpl in *. unfold strip in Heq. simpl in Heq. congruence.
  - intros s d Hs Hd. rewrite HR1 in Hs. rewrite HR2 in Hd.
    apply Hglob in Hs as [Hs _].
    apply list_elem_of_fmap in Hd as (t & -> & _).
    intros ->. discriminate Hs.
  - intros s Hs. rewrite HR1 in Hs. apply Hglob in Hs as [_ Hs]. exact Hs.
  - exists fs'. split.
    { unfold R in Hrun. rewrite ofor_fmap in Hrun. exact Hrun. }
    split.
    + intros p Hp. destruct (decide (p ∈ glob fs)) as [Hin|Hout].
      * apply Hgone. rewrite HR1. exact Hin.
      * rewrite Hrest.
        -- destruct (fs !! p) eqn:E; [|reflexivity].
           exfalso. apply Hout, Hglob. split; [exact Hp | eauto].
        -- rewrite HR1. exact Hout.
        -- rewrite HR2. intros Hin.
           apply list_elem_of_fmap in Hin as (t & -> & _). discriminate Hp.
    + intros k n. destruct (fs !! (k, n, true)) as [img|] eqn:E.
      * assert (Hin : (k, n, true) ∈ glob fs) by (apply Hglob; eauto).
        rewrite (Hmoved (k, n, true) (k, n, false)); [exact E|].
        unfold R. apply list_elem_of_fmap. exists (k, n, true). auto.
      * apply Hrest.
        -- rewrite HR1. intros Hin. apply Hglob in Hin as [Hb _]. discriminate Hb.
        -- rewrite HR2. intros Hin.
           apply list_elem_of_fmap in Hin as ([[k' n'] b] & Heq & Hin).
           apply Hglob in Hin as [Hb [img Himg]]. simpl in Hb. subst b.
           unfold strip in Heq. simpl in Heq. injection Heq as <- <-.
           congruence.
Qed.

(** The moves of [plotCores]: the images of every family that has a new
    number and is not drawn again wait under the temporary name of the new
    number, and every other image is where it was. *)
Lemma moves_spec (ftable : list frow) (fs : gmap path image) :
  (forall n m rn rm, ftable !! n = Some rn -> ftable !! m = Some rm ->
     lastprint rn = lastprint rm -> n = m) ->
  (forall n row k, ftable !! n = Some row ->
     lastprint row <> n -> printme row = 0%nat ->
     is_Some (fs !! (k, lastprint row, false))) ->
  exists fs1,
    ofor (rev (numbered ftable)) (move image) fs = Some fs1 /\
    (forall n row k, ftable !! n = Some row ->
       lastprint row <> n -> printme row = 0%nat ->
       fs1 !! (k, n, true) = fs !! (k, lastprint row, false)) /\
    (forall k n,
       (forall row, ftable !! n = Some row ->
          ~ (lastprint row <> n /\ printme row = 0%nat)) ->
       fs1 !! (k, n, true) = fs !! (k, n, true)) /\
    (forall k n,
       (forall m row, ftable !! m = Some row -> lastprint row = n ->
          ~ (lastprint row <> m /\ printme row = 0%nat)) ->
       fs1 !! (k, n, false) = fs !! (k, n, false)).
Proof using Type.
  intros Hinj Hsrc.
  set (R := rev (numbered ftable) ≫= moves).
  assert (HR : forall s d, (s, d) ∈ R <->
            exists n row, ftable !! n = Some row /\ (s, d) ∈ moves (n, row)).
  { intros s d. unfold R. rewrite list_elem_of_bind. split.
    - intros ([n row] & Hin & Hl).
      rewrite rev_reverse, elem_of_reverse in Hl. apply in_numbered in Hl.
      exists n, row. auto.
    - intros (n & row & Hl & Hin). exists (n, row). split; [exact Hin|].
      rewrite rev_reverse, elem_of_reverse. apply in_numbered, Hl. }
  assert (Hshape : forall s d, (s, d) ∈ R ->
            exists n row k, ftable !! n = Some row /\
              lastprint row <> n /\ printme row = 0%nat /\
              s = (k, lastprint row, false) /\ d = (k, n, true)).
  { intros s d Hin. apply HR in Hin as (n & row & Hl & Hin).
    apply in_moves in Hin as (H1 & H2 & k & -> & ->).
    exists n, row, k. auto. }
  assert (HndR : NoDup R).
  { unfold R. apply NoDup_bind.
    - intros [n row] [m row'] [s d] Hin Hin' Hy Hy'.
      apply in_moves in Hy as (_ & _ & k & -> & ->).
      apply in_moves in Hy' as (_ & _ & k' & _ & [= _ ->]).
      rewrite rev_reverse, elem_of_reverse in Hin, Hin'.
      apply in_numbered in Hin. apply in_numbered in Hin'. congruence.
    - intros [n row] _. unfold moves.
      destruct (negb (lastprint row =? n) && (printme row =? 0));
        [|constructor].
      apply NoDup_cons. split; [|apply NoDup_singleton].
      intros H. apply list_elem_of_singleton in H. discriminate H.
    - rewrite rev_reverse, reverse_Permutation.
      unfold numbered. apply NoDup_zip_l, NoDup_seq. }
  destruct (renames_spec R fs) as (fs1 & Hrun & Hmoved & Hgone & Hrest).
  - apply NoDup_fmap_2_strong; [|exact HndR].
    intros [s d] [s' d'] Hin Hin' Heq. simpl in Heq. subst s'.
    apply Hshape in Hin as (n & row & k & Hl & _ & _ & -> & ->).
    apply Hshape in Hin' as (m & row' & k' & Hl' & _ & _ & [= <- Hlast] & ->).
    rewrite (Hinj n m row row' Hl Hl' Hlast). reflexivity.
  - apply NoDup_fmap_2_strong; [|exact HndR].
    intros [s d] [s' d'] Hin Hin' Heq. simpl in Heq. subst d'.
    apply Hshape in Hin as (n & row & k & Hl & _ & _ & -> & ->).
    apply Hshape in Hin' as (m & row' & k' & Hl' & _ & _ & -> & [= <- <-]).
    assert (row' = row) as -> by congruence. reflexivity.
  - intros s d Hs Hd.
    apply list_elem_of_fmap in Hs as ([s0 d0] & -> & Hs).
    apply list_elem_of_fmap in Hd as ([s1 d1] & -> & Hd).
    apply Hshape in Hs as (n & row & k & _ & _ & _ & -> & _).
    apply Hshape in Hd as (m & row' & k' & _ & _ & _ & _ & ->).
    simpl. discriminate.
  - intros s Hs. apply list_elem_of_fmap in Hs as ([s0 d0] & -> & Hs).
    apply Hshape in Hs as (n & row & k & Hl & H1 & H2 & -> & _).
    exact (Hsrc n row k Hl H1 H2).
  - exists fs1. split.
    { rewrite (ofor_ext _ _ _ _ (move_moves)). rewrite ofor_bind. exact Hrun. }
    split; [|split].
    + intros n row k Hl H1 H2. apply Hmoved, HR.
      exists n, row. split; [exact Hl|]. apply in_moves. eauto.
    + intros k n Hnot. apply Hrest.
      * intros Hin. apply list_elem_of_fmap in Hin as ([s d] & Heq & Hin).
        apply Hshape in Hin as (m & row & k' & _ & _ & _ & Hs & _).
        simpl in Heq. rewrite Hs in Heq. discriminate Heq.
      * intros Hin. apply list_elem_of_fmap in Hin as ([s d] & Heq & Hin).
        apply Hshape in Hin as (m & row & k' & Hl & H1 & H2 & _ & Hd).
        simpl in Heq. rewrite Hd in Heq. injection Heq as _ <-.
        exact (Hnot row Hl (conj H1 H2)).
    + intros k n Hnot. apply Hrest.
      * intros Hin. apply list_elem_of_fmap in Hin as ([s d] & Heq & Hin).
        apply Hshape in Hin as (m & row & k' & Hl & H1 & H2 & Hs & _).
        simpl in Heq. rewrite Hs in Heq. injection Heq as _ Hn.
        exact (Hnot m row Hl (eq_sym Hn) (conj H1 H2)).
      * intros Hin. apply list_elem_of_fmap in Hin as ([s d] & Heq & Hin).
        apply Hshape in Hin as (m & row & k' & _ & _ & _ & _ & Hd).
        simpl in Heq. rewrite Hd in Heq. discriminate Heq.
Qed.

(** X20: when [createPlots] plots, with flags [printme] that are 0 or 1,
    previous numbers [lastprint] that differ from family to family, the
    images of the previous numbers in place for the families that moved and
    no temporary file lying around, it comes to an end with no temporary
    file left, and every family has its own images under its number: the
    new ones if it was drawn again, and otherwise those that it had under
    its previous number. *)
Theorem images_follow_families (nrep : nat) (ftable : list frow)
    (fs : gmap path image) :
  (1 <? nrep) && (0 <? foldr Nat.add 0 (printme <$> ftable)) = true ->
  Forall (fun row => printme row <= 1) ftable ->
  (forall n m rn rm, ftable !! n = Some rn -> ftable !! m = Some rm ->
     lastprint rn = lastprint rm -> n = m) ->
  (forall n row k, ftable !! n = Some row ->
     lastprint row <> n -> printme row = 0%nat ->
     is_Some (fs !! (k, lastprint row, false))) ->
  (forall p, p.2 = true -> fs !! p = None) ->
  exists fs',
    createPlots image core_image fam_image glob nrep ftable fs = Some fs' /\
    (forall p, p.2 = true -> fs' !! p = None) /\
    (forall n row, ftable !! n = Some row ->
       fs' !! (CorePng, n, false)
       = (if printme row =? 1 then Some (core_image n)
          else fs !! (CorePng, lastprint row, false)) /\
       fs' !! (FamPng, n, false)
       = (if printme row =? 1 then Some (fam_image n)
          else fs !! (FamPng, lastprint row, false))).
Proof using glob_spec.
  intros Hplot Hflag Hinj Hsrc Hclean.
  destruct (moves_spec ftable fs Hinj Hsrc) as (fs1 & Hrun & Hmoved & Hstay & Hkeep).
  unfold createPlots, plotCores. rewrite Hplot, Hrun. cbn [mbind option_bind].
  set (fs2 := foldl _ fs1 (numbered ftable)).
  assert (Hnd : NoDup (numbered ftable).*1).
  { unfold numbered. rewrite fst_zip by (rewrite length_seq; lia). apply NoDup_seq. }
  destruct (writes_spec CorePng (fun row => printme row =? 1) core_image
              (numbered ftable) fs1 Hnd) as [Wc1 Wc2].
  fold fs2 in Wc1, Wc2.
  destruct (writes_spec FamPng (fun row => negb (printme row =? 0)) fam_image
              (numbered ftable) fs2 Hnd) as [Wf1 Wf2].
  change (foldl _ fs2 (numbered ftable))
    with (plotFamilies image fam_image ftable fs2) in Wf1, Wf2.
  set (fs3 := plotFamilies image fam_image ftable fs2) in *.
  destruct (strip_spec fs3) as (fs' & Hstrip & Hnotmp & Hfinal).
  exists fs'. split; [exact Hstrip|]. split; [exact Hnotmp|].
  assert (Htmp : forall k n, fs3 !! (k, n, true) = fs1 !! (k, n, true)).
  { intros k n. rewrite Wf2 by (intros; discriminate).
    apply Wc2. intros; discriminate. }
  intros n row Hl.
  pose proof (proj1 (Forall_lookup _ _) Hflag n row Hl) as Hle. simpl in Hle.
  destruct (Nat.eqb_spec (printme row) 1) as [Hone|Hnot].
  - (* drawn again *)
    assert (Hno : forall k, fs3 !! (k, n, true) = None).
    { intros k. rewrite Htmp, Hstay; [apply Hclean; reflexivity|].
      intros row' Hl' [_ H0]. assert (row' = row) as -> by congruence. lia. }
    rewrite !Hfinal, !Hno. split.
    + rewrite Wf2 by (intros; discriminate).
      apply (Wc1 n row); [apply in_numbered, Hl | apply Nat.eqb_eq, Hone].
    + apply (Wf1 n row); [apply in_numbered, Hl|].
      rewrite Hone. reflexivity.
  - assert (Hzero : printme row = 0%nat) by lia.
    assert (Hkept : forall k, fs3 !! (k, n, false) = fs1 !! (k, n, false)).
    { intros k. rewrite Wf2, Wc2; [reflexivity| |].
      - intros m row' Hin Ht [= _ <-]. apply in_numbered in Hin.
        assert (row' = row) as -> by congruence.
        apply Nat.eqb_eq in Ht. lia.
      - intros m row' Hin Ht [= _ <-]. apply in_numbered in Hin.
        assert (row' = row) as -> by congruence.
        rewrite Hzero in Ht. discriminate Ht. }
    destruct (decide (lastprint row = n)) as [Hsame|Hnew].
    + (* neither drawn again nor moved *)
      assert (Hno : forall k, fs3 !! (k, n, true) = None).
      { intros k. rewrite Htmp, Hstay; [apply Hclean; reflexivity|].
        intros row' Hl' [Hne _]. assert (row' = row) as -> by congruence.
        contradiction. }
      assert (Hhere : forall k, fs1 !! (k, n, false) = fs !! (k, n, false)).
      { intros k. apply Hkeep. intros m row' Hl' Hlast [Hne _].
        apply Hne. rewrite Hlast. apply (Hinj n m row row' Hl Hl'). congruence. }
      rewrite !Hfinal, !Hno, !Hkept, !Hhere, Hsame. auto.
    + (* moved *)
      assert (Hthere : forall k,
                fs3 !! (k, n, true) = fs !! (k, lastprint row, false)).
      { intros k. rewrite Htmp. exact (Hmoved n row k Hl Hnew Hzero). }
      rewrite !Hfinal, !Hthere.
      destruct (Hsrc n row CorePng Hl Hnew Hzero) as [c ->].
      destruct (Hsrc n row FamPng Hl Hnew Hzero) as [f ->]. auto.
Qed.

End Images.

Lemma example_glob_spec (fs : gmap path nat) :
  NoDup (example_glob fs) /\
  forall p, p ∈ example_glob fs <-> p.2 = true /\ is_Some (fs !! p).
Proof.
  unfold example_glob. split.
  - apply NoDup_filter, NoDup_fst_map_to_list.
  - intros p. rewrite list_elem_of_filter, list_elem_of_fmap.
    split; intros [Hp Hin]; (split; [exact Hp|]).
    + destruct Hin as ([q img] & -> & Hin).
      apply elem_of_map_to_list in Hin. eauto.
    + destruct Hin as [img Himg]. exists (p, img).
      split; [reflexivity | apply elem_of_map_to_list, Himg].
Qed.

Lemma images_follow_families_witness :
  exists fs',
    createPlots nat (fun n => 100 + n)%nat (fun n => 200 + n)%nat example_glob
      2 example_ftable example_files = Some fs' /\
    (forall p, p.2 = true -> fs' !! p = None) /\
    (forall n row, example_ftable !! n = Some row ->
       fs' !! (CorePng, n, false)
       = (if printme row =? 1 then Some (100 + n)%nat
          else example_files !! (CorePng, lastprint row, false)) /\
       fs' !! (FamPng, n, false)
       = (if printme row =? 1 then Some (200 + n)%nat
          else example_files !! (FamPng, lastprint row, false))).
Proof.
  apply (images_follow_families nat (fun n => 100 + n)%nat (fun n => 200 + n)%nat
           example_glob example_glob_spec 2 example_ftable example_files).
  - reflexivity.
  - repeat constructor.
  - intros [|[|[|n]]] [|[|[|m]]] rn rm; simpl;
      intros [= <-] [= <-]; simpl; intros H; try reflexivity; discriminate H.
  - intros [|[|[|n]]] row k; simpl; intros [= <-]; simpl; intros Hne _;
      try contradiction; destruct k; eexists; vm_compute; reflexivity.
  - intros p Hp. apply not_elem_of_list_to_map_1. simpl.
    intros Hin. repeat (apply elem_of_cons in Hin as [->|Hin]; [discriminate Hp|]).
    apply not_elem_of_nil in Hin. exact Hin.
Defined.

End FilesFacts.

(** ** The traces of [createJunkPlots] *)

Module JunkFacts.
Import Occurrence Junk.
Local Open Scope Q_scope.

(** X22: the traces of the junk plots are scaled to lie strictly between
    -1 and 1, sample by sample, so that the two lines that clip them change
    nothing. *)
Theorem normalize_within_unit datc out :
  normalize datc = Ok out ->
  exists top,
    py_max ((fun x => Qabs x + 1 / 1000) <$> datc) = Ok top /\
    out = (fun x => x / top) <$> datc /\
    Forall (fun v => -1 < v /\ v < 1) out.
Proof.
  intros H. unfold normalize in H.
  apply bind_Ok in H as (top & Htop & [= <-]).
  exists top. split; [exact Htop|].
  assert (Hbound : forall x, x ∈ datc -> Qabs x + 1 / 1000 <= top).
  { intros x Hx. apply (TimelineFacts.py_max_ge _ _ _ Htop).
    apply list_elem_of_fmap. exists x. auto. }
  assert (Hin : forall x, x ∈ datc -> -1 < x / top /\ x / top < 1).
  { intros x Hx. specialize (Hbound x Hx).
    assert (Hc : 0 < 1 / 1000) by reflexivity.
    set (c := 1 / 1000) in *.
    assert (Hpos : 0 < top).
    { pose proof (Qabs_nonneg x). lra. }
    pose proof (Qle_Qabs x) as H1.
    pose proof (Qle_Qabs (- x)) as H2. rewrite Qabs_opp in H2.
    split.
    - apply Qlt_shift_div_l; [exact Hpos|]. lra.
    - apply Qlt_shift_div_r; [exact Hpos|]. lra. }
  assert (Hclip : forall l, Forall (fun v => -1 < v /\ v < 1) l -> clip l = l).
  { unfold clip. induction 1 as [|v l [Hlo Hhi] _ IH]; [reflexivity|].
    rewrite !fmap_cons. f_equal; [|exact IH].
    unfold Qgtb, Qltb.
    destruct (Qle_bool v 1) eqn:E1; simpl.
    - destruct (Qle_bool (-1) v) eqn:E2; simpl; [reflexivity|].
      apply Qle_bool_false in E2. lra.
    - apply Qle_bool_false in E1. lra. }
  assert (Hall : Forall (fun v => -1 < v /\ v < 1) ((fun x => x / top) <$> datc)).
  { apply Forall_fmap, Forall_forall. intros x Hx. exact (Hin x Hx). }
  rewrite (Hclip _ Hall). split; [reflexivity | exact Hall].
Qed.

Lemma normalize_within_unit_witness :
  exists top,
    py_max ((fun x => Qabs x + 1 / 1000) <$> [3; -4; 1 # 2]) = Ok top /\
    clip ((fun x => x / (4 + 1 / 1000)) <$> [3; -4; 1 # 2])
    = (fun x => x / top) <$> [3; -4; 1 # 2] /\
    Forall (fun v => -1 < v /\ v < 1)
      (clip ((fun x => x / (4 + 1 / 1000)) <$> [3; -4; 1 # 2])).
Proof.
  apply (normalize_within_unit [3; -4; 1 # 2]). reflexivity.
Defined.

End JunkFacts.

(** ** The three timelines of [plotTimelines] *)

Module TimelinesFacts.
Import Occurrence Layout Timelines LayoutFacts.





Section Render.
Variable figure : Type.
Variable subplot : Q -> Q -> Q -> plot_type -> result figure.


End Render.


End TimelinesFacts.
